(** * EARL agent (src/earl.py): a shallow embedding and its properties

    Numbers.  The code is embedded twice.  The first embedding, on which
    the theorems are proved, runs it on exact numbers: Python's [float]
    (and the [int]s it mixes with them: the initial history entries, the
    default [alpha]) are the exact rationals [Q], so that nothing rounds
    or overflows.  Equality of computed numbers is therefore [Qeq] ([==])
    unless a value is stored as it stands, and a statement that rests on
    exact arithmetic says so.  The second embedding, module [Binary64],
    runs the same code on binary64 floats; the last part of the file
    evaluates it where floats depart from the exact numbers.
    [mutation_step], its bounds and the tick counter are Python [int]s,
    modelled by [Z].

    Effects.  The agent is a mutable object driven by an ambient random
    generator, by the caller's actions and by the caller's fitness probe.
    A method is a function from a [World] (agent, environment, generator)
    to a [result] and the world it leaves behind: an exception keeps every
    write made before it, as in Python. *)

From Stdlib Require Import QArith Qfield Lqa ZArith Lia.
From Corelib Require Import PrimFloat.
From stdpp Require Import base list.

Local Open Scope Q_scope.

(** ** Exceptions *)

Inductive exn : Type :=
| ZeroDivisionError   (* raised by [/] and [%] of the agent's own code *)
| IndexError          (* raised by [l[i]] out of range *)
| CalleeError         (* anything raised by an action or the fitness probe *)
| OverflowError.      (* raised by [**] on floats, result out of range *)

Inductive result (A : Type) : Type :=
| Ok (a : A)
| Raise (e : exn).
Arguments Ok {A} a.
Arguments Raise {A} e.

Definition rbind {A B} (r : result A) (f : A -> result B) : result B :=
  match r with
  | Ok a => f a
  | Raise e => Raise e
  end.

(** ** Python's arithmetic on the model's numbers *)

(** Truth value of a number: [if total:] is [total != 0]. *)
Definition truthy (x : Q) : bool := negb (Qeq_bool x 0).

Definition Qltb (x y : Q) : bool := negb (Qle_bool y x).

(** [a / b]: true division, raising on a zero divisor. *)
Definition py_div (a b : Q) : result Q :=
  if Qeq_bool b 0 then Raise ZeroDivisionError else Ok (a / b).

(** [a % b] on integers: the sign follows the divisor, as [Z.modulo]. *)
Definition py_mod (a b : Z) : result Z :=
  if (b =? 0)%Z then Raise ZeroDivisionError else Ok (a mod b)%Z.

(** [max(a, b)] and [min(a, b)] keep the first argument on a tie. *)
Definition py_max (a b : Q) : Q := if Qltb a b then b else a.
Definition py_min (a b : Q) : Q := if Qltb b a then b else a.

(** [sum(l)]: starts from 0 and adds from the left. *)
Definition py_sum (l : list Q) : Q := fold_left Qplus l 0.

(** An [int] count used as a number, as in [x / len(l)]. *)
Definition of_int (n : nat) : Q := inject_Z (Z.of_nat n).

(** A list comprehension whose element expression may raise. *)
Fixpoint comprehension {A B} (f : A -> result B) (l : list A) : result (list B) :=
  match l with
  | [] => Ok []
  | x :: l' =>
      rbind (f x) (fun y => rbind (comprehension f l') (fun ys => Ok (y :: ys)))
  end.

(** [l[i]] and [l[i] = v] for [i] a non-negative index. *)
Definition getitem {A} (l : list A) (i : nat) : result A :=
  match l !! i with
  | Some x => Ok x
  | None => Raise IndexError
  end.

Definition setitem {A} (l : list A) (i : nat) (v : A) : result (list A) :=
  if decide (i < length l)%nat then Ok (<[i := v]> l) else Raise IndexError.

(** ** The two pure helpers *)

(** [_normalize(self, l)]; [self] is not used. *)
Definition _normalize (l : list Q) : result (list Q) :=
  let total := py_sum l in
  if truthy total then
    comprehension (fun i => py_div i total) l
  else
    let n := length l in
    comprehension (fun _ => py_div 1 (of_int n)) (seq 0 n).

(** [_variance(self, l)]; [self] is not used. *)
Definition _variance (l : list Q) : result Q :=
  match l with
  | [] => Ok 0
  | _ =>
      rbind (py_div (py_sum l) (of_int (length l))) (fun mean =>
      py_div (py_sum (map (fun x => (x - mean) ^ 2) l)) (of_int (length l)))
  end.

(** ** Methods: state and exceptions

    A computation over a state [S] returns a result and the state it
    leaves; a raised exception stops the computation and keeps the state
    reached. *)

Definition M (S A : Type) : Type := S -> result A * S.

Definition ret {S A} (a : A) : M S A := fun w => (Ok a, w).

Definition bind {S A B} (m : M S A) (f : A -> M S B) : M S B :=
  fun w =>
    match m w with
    | (Ok a, w') => f a w'
    | (Raise e, w') => (Raise e, w')
    end.

(** An expression that may raise, evaluated inside a method. *)
Definition lift {S A} (r : result A) : M S A := fun w => (r, w).

Declare Scope py_scope.
Delimit Scope py_scope with py.
Notation "'let*' x ':=' m 'in' k" := (bind m (fun x => k))
  (at level 10, x name, m at level 100, k at level 200) : py_scope.
Notation "m ;; k" := (bind m (fun _ => k))
  (at level 100, k at level 200, right associativity) : py_scope.

(** [for x in l: body], the loop's local variables carried as [acc]. *)
Fixpoint for_acc {S A B} (l : list A) (acc : B) (body : B -> A -> M S B) : M S B :=
  match l with
  | [] => ret acc
  | x :: l' => bind (body acc x) (fun acc' => for_acc l' acc' body)
  end.

Definition for_ {S A} (l : list A) (body : A -> M S unit) : M S unit :=
  for_acc l tt (fun _ x => body x).

(** ** The world a method runs in *)

(** [random.random()]: the ambient generator, as a state and a step. *)
Class RandomGen (G : Type) := next_random : G -> Q * G.

Section Agent.
Context {Env G : Type} `{RandomGen G}.
Local Open Scope py_scope.

(** A zero-argument callable of the caller: it may change the
    environment, and it returns a value or raises ([None]). *)
Definition callable (A : Type) : Type := Env -> option A * Env.

Record EARL_Agent : Type := mkAgent {
  action_space : list (callable unit);
  weight_map : list Q;
  alpha : Q;
  fitness_func : callable Q;
  last_fitness : Q;
  mutation_step : Z;
  weight_variance_threshold : Q;
  min_mutation_step : Z;
  max_mutation_step : Z;
  mutation_strength : Q;
  history : list Q;
  history_bias_strength : Q;
  history_decay_factor : Q;
  ticks : Z
}.

(** The attributes written after construction. *)
Definition set_weight_map (v : list Q) (s : EARL_Agent) : EARL_Agent :=
  mkAgent (action_space s) v (alpha s) (fitness_func s) (last_fitness s)
    (mutation_step s) (weight_variance_threshold s) (min_mutation_step s)
    (max_mutation_step s) (mutation_strength s) (history s)
    (history_bias_strength s) (history_decay_factor s) (ticks s).

Definition set_history (v : list Q) (s : EARL_Agent) : EARL_Agent :=
  mkAgent (action_space s) (weight_map s) (alpha s) (fitness_func s)
    (last_fitness s) (mutation_step s) (weight_variance_threshold s)
    (min_mutation_step s) (max_mutation_step s) (mutation_strength s) v
    (history_bias_strength s) (history_decay_factor s) (ticks s).

Definition set_mutation_step (v : Z) (s : EARL_Agent) : EARL_Agent :=
  mkAgent (action_space s) (weight_map s) (alpha s) (fitness_func s)
    (last_fitness s) v (weight_variance_threshold s) (min_mutation_step s)
    (max_mutation_step s) (mutation_strength s) (history s)
    (history_bias_strength s) (history_decay_factor s) (ticks s).

Definition set_last_fitness (v : Q) (s : EARL_Agent) : EARL_Agent :=
  mkAgent (action_space s) (weight_map s) (alpha s) (fitness_func s) v
    (mutation_step s) (weight_variance_threshold s) (min_mutation_step s)
    (max_mutation_step s) (mutation_strength s) (history s)
    (history_bias_strength s) (history_decay_factor s) (ticks s).

Definition set_ticks (v : Z) (s : EARL_Agent) : EARL_Agent :=
  mkAgent (action_space s) (weight_map s) (alpha s) (fitness_func s)
    (last_fitness s) (mutation_step s) (weight_variance_threshold s)
    (min_mutation_step s) (max_mutation_step s) (mutation_strength s)
    (history s) (history_bias_strength s) (history_decay_factor s) v.

(** What is outside the agent: the caller's environment and the
    generator behind [random]. *)
Record Ambient : Type := mkAmbient {
  env : Env;
  gen : G
}.

Record World : Type := mkWorld {
  self : EARL_Agent;
  amb : Ambient
}.

(** [random.random()] and [random.uniform(a, b)], the latter as the
    library computes it: [a + (b - a) * random()]. *)
Definition draw (x : Ambient) : Q * Ambient :=
  let (u, g) := next_random (gen x) in (u, mkAmbient (env x) g).

Definition random_random : M World Q :=
  fun w => let (u, x) := draw (amb w) in (Ok u, mkWorld (self w) x).

Definition random_uniform (a b : Q) : M World Q :=
  let* u := random_random in
  ret (a + (b - a) * u).

(** Calling a callable of the caller. *)
Definition invoke {A} (f : callable A) : M Ambient A :=
  fun x =>
    let (r, e) := f (env x) in
    (match r with Some a => Ok a | None => Raise CalleeError end,
     mkAmbient e (gen x)).

Definition call {A} (f : callable A) : M World A :=
  fun w => let (r, x) := invoke f (amb w) in (r, mkWorld (self w) x).

(** [self.f] read, and [self.f = v] written. *)
Definition attr {A} (f : EARL_Agent -> A) : M World A :=
  fun w => (Ok (f (self w)), w).

Definition assign (upd : EARL_Agent -> EARL_Agent) : M World unit :=
  fun w => (Ok tt, mkWorld (upd (self w)) (amb w)).

(** ** The methods *)

(** [_generate_weight_map(self)]: it reads [self.action_space] only, and
    runs before the other attributes exist. *)
Definition _generate_weight_map (action_space : list (callable unit))
  : M Ambient (list Q) :=
  let* weight_map :=
    for_acc action_space [] (fun acc _ =>
      fun x => let (u, x') := draw x in (Ok (acc ++ [u]), x')) in
  lift (_normalize weight_map).

(** [__init__]: the attributes in the order they are assigned. *)
Definition __init__ (action_space : list (callable unit))
    (fitness_func : callable Q)
    (weight_variance_threshold mutation_strength : Q)
    (min_mutation_step max_mutation_step : Z)
    (history_bias_strength history_decay_factor alpha : Q)
  : M Ambient EARL_Agent :=
  let* weight_map := _generate_weight_map action_space in
  let* last_fitness := invoke fitness_func in
  let mutation_step := min_mutation_step in
  let history := map (fun _ => 0) action_space in
  let ticks := 0%Z in
  ret (mkAgent action_space weight_map alpha fitness_func last_fitness
         mutation_step weight_variance_threshold min_mutation_step
         max_mutation_step mutation_strength history
         history_bias_strength history_decay_factor ticks).

Definition _adjust_mutation_step : M World unit :=
  let* wm := attr weight_map in
  let* v := lift (_variance wm) in
  let* threshold := attr weight_variance_threshold in
  if Qltb v threshold then
    let* lo := attr min_mutation_step in
    let* step := attr mutation_step in
    assign (set_mutation_step (Z.max lo (step - 1)))
  else
    let* hi := attr max_mutation_step in
    let* step := attr mutation_step in
    assign (set_mutation_step (Z.min hi (step + 1))).

Definition _mutate_weight_map : M World unit :=
  let* wm := attr weight_map in
  for_ (seq 0 (length wm)) (fun i =>
    let* wm := attr weight_map in
    let* w_i := lift (getitem wm i) in
    let* strength := attr mutation_strength in
    let* u := random_uniform (- strength) strength in
    let* wm := attr weight_map in
    let* wm' := lift (setitem wm i (py_min 1 (py_max 0 (w_i + u)))) in
    assign (set_weight_map wm')).

Definition _adjust_weight_map (delta_fitness : Q) (indices : list nat)
  : M World unit :=
  match indices with
  | [] => ret tt
  | _ =>
      let* weight_modifier :=
        lift (py_div delta_fitness (of_int (length indices))) in
      for_ indices (fun index =>
        let* h := attr history in
        let* h_i := lift (getitem h index) in
        let* decay := attr history_decay_factor in
        let* h' := lift (setitem h index (h_i * decay)) in
        assign (set_history h') ;;
        let* h := attr history in
        let* h_i := lift (getitem h index) in
        let* strength := attr history_bias_strength in
        let history_bias := 1 + (h_i * strength) in
        let* wm := attr weight_map in
        let* w_i := lift (getitem wm index) in
        let* a := attr alpha in
        let* wm' :=
          lift (setitem wm index
                  (py_min 1 (py_max 0
                     (w_i + (weight_modifier * a * history_bias))))) in
        assign (set_weight_map wm')) ;;
      let* wm := attr weight_map in
      let* wm' := lift (_normalize wm) in
      assign (set_weight_map wm')
  end.

(** The sampling loop of [tick]: one draw per weight, in order; a fired
    index is recorded and then its action is called. *)
Definition sample_actions : M World (list nat) :=
  let* wm := attr weight_map in
  for_acc (imap (fun i weight => (i, weight)) wm) []
    (fun indices '(i, weight) =>
       let* u := random_random in
       if Qltb u weight then
         let indices := indices ++ [i] in
         let* acts := attr action_space in
         let* act := lift (getitem acts i) in
         call act ;;
         ret indices
       else ret indices).

(** The history update that ends [tick]. *)
Definition update_history (delta_fitness : Q) (indices : list nat)
  : M World unit :=
  if Qltb 0 delta_fitness then
    for_ indices (fun index =>
      let* h := attr history in
      let* h_i := lift (getitem h index) in
      let* h' := lift (setitem h index (h_i + 1)) in
      assign (set_history h'))
  else
    for_ indices (fun index =>
      let* h := attr history in
      let* h' := lift (setitem h index 0) in
      assign (set_history h')).

(** [tick(self)], returning what the method keeps in its local
    variables [indices] and [delta_fitness]; Python's [tick] returns
    [None], see [tick] below, which runs this and drops the value. *)
Definition tick_trace : M World (list nat * Q) :=
  _adjust_mutation_step ;;
  let* t := attr ticks in
  let* step := attr mutation_step in
  let* r := lift (py_mod t step) in
  (if (r =? 0)%Z then _mutate_weight_map else ret tt) ;;
  let* indices := sample_actions in
  let* f := attr fitness_func in
  let* fitness := call f in
  let* last := attr last_fitness in
  let delta_fitness := fitness - last in
  _adjust_weight_map delta_fitness indices ;;
  assign (set_last_fitness fitness) ;;
  update_history delta_fitness indices ;;
  let* t := attr ticks in
  assign (set_ticks (t + 1)%Z) ;;
  ret (indices, delta_fitness).

Definition tick : M World unit :=
  tick_trace ;; ret tt.

End Agent.

Arguments callable : clear implicits.
Arguments EARL_Agent : clear implicits.
Arguments Ambient : clear implicits.
Arguments World : clear implicits.

(** * The vocabulary of the properties *)

(** ** Numbers *)

(** A weight of a distribution. *)
Definition in_unit (x : Q) : Prop := 0 <= x <= 1.

(** The two quotients [_variance] computes on a non-empty list. *)
Definition mean_of (l : list Q) : Q := py_sum l / of_int (length l).

Definition variance_of (l : list Q) : Q :=
  py_sum (map (fun x => (x - mean_of l) ^ 2) l) / of_int (length l).

(** The value [_variance] returns. *)
Definition variance_value (l : list Q) : Q :=
  match l with
  | [] => 0
  | _ :: _ => variance_of l
  end.

(** ** Weakest preconditions for methods *)

(** [post] holds of the outcome of [m] from [w], whether [m] returns or
    raises. *)
Definition wp {S A} (m : M S A) (post : result A -> S -> Prop) (w : S) : Prop :=
  post (m w).1 (m w).2.

(** What must hold after [m] so that [post] holds after [bind m f]. *)
Definition then_ {S A B} (f : A -> M S B) (post : result B -> S -> Prop)
  : result A -> S -> Prop :=
  fun r w =>
    match r with
    | Ok a => wp (f a) post w
    | Raise e => post (Raise e) w
    end.

(** ** What a call of [tick] does, and the worlds a caller can reach *)

Section Vocabulary.
Context {Env G : Type} `{RandomGen G}.
Implicit Types (w : World Env G) (s : EARL_Agent Env).

(** The mutation step [_adjust_mutation_step] assigns. *)
Definition adjusted_step s : Z :=
  if Qltb (variance_value (weight_map s)) (weight_variance_threshold s)
  then Z.max (min_mutation_step s) (mutation_step s - 1)
  else Z.min (max_mutation_step s) (mutation_step s + 1).

(** The attributes no method writes after construction. *)
Definition same_config s s' : Prop :=
  action_space s' = action_space s
  /\ alpha s' = alpha s
  /\ fitness_func s' = fitness_func s
  /\ weight_variance_threshold s' = weight_variance_threshold s
  /\ min_mutation_step s' = min_mutation_step s
  /\ max_mutation_step s' = max_mutation_step s
  /\ mutation_strength s' = mutation_strength s
  /\ history_bias_strength s' = history_bias_strength s
  /\ history_decay_factor s' = history_decay_factor s.

(** [tick] from the sampling loop on. *)
Definition tick_rest : M (World Env G) (list nat * Q) :=
  bind sample_actions (fun indices =>
  bind (attr fitness_func) (fun f =>
  bind (call f) (fun fitness =>
  bind (attr last_fitness) (fun last =>
  let delta_fitness := fitness - last in
  bind (_adjust_weight_map delta_fitness indices) (fun _ =>
  bind (assign (set_last_fitness fitness)) (fun _ =>
  bind (update_history delta_fitness indices) (fun _ =>
  bind (attr ticks) (fun t =>
  bind (assign (set_ticks (t + 1)%Z)) (fun _ =>
  ret (indices, delta_fitness)))))))))).

(** What [tick] does from the sampling loop on, whatever its outcome
    ([same_config] to the length of the history), and when it completes
    (the rest). *)
Definition rest_post w (r : result (list nat * Q)) w' : Prop :=
  let s := self w in
  let s' := self w' in
  same_config s s'
  /\ mutation_step s' = mutation_step s
  /\ length (history s') = length (history s)
  /\ length (weight_map s') = length (weight_map s)
  /\ (Forall in_unit (weight_map s) -> Forall in_unit (weight_map s'))
  /\ r <> Raise ZeroDivisionError
  /\ forall fired delta,
       r = Ok (fired, delta) ->
       NoDup fired
       /\ Forall (fun i => (i < length (weight_map s))%nat) fired
       /\ ticks s' = (ticks s + 1)%Z
       /\ (fired <> [] -> py_sum (weight_map s') == 1)
       /\ (fired = [] ->
           weight_map s' = weight_map s /\ history s' = history s)
       /\ forall j,
            (j ∈ fired ->
             exists x,
               history s !! j = Some x
               /\ history s' !! j
                  = Some (if Qltb 0 delta
                          then x * history_decay_factor s + 1 else 0))
            /\ (j ∉ fired -> history s' !! j = history s !! j).

(** What a call of [tick] does: whatever its outcome (up to the
    condition for a division by zero), and when it completes (the rest). *)
Definition tick_post w (r : result (list nat * Q)) w' : Prop :=
  let s := self w in
  let s' := self w' in
  same_config s s'
  /\ mutation_step s' = adjusted_step s
  /\ length (history s') = length (history s)
  /\ length (weight_map s') = length (weight_map s)
  /\ (Forall in_unit (weight_map s) -> Forall in_unit (weight_map s'))
  /\ (r = Raise ZeroDivisionError <-> adjusted_step s = 0%Z)
  /\ forall fired delta,
       r = Ok (fired, delta) ->
       NoDup fired
       /\ Forall (fun i => (i < length (weight_map s))%nat) fired
       /\ ticks s' = (ticks s + 1)%Z
       /\ (fired <> [] -> py_sum (weight_map s') == 1)
       /\ ((ticks s mod adjusted_step s)%Z <> 0%Z -> fired = [] ->
           weight_map s' = weight_map s /\ history s' = history s)
       /\ forall j,
            (j ∈ fired ->
             exists x,
               history s !! j = Some x
               /\ history s' !! j
                  = Some (if Qltb 0 delta
                          then x * history_decay_factor s + 1 else 0))
            /\ (j ∉ fired -> history s' !! j = history s !! j).

(** [random.random()] returns a number of [[0, 1)]. *)
Definition unit_draws : Prop :=
  forall g : G, 0 <= (next_random g).1 /\ (next_random g).1 < 1.

(** The worlds a caller can reach: construct an agent, then call [tick]
    any number of times (a raised exception may be caught and the agent
    used again), doing anything to the environment and the generator in
    between. *)
Inductive reachable : World Env G -> Prop :=
| reach_init acts fit thr str lo hi hbs hdf al x a x' :
    __init__ acts fit thr str lo hi hbs hdf al x = (Ok a, x') ->
    reachable (mkWorld a x')
| reach_tick w r w' :
    reachable w -> tick w = (r, w') -> reachable w'
| reach_ambient w x :
    reachable w -> reachable (mkWorld (self w) x).

End Vocabulary.

(** ** Two runs side by side *)

(** Two outcomes agree: related states, and the same exception or
    related values. *)
Definition rel_out {S1 S2 A1 A2} (R : S1 -> S2 -> Prop) (RA : A1 -> A2 -> Prop)
    (o1 : result A1 * S1) (o2 : result A2 * S2) : Prop :=
  R o1.2 o2.2
  /\ match o1.1, o2.1 with
     | Ok a1, Ok a2 => RA a1 a2
     | Raise e1, Raise e2 => e1 = e2
     | _, _ => False
     end.

(** Two methods agree from related states. *)
Definition rel {S1 S2 A1 A2} (R : S1 -> S2 -> Prop) (RA : A1 -> A2 -> Prop)
    (m1 : M S1 A1) (m2 : M S2 A2) : Prop :=
  forall w1 w2, R w1 w2 -> rel_out R RA (m1 w1) (m2 w2).

(** Two results agree. *)
Definition rel_result {A1 A2} (RA : A1 -> A2 -> Prop)
    (r1 : result A1) (r2 : result A2) : Prop :=
  match r1, r2 with
  | Ok a1, Ok a2 => RA a1 a2
  | Raise e1, Raise e2 => e1 = e2
  | _, _ => False
  end.

(** A callable that never raises, and a probe that always returns [c]. *)
Definition never_raises {Env A} (f : callable Env A) : Prop :=
  forall e, (f e).1 <> None.

Definition returns_constant {Env} (c : Q) (f : callable Env Q) : Prop :=
  forall e, (f e).1 = Some c.

(** The numbers and lists an agent holds. *)
Definition data {Env} (s : EARL_Agent Env) :=
  (weight_map s, alpha s, last_fitness s, mutation_step s,
   weight_variance_threshold s, min_mutation_step s, max_mutation_step s,
   mutation_strength s, history s, history_bias_strength s,
   history_decay_factor s, ticks s).

(** The weight maps after each of [n] calls of [tick]. *)
Fixpoint trajectory {Env G} `{RandomGen G} (n : nat) (w : World Env G)
  : list (list Q) :=
  match n with
  | O => []
  | S n' =>
      let w' := (tick w).2 in
      weight_map (self w') :: trajectory n' w'
  end.

Section TwoRunsVocabulary.
Context {Env1 Env2 G : Type}.

(** Two agents hold the same numbers, over as many actions, none of
    which raises, and their probes return [c]. *)
Definition agents_agree (c : Q) (s1 : EARL_Agent Env1) (s2 : EARL_Agent Env2)
  : Prop :=
  data s1 = data s2
  /\ length (action_space s1) = length (action_space s2)
  /\ Forall never_raises (action_space s1)
  /\ Forall never_raises (action_space s2)
  /\ returns_constant c (fitness_func s1)
  /\ returns_constant c (fitness_func s2).

Definition gen_eq (x1 : Ambient Env1 G) (x2 : Ambient Env2 G) : Prop :=
  gen x1 = gen x2.

Definition sim (c : Q) (w1 : World Env1 G) (w2 : World Env2 G) : Prop :=
  agents_agree c (self w1) (self w2) /\ gen_eq (amb w1) (amb w2).

End TwoRunsVocabulary.

(** ** A concrete caller, for examples *)

Module Demo.

(** A generator that alternates 1/4 and 3/4. *)
#[global] Instance alternating : RandomGen nat :=
  fun n => (if Nat.even n then 1 # 4 else 3 # 4, S n).

(** The environment is a counter; the fitness probe reads it. *)
Definition noop : callable Z unit := fun e => (Some tt, e).
Definition incr : callable Z unit := fun e => (Some tt, (e + 1)%Z).
Definition counter : callable Z Q := fun e => (Some (inject_Z e), e).

Definition start : Ambient Z nat := mkAmbient 0%Z 0%nat.

(** [EARL_Agent([noop, incr], counter)] with the default parameters. *)
Definition construct : result (EARL_Agent Z) * Ambient Z nat :=
  __init__ [noop; incr] counter (1 # 2) (1 # 10) 3 10 (1 # 10) (9 # 10) 1 start.

Definition agent0 : EARL_Agent Z :=
  match construct.1 with
  | Ok a => a
  | Raise _ => mkAgent [] [] 0 counter 0 0 0 0 0 0 [] 0 0 0
  end.

Definition world0 : World Z nat := mkWorld agent0 construct.2.
Definition world1 : World Z nat := (tick_trace world0).2.

(** An agent between two mutations whose weights are too small for the
    generator's draws. *)
Definition quiet : World Z nat :=
  mkWorld (mkAgent [noop; incr] [1 # 10; 1 # 10] 1 counter 0 3 (1 # 2) 3 10
             (1 # 10) [2; 0] (1 # 10) (9 # 10) 1)
          start.

(** An agent with a single action. *)
Definition construct_solo : result (EARL_Agent Z) * Ambient Z nat :=
  __init__ [incr] counter (1 # 2) (1 # 10) 3 10 (1 # 10) (9 # 10) 1 start.

Definition solo : World Z nat :=
  mkWorld (match construct_solo.1 with
           | Ok a => a
           | Raise _ => agent0
           end) construct_solo.2.

(** Two callers whose probes return 5: one counts, the other has no
    state at all. *)
Definition five : callable Z Q := fun e => (Some 5, e).
Definition skip : callable unit unit := fun e => (Some tt, e).
Definition five' : callable unit Q := fun e => (Some 5, e).

End Demo.

(** ** Further vocabulary *)

(** The generator after [n] draws. *)
Definition advance {G} `{RandomGen G} (n : nat) (g : G) : G :=
  Nat.iter n (fun g => (next_random g).2) g.

(** The [i]-th number a generator in state [g] will return. *)
Definition nth_draw {G} `{RandomGen G} (g : G) (i : nat) : Q :=
  (next_random (advance i g)).1.

(** [min(1, max(0, x))]. *)
Definition clip (x : Q) : Q := py_min 1 (py_max 0 x).

(** The weight map after a mutation pass that starts with the generator
    in state [g]: weight [i] moves by the [i]-th draw, scaled to
    [[-strength, strength)], and is clipped. *)
Definition mutated {G} `{RandomGen G} (strength : Q) (wm : list Q) (g : G)
  : list Q :=
  imap (fun i x =>
          clip (x + (- strength + (strength - - strength) * nth_draw g i)))
       wm.

(** Whether action [i] fires in a sampling loop that starts with the
    generator in state [g]: its draw, the [i]-th, is below its weight. *)
Definition fires {G} `{RandomGen G} (wm : list Q) (g : G) (i : nat) : bool :=
  match wm !! i with
  | Some x => Qltb (nth_draw g i) x
  | None => false
  end.

(** The indices that fire, in order. *)
Definition sampled {G} `{RandomGen G} (wm : list Q) (g : G) : list nat :=
  List.filter (fires wm g) (seq 0 (length wm)).

(** The environment after the actions at [indices] were called in turn. *)
Definition perform {Env} (acts : list (callable Env unit)) (indices : list nat)
    (e : Env) : Env :=
  fold_left (fun e i => match acts !! i with
                        | Some a => (a e).2
                        | None => e
                        end) indices e.

(** The list [_normalize] returns (it never raises). *)
Definition normalized (l : list Q) : list Q :=
  match _normalize l with
  | Ok r => r
  | Raise _ => l
  end.

(** The history after the fired entries were decayed, and the weight map
    after the fired weights were moved and clipped, before it is
    normalized: each fired weight moves by an equal share of
    [delta_fitness], scaled by [alpha] and by the bias of its decayed
    history. *)
Definition decayed {Env} (s : EARL_Agent Env) (indices : list nat) : list Q :=
  imap (fun j h => if decide (j ∈ indices)
                   then h * history_decay_factor s else h)
       (history s).

Definition adjusted {Env} (s : EARL_Agent Env) (delta_fitness : Q)
    (indices : list nat) : list Q :=
  imap (fun j x =>
          if decide (j ∈ indices)
          then clip (x + delta_fitness / of_int (length indices) * alpha s
                         * (1 + default 0 (history s !! j)
                                * history_decay_factor s
                                * history_bias_strength s))
          else x)
       (weight_map s).

(** The history after the update that ends [tick]: each fired entry is
    incremented after an improvement and reset otherwise. *)
Definition rewarded (h : list Q) (delta_fitness : Q) (indices : list nat)
  : list Q :=
  imap (fun j x => if decide (j ∈ indices)
                   then (if Qltb 0 delta_fitness then x + 1 else 0)
                   else x)
       h.

Section RunVocabulary.
Context {Env G : Type} `{RandomGen G}.
Implicit Types (w : World Env G) (s : EARL_Agent Env).

(** One weight and one history entry per action. *)
Definition well_sized s : Prop :=
  length (weight_map s) = length (action_space s)
  /\ length (history s) = length (action_space s).

(** Whether this call of [tick] runs the mutation pass. *)
Definition mutates s : bool :=
  (ticks s mod adjusted_step s =? 0)%Z.

(** The weight map and the generator when the sampling loop starts. *)
Definition sampling_weights w : list Q :=
  if mutates (self w)
  then mutated (mutation_strength (self w)) (weight_map (self w)) (gen (amb w))
  else weight_map (self w).

Definition sampling_gen w : G :=
  if mutates (self w)
  then advance (length (weight_map (self w))) (gen (amb w))
  else gen (amb w).

(** The indices that fire in this call. *)
Definition fired_of w : list nat :=
  sampled (sampling_weights w) (sampling_gen w).

(** The agent after [_adjust_weight_map]. *)
Definition after_adjust s (delta_fitness : Q) (fired : list nat)
  : EARL_Agent Env :=
  match fired with
  | [] => s
  | _ :: _ =>
      set_weight_map (normalized (adjusted s delta_fitness fired))
        (set_history (decayed s fired) s)
  end.

(** The agent a completed call leaves, when the probe returned [v]. *)
Definition completed w (v : Q) : EARL_Agent Env :=
  let s := self w in
  let s2 := set_weight_map (sampling_weights w)
              (set_mutation_step (adjusted_step s) s) in
  let delta_fitness := v - last_fitness s in
  let s3 := after_adjust s2 delta_fitness (fired_of w) in
  set_ticks (ticks s + 1)
    (set_history (rewarded (history s3) delta_fitness (fired_of w))
       (set_last_fitness v s3)).

(** What a call of [tick] does on a well-sized agent, outcome by
    outcome. *)
Definition tick_ran w (r : result (list nat * Q)) w' : Prop :=
  let s := self w in
  match r with
  | Raise ZeroDivisionError =>
      adjusted_step s = 0%Z
      /\ w' = mkWorld (set_mutation_step (adjusted_step s) s) (amb w)
  | Raise IndexError | Raise OverflowError => False
  | Raise CalleeError =>
      adjusted_step s <> 0%Z
      /\ self w' = set_weight_map (sampling_weights w)
                     (set_mutation_step (adjusted_step s) s)
      /\ ((exists i a e, action_space s !! i = Some a /\ (a e).1 = None)
          \/ (fitness_func s (perform (action_space s) (fired_of w)
                                (env (amb w)))).1 = None)
  | Ok (fired, delta_fitness) =>
      adjusted_step s <> 0%Z
      /\ fired = fired_of w
      /\ exists v,
           fitness_func s (perform (action_space s) fired (env (amb w)))
           = (Some v, env (amb w'))
           /\ delta_fitness = v - last_fitness s
           /\ gen (amb w')
              = advance (length (weight_map s)) (sampling_gen w)
           /\ self w' = completed w v
  end.

End RunVocabulary.


(** A list of indices in increasing order. *)
Definition increasing (l : list nat) : Prop :=
  forall a b i j,
    l !! a = Some i -> l !! b = Some j -> (a < b)%nat -> (i < j)%nat.

(** ** More concrete callers *)

Module Cases.

(** An action that raises. *)
Definition failing : callable Z unit := fun e => (None, e).

(** [EARL_Agent([noop, failing], counter)] with the default parameters. *)
Definition construct_fragile : result (EARL_Agent Z) * Ambient Z nat :=
  __init__ [Demo.noop; failing] Demo.counter (1 # 2) (1 # 10) 3 10
    (1 # 10) (9 # 10) 1 Demo.start.

Definition fragile : World Z nat :=
  mkWorld (match construct_fragile.1 with
           | Ok a => a
           | Raise _ => Demo.agent0
           end) construct_fragile.2.

(** [EARL_Agent([noop, incr], counter, min_mutation_step=0)]. *)
Definition construct_stalled : result (EARL_Agent Z) * Ambient Z nat :=
  __init__ [Demo.noop; Demo.incr] Demo.counter (1 # 2) (1 # 10) 0 10
    (1 # 10) (9 # 10) 1 Demo.start.

Definition stalled : World Z nat :=
  mkWorld (match construct_stalled.1 with
           | Ok a => a
           | Raise _ => Demo.agent0
           end) construct_stalled.2.

(** [EARL_Agent([], counter)]: an agent without actions. *)
Definition construct_idle : result (EARL_Agent Z) * Ambient Z nat :=
  __init__ [] Demo.counter (1 # 2) (1 # 10) 3 10
    (1 # 10) (9 # 10) 1 Demo.start.

Definition idle : World Z nat :=
  mkWorld (match construct_idle.1 with
           | Ok a => a
           | Raise _ => Demo.agent0
           end) construct_idle.2.

End Cases.

(** * The same code on binary64 floats

    The definitions above run the code on exact rationals.  Python runs
    it on binary64 floats ([random.random()] returns one), which round
    and overflow.  This module transcribes the source a second time, on
    Rocq's primitive floats (IEEE 754 binary64, round to nearest even, as
    CPython's [float]), so that the places where floats depart from the
    exact model are shown by evaluation.  Every number is a float: the
    [int]s of the code (0, 1, a length) are converted exactly, as Python
    converts an [int] that meets a float, and the caller's numbers are
    taken to be floats (a Python [int] too large for a float has no
    counterpart).  [sum] adds from the left and rounds each addition. *)

Module Binary64.
Local Open Scope float_scope.

(** Truth value of a float: [if total:] is [total != 0.0] (a NaN is
    true). *)
Definition truthy (x : float) : bool := negb (x =? 0).

(** [a / b] on floats raises on a zero divisor only; an overflow gives
    an infinity. *)
Definition py_div (a b : float) : result float :=
  if b =? 0 then Raise ZeroDivisionError else Ok (a / b).

(** [x ** 2] on a float: the rounded square, and an exception when a
    finite [x] has a square out of range. *)
Definition py_pow2 (x : float) : result float :=
  let y := x * x in
  if is_infinity y && negb (is_infinity x) then Raise OverflowError else Ok y.

(** [max(a, b)] and [min(a, b)] keep the first argument on a tie, and
    when a comparison with a NaN fails. *)
Definition py_max (a b : float) : float := if a <? b then b else a.
Definition py_min (a b : float) : float := if b <? a then b else a.

(** [sum(l)]: starts from 0 and adds from the left. *)
Definition py_sum (l : list float) : float := fold_left add l 0.

(** An [int] count converted to a float (exact below 2^53). *)
Fixpoint of_int (n : nat) : float :=
  match n with
  | O => 0
  | S n' => of_int n' + 1
  end.

Definition _normalize (l : list float) : result (list float) :=
  let total := py_sum l in
  if truthy total then
    comprehension (fun i => py_div i total) l
  else
    let n := length l in
    comprehension (fun _ => py_div 1 (of_int n)) (seq 0 n).

Definition _variance (l : list float) : result float :=
  match l with
  | [] => Ok 0
  | _ =>
      rbind (py_div (py_sum l) (of_int (length l))) (fun mean =>
      rbind (comprehension (fun x => py_pow2 (x - mean)) l) (fun squares =>
      py_div (py_sum squares) (of_int (length l))))
  end.

(** [random.random()] returning floats. *)
Class RandomGen (G : Type) := next_random : G -> float * G.

Section Agent.
Context {Env G : Type} `{RandomGen G}.
Local Open Scope py_scope.

Record EARL_Agent : Type := mkAgent {
  action_space : list (callable Env unit);
  weight_map : list float;
  alpha : float;
  fitness_func : callable Env float;
  last_fitness : float;
  mutation_step : Z;
  weight_variance_threshold : float;
  min_mutation_step : Z;
  max_mutation_step : Z;
  mutation_strength : float;
  history : list float;
  history_bias_strength : float;
  history_decay_factor : float;
  ticks : Z
}.

Definition set_weight_map (v : list float) (s : EARL_Agent) : EARL_Agent :=
  mkAgent (action_space s) v (alpha s) (fitness_func s) (last_fitness s)
    (mutation_step s) (weight_variance_threshold s) (min_mutation_step s)
    (max_mutation_step s) (mutation_strength s) (history s)
    (history_bias_strength s) (history_decay_factor s) (ticks s).

Definition set_history (v : list float) (s : EARL_Agent) : EARL_Agent :=
  mkAgent (action_space s) (weight_map s) (alpha s) (fitness_func s)
    (last_fitness s) (mutation_step s) (weight_variance_threshold s)
    (min_mutation_step s) (max_mutation_step s) (mutation_strength s) v
    (history_bias_strength s) (history_decay_factor s) (ticks s).

Definition set_mutation_step (v : Z) (s : EARL_Agent) : EARL_Agent :=
  mkAgent (action_space s) (weight_map s) (alpha s) (fitness_func s)
    (last_fitness s) v (weight_variance_threshold s) (min_mutation_step s)
    (max_mutation_step s) (mutation_strength s) (history s)
    (history_bias_strength s) (history_decay_factor s) (ticks s).

Definition set_last_fitness (v : float) (s : EARL_Agent) : EARL_Agent :=
  mkAgent (action_space s) (weight_map s) (alpha s) (fitness_func s) v
    (mutation_step s) (weight_variance_threshold s) (min_mutation_step s)
    (max_mutation_step s) (mutation_strength s) (history s)
    (history_bias_strength s) (history_decay_factor s) (ticks s).

Definition set_ticks (v : Z) (s : EARL_Agent) : EARL_Agent :=
  mkAgent (action_space s) (weight_map s) (alpha s) (fitness_func s)
    (last_fitness s) (mutation_step s) (weight_variance_threshold s)
    (min_mutation_step s) (max_mutation_step s) (mutation_strength s)
    (history s) (history_bias_strength s) (history_decay_factor s) v.

Record Ambient : Type := mkAmbient {
  env : Env;
  gen : G
}.

Record World : Type := mkWorld {
  self : EARL_Agent;
  amb : Ambient
}.

Definition draw (x : Ambient) : float * Ambient :=
  let (u, g) := next_random (gen x) in (u, mkAmbient (env x) g).

Definition random_random : M World float :=
  fun w => let (u, x) := draw (amb w) in (Ok u, mkWorld (self w) x).

Definition random_uniform (a b : float) : M World float :=
  let* u := random_random in
  ret (a + (b - a) * u).

Definition invoke {A} (f : callable Env A) : M Ambient A :=
  fun x =>
    let (r, e) := f (env x) in
    (match r with Some a => Ok a | None => Raise CalleeError end,
     mkAmbient e (gen x)).

Definition call {A} (f : callable Env A) : M World A :=
  fun w => let (r, x) := invoke f (amb w) in (r, mkWorld (self w) x).

Definition attr {A} (f : EARL_Agent -> A) : M World A :=
  fun w => (Ok (f (self w)), w).

Definition assign (upd : EARL_Agent -> EARL_Agent) : M World unit :=
  fun w => (Ok tt, mkWorld (upd (self w)) (amb w)).

Definition _generate_weight_map (action_space : list (callable Env unit))
  : M Ambient (list float) :=
  let* weight_map :=
    for_acc action_space [] (fun acc _ =>
      fun x => let (u, x') := draw x in (Ok (acc ++ [u]), x')) in
  lift (_normalize weight_map).

Definition __init__ (action_space : list (callable Env unit))
    (fitness_func : callable Env float)
    (weight_variance_threshold mutation_strength : float)
    (min_mutation_step max_mutation_step : Z)
    (history_bias_strength history_decay_factor alpha : float)
  : M Ambient EARL_Agent :=
  let* weight_map := _generate_weight_map action_space in
  let* last_fitness := invoke fitness_func in
  let mutation_step := min_mutation_step in
  let history := map (fun _ => 0) action_space in
  let ticks := 0%Z in
  ret (mkAgent action_space weight_map alpha fitness_func last_fitness
         mutation_step weight_variance_threshold min_mutation_step
         max_mutation_step mutation_strength history
         history_bias_strength history_decay_factor ticks).

Definition _adjust_mutation_step : M World unit :=
  let* wm := attr weight_map in
  let* v := lift (_variance wm) in
  let* threshold := attr weight_variance_threshold in
  if v <? threshold then
    let* lo := attr min_mutation_step in
    let* step := attr mutation_step in
    assign (set_mutation_step (Z.max lo (step - 1)))
  else
    let* hi := attr max_mutation_step in
    let* step := attr mutation_step in
    assign (set_mutation_step (Z.min hi (step + 1))).

Definition _mutate_weight_map : M World unit :=
  let* wm := attr weight_map in
  for_ (seq 0 (length wm)) (fun i =>
    let* wm := attr weight_map in
    let* w_i := lift (getitem wm i) in
    let* strength := attr mutation_strength in
    let* u := random_uniform (- strength) strength in
    let* wm := attr weight_map in
    let* wm' := lift (setitem wm i (py_min 1 (py_max 0 (w_i + u)))) in
    assign (set_weight_map wm')).

Definition _adjust_weight_map (delta_fitness : float) (indices : list nat)
  : M World unit :=
  match indices with
  | [] => ret tt
  | _ =>
      let* weight_modifier :=
        lift (py_div delta_fitness (of_int (length indices))) in
      for_ indices (fun index =>
        let* h := attr history in
        let* h_i := lift (getitem h index) in
        let* decay := attr history_decay_factor in
        let* h' := lift (setitem h index (h_i * decay)) in
        assign (set_history h') ;;
        let* h := attr history in
        let* h_i := lift (getitem h index) in
        let* strength := attr history_bias_strength in
        let history_bias := 1 + (h_i * strength) in
        let* wm := attr weight_map in
        let* w_i := lift (getitem wm index) in
        let* a := attr alpha in
        let* wm' :=
          lift (setitem wm index
                  (py_min 1 (py_max 0
                     (w_i + (weight_modifier * a * history_bias))))) in
        assign (set_weight_map wm')) ;;
      let* wm := attr weight_map in
      let* wm' := lift (_normalize wm) in
      assign (set_weight_map wm')
  end.

Definition sample_actions : M World (list nat) :=
  let* wm := attr weight_map in
  for_acc (imap (fun i weight => (i, weight)) wm) []
    (fun indices '(i, weight) =>
       let* u := random_random in
       if u <? weight then
         let indices := indices ++ [i] in
         let* acts := attr action_space in
         let* act := lift (getitem acts i) in
         call act ;;
         ret indices
       else ret indices).

Definition update_history (delta_fitness : float) (indices : list nat)
  : M World unit :=
  if 0 <? delta_fitness then
    for_ indices (fun index =>
      let* h := attr history in
      let* h_i := lift (getitem h index) in
      let* h' := lift (setitem h index (h_i + 1)) in
      assign (set_history h'))
  else
    for_ indices (fun index =>
      let* h := attr history in
      let* h' := lift (setitem h index 0) in
      assign (set_history h')).

(** [tick(self)], returning its local variables [indices] and
    [delta_fitness] as [tick_trace] above does. *)
Definition tick_trace : M World (list nat * float) :=
  _adjust_mutation_step ;;
  let* t := attr ticks in
  let* step := attr mutation_step in
  let* r := lift (py_mod t step) in
  (if (r =? 0)%Z then _mutate_weight_map else ret tt) ;;
  let* indices := sample_actions in
  let* f := attr fitness_func in
  let* fitness := call f in
  let* last := attr last_fitness in
  let delta_fitness := fitness - last in
  _adjust_weight_map delta_fitness indices ;;
  assign (set_last_fitness fitness) ;;
  update_history delta_fitness indices ;;
  let* t := attr ticks in
  assign (set_ticks (t + 1)%Z) ;;
  ret (indices, delta_fitness).

(** The world after [n] calls of [tick]. *)
Definition after (n : nat) (w : World) : World :=
  Nat.iter n (fun w => (tick_trace w).2) w.

End Agent.

(** The caller of [Demo] on floats: the generator alternates 0.25 and
    0.75, the probe reads the counter. *)
Module Demo.

#[global] Instance alternating : RandomGen nat :=
  fun n => (if Nat.even n then 0.25 else 0.75, S n).

Definition of_Z (z : Z) : float :=
  match z with
  | Z0 => 0
  | Zpos p => of_int (Pos.to_nat p)
  | Zneg p => - of_int (Pos.to_nat p)
  end.

Definition counter : callable Z float := fun e => (Some (of_Z e), e).

Definition start : Ambient (Env:=Z) (G:=nat) := mkAmbient 0%Z 0%nat.

(** [EARL_Agent([noop, incr], counter)] with the default parameters:
    0.5, 0.1, 3, 10, 0.1, 0.9 and 1. *)
Definition construct : result EARL_Agent * Ambient :=
  __init__ [Demo.noop; Demo.incr] counter
    0.5 0x1.999999999999ap-4 3 10 0x1.999999999999ap-4 0x1.ccccccccccccdp-1 1
    start.

Definition agent0 : EARL_Agent :=
  match construct.1 with
  | Ok a => a
  | Raise _ => mkAgent [] [] 0 counter 0 0 0 0 0 0 [] 0 0 0
  end.

Definition world0 : World := mkWorld agent0 construct.2.

(** A generator that returns the numbers of a list in turn. *)
#[global] Instance replay : RandomGen (list float) :=
  fun l => match l with
           | [] => (0, [])
           | u :: l' => (u, l')
           end.

(** An agent whose one weight is 0.45, before a mutation pass of
    strength 0.1 that draws 1 - 2^-53. *)
Definition before_mutation : World :=
  mkWorld (mkAgent [Demo.noop] [0x1.ccccccccccccdp-2] 1 counter 0 3 0.5 3 10
             0x1.999999999999ap-4 [0] 0x1.999999999999ap-4
             0x1.ccccccccccccdp-1 1)
          (mkAmbient 0%Z [0x1.fffffffffffffp-1]).

(** An agent with the weights 0.1, 0.2 and 0.3 and no history. *)
Definition three : World :=
  mkWorld (mkAgent [Demo.noop; Demo.noop; Demo.noop]
             [0x1.999999999999ap-4; 0x1.999999999999ap-3; 0x1.3333333333333p-2]
             1 counter 0 3 0.5 3 10 0x1.999999999999ap-4 [0; 0; 0]
             0x1.999999999999ap-4 0x1.ccccccccccccdp-1 1)
          start.

(** [EARL_Agent([incr], counter, history_decay_factor=0.333)]: its
    action fires, and the fitness improves, in every tick. *)
Definition construct_solo : result EARL_Agent * Ambient :=
  __init__ [Demo.incr] counter
    0.5 0x1.999999999999ap-4 3 10 0x1.999999999999ap-4 0x1.54fdf3b645a1dp-2 1
    start.

Definition solo : World :=
  mkWorld (match construct_solo.1 with
           | Ok a => a
           | Raise _ => agent0
           end) construct_solo.2.

End Demo.

End Binary64.

(** * Properties *)

(** ** Sums, as Python computes them *)

Lemma fold_left_Qplus_acc (l : list Q) (a : Q) :
  fold_left Qplus l a == a + fold_left Qplus l 0.
Proof.
  revert a. induction l as [|x l IH]; intros a; simpl.
  - ring.
  - rewrite IH. rewrite (IH (0 + x)). ring.
Qed.

Lemma py_sum_nil : py_sum [] = 0.
Proof. reflexivity. Qed.

Lemma py_sum_cons (x : Q) (l : list Q) : py_sum (x :: l) == x + py_sum l.
Proof.
  unfold py_sum. simpl. rewrite fold_left_Qplus_acc. ring.
Qed.

Lemma py_sum_nonneg (l : list Q) : Forall (Qle 0) l -> 0 <= py_sum l.
Proof.
  induction 1 as [|x l Hx _ IH].
  - rewrite py_sum_nil. lra.
  - rewrite py_sum_cons. lra.
Qed.

Lemma py_sum_bounds_elem (l : list Q) (x : Q) :
  Forall (Qle 0) l -> x ∈ l -> x <= py_sum l.
Proof.
  induction 1 as [|y l Hy Hl IH]; intros Hin.
  - inversion Hin.
  - rewrite py_sum_cons. pose proof (py_sum_nonneg l Hl).
    apply elem_of_cons in Hin as [->|Hin]; [lra|].
    specialize (IH Hin). lra.
Qed.


Lemma py_sum_map_div (l : list Q) (t : Q) :
  py_sum (map (fun x => x / t) l) == py_sum l / t.
Proof.
  induction l as [|x l IH]; simpl.
  - rewrite py_sum_nil. unfold Qdiv. ring.
  - rewrite !py_sum_cons, IH. unfold Qdiv. ring.
Qed.

Lemma of_int_S (n : nat) : of_int (S n) == of_int n + 1.
Proof.
  unfold of_int. rewrite Nat2Z.inj_succ. unfold Z.succ.
  rewrite inject_Z_plus. reflexivity.
Qed.

Lemma of_int_pos (n : nat) : (0 < n)%nat -> 0 < of_int n.
Proof.
  intros Hn. unfold of_int.
  change 0 with (inject_Z 0). rewrite <- Zlt_Qlt. lia.
Qed.

Lemma of_int_nonneg (n : nat) : 0 <= of_int n.
Proof.
  unfold of_int. change 0 with (inject_Z 0). rewrite <- Zle_Qle. lia.
Qed.

Lemma py_sum_replicate (n : nat) (c : Q) :
  py_sum (replicate n c) == of_int n * c.
Proof.
  induction n as [|n IH]; simpl.
  - rewrite py_sum_nil. unfold of_int. simpl. ring.
  - rewrite py_sum_cons, IH, of_int_S. ring.
Qed.

(** ** Expressions that cannot raise *)

Lemma truthy_true (x : Q) : truthy x = true <-> ~ x == 0.
Proof.
  unfold truthy. rewrite negb_true_iff. split.
  - apply Qeq_bool_neq.
  - intros Hx. destruct (Qeq_bool x 0) eqn:E; [|reflexivity].
    apply Qeq_bool_eq in E. contradiction.
Qed.

Lemma truthy_false (x : Q) : truthy x = false <-> x == 0.
Proof.
  unfold truthy. rewrite negb_false_iff. apply Qeq_bool_iff.
Qed.

Lemma Qltb_true (x y : Q) : Qltb x y = true <-> x < y.
Proof.
  unfold Qltb. rewrite negb_true_iff. split.
  - intros E. apply Qnot_le_lt. intros Hle.
    apply Qle_bool_iff in Hle. congruence.
  - intros Hlt. destruct (Qle_bool y x) eqn:E; [|reflexivity].
    apply Qle_bool_iff in E. lra.
Qed.

Lemma Qltb_false (x y : Q) : Qltb x y = false <-> y <= x.
Proof.
  unfold Qltb. rewrite negb_false_iff. apply Qle_bool_iff.
Qed.

Lemma py_div_ok (a b : Q) : ~ b == 0 -> py_div a b = Ok (a / b).
Proof.
  intros Hb. unfold py_div.
  destruct (Qeq_bool b 0) eqn:E; [|reflexivity].
  apply Qeq_bool_eq in E. contradiction.
Qed.

Lemma comprehension_ok {A B} (f : A -> result B) (g : A -> B) (l : list A) :
  (forall x, x ∈ l -> f x = Ok (g x)) -> comprehension f l = Ok (map g l).
Proof.
  induction l as [|x l IH]; intros Hf; simpl.
  - reflexivity.
  - rewrite Hf by (apply elem_of_cons; now left). simpl.
    rewrite IH; [reflexivity|].
    intros y Hy. apply Hf. apply elem_of_cons. now right.
Qed.

Lemma map_const_replicate {A B} (c : B) (l : list A) :
  map (fun _ => c) l = replicate (length l) c.
Proof.
  induction l as [|x l IH]; simpl; [reflexivity|]. now rewrite IH.
Qed.

(** [_normalize] never raises: each division is guarded. *)
Lemma _normalize_nonzero (l : list Q) :
  ~ py_sum l == 0 ->
  _normalize l = Ok (map (fun x => x / py_sum l) l).
Proof.
  intros Ht. unfold _normalize.
  destruct (truthy (py_sum l)) eqn:E.
  - apply comprehension_ok. intros x _. now apply py_div_ok.
  - apply truthy_false in E. contradiction.
Qed.

Lemma _normalize_zero (l : list Q) :
  py_sum l == 0 ->
  _normalize l = Ok (replicate (length l) (1 / of_int (length l))).
Proof.
  intros Ht. unfold _normalize.
  destruct (truthy (py_sum l)) eqn:E.
  - apply truthy_true in E. contradiction.
  - cbv zeta.
    rewrite (comprehension_ok _ (fun _ => 1 / of_int (length l))).
    + rewrite map_const_replicate. now rewrite length_seq.
    + intros i Hi. apply py_div_ok.
      destruct l as [|x l]; [inversion Hi|].
      pose proof (of_int_pos (length (x :: l))) as Hp.
      simpl length in *. specialize (Hp ltac:(lia)). lra.
Qed.

Lemma _normalize_total (l : list Q) : exists r, _normalize l = Ok r.
Proof.
  destruct (Qeq_dec (py_sum l) 0) as [Hz|Hz].
  - eexists. now apply _normalize_zero.
  - eexists. now apply _normalize_nonzero.
Qed.

Lemma _normalize_length (l r : list Q) :
  _normalize l = Ok r -> length r = length l.
Proof.
  destruct (Qeq_dec (py_sum l) 0) as [Hz|Hz].
  - rewrite (_normalize_zero l Hz). intros [= <-]. apply length_replicate.
  - rewrite (_normalize_nonzero l Hz). intros [= <-]. apply length_map.
Qed.

(** A non-empty list of non-negative numbers is normalized to a
    distribution. *)
Lemma _normalize_sum (l r : list Q) :
  l <> [] -> _normalize l = Ok r -> py_sum r == 1.
Proof.
  intros Hne. destruct (Qeq_dec (py_sum l) 0) as [Hz|Hz].
  - rewrite (_normalize_zero l Hz). intros [= <-].
    rewrite py_sum_replicate.
    assert (0 < of_int (length l)) as Hp.
    { apply of_int_pos. destruct l; [congruence|simpl; lia]. }
    field. lra.
  - rewrite (_normalize_nonzero l Hz). intros [= <-].
    rewrite py_sum_map_div. now field.
Qed.

Lemma _normalize_in_unit (l r : list Q) :
  Forall (Qle 0) l -> _normalize l = Ok r -> Forall in_unit r.
Proof.
  intros Hl. destruct (Qeq_dec (py_sum l) 0) as [Hz|Hz].
  - rewrite (_normalize_zero l Hz). intros [= <-].
    destruct l as [|x l]; [constructor|].
    apply Forall_replicate.
    pose proof (of_int_pos (length (x :: l)) ltac:(simpl; lia)) as Hp.
    pose proof (of_int_S (length l)) as HS. simpl length in *.
    split.
    + apply Qle_shift_div_l; lra.
    + apply Qle_shift_div_r; [lra|].
      pose proof (of_int_nonneg (length l)) as Hq. lra.
  - rewrite (_normalize_nonzero l Hz). intros [= <-].
    pose proof (py_sum_nonneg l Hl) as Hs.
    assert (0 < py_sum l) as Hp by lra.
    apply Forall_forall. intros y Hy.
    apply list_elem_of_In, in_map_iff in Hy as (x & <- & Hx).
    apply list_elem_of_In in Hx.
    pose proof (py_sum_bounds_elem l x Hl Hx) as Hle.
    rewrite Forall_forall in Hl. specialize (Hl x Hx).
    split.
    + apply Qle_shift_div_l; lra.
    + apply Qle_shift_div_r; lra.
Qed.

(** ** The variance *)

Lemma _variance_nonempty (l : list Q) :
  l <> [] -> _variance l = Ok (variance_of l).
Proof.
  intros Hne. destruct l as [|x l]; [congruence|].
  unfold _variance.
  assert (~ of_int (length (x :: l)) == 0) as Hn.
  { pose proof (of_int_pos (length (x :: l)) ltac:(simpl; lia)). lra. }
  rewrite (py_div_ok _ _ Hn). simpl rbind.
  rewrite (py_div_ok _ _ Hn). reflexivity.
Qed.

Lemma _variance_total (l : list Q) : exists v, _variance l = Ok v.
Proof.
  destruct l as [|x l].
  - now exists 0.
  - exists (variance_of (x :: l)). now apply _variance_nonempty.
Qed.








(** ** Weakest preconditions for methods *)

Section WP.
Context {S : Type}.

Lemma wp_run {A} (m : M S A) post w r w' :
  m w = (r, w') -> wp m post w -> post r w'.
Proof. unfold wp. now intros ->. Qed.

Lemma wp_intro {A} (m : M S A) (post : result A -> S -> Prop) w :
  (forall r w', m w = (r, w') -> post r w') -> wp m post w.
Proof. intros HQ. unfold wp. apply HQ. now destruct (m w). Qed.

Lemma wp_mono {A} (m : M S A) (post post' : result A -> S -> Prop) w :
  wp m post w -> (forall r w', post r w' -> post' r w') -> wp m post' w.
Proof. unfold wp. auto. Qed.

Lemma wp_ret {A} (a : A) (post : result A -> S -> Prop) w :
  post (Ok a) w -> wp (ret a) post w.
Proof. auto. Qed.

Lemma wp_lift {A} (r : result A) (post : result A -> S -> Prop) w :
  post r w -> wp (lift r) post w.
Proof. auto. Qed.

Lemma wp_bind {A B} (m : M S A) (f : A -> M S B) post w :
  wp m (then_ f post) w -> wp (bind m f) post w.
Proof.
  unfold wp, then_, bind. destruct (m w) as [[a|e] w']; auto.
Qed.

(** A loop keeps an invariant that each iteration keeps; the invariant
    may mention the elements still to come and the local variables. *)
Lemma wp_for_acc {A B} (I : list A -> B -> S -> Prop)
    (post : result B -> S -> Prop) (body : B -> A -> M S B) :
  (forall x l acc w,
      I (x :: l) acc w ->
      wp (body acc x)
         (fun r w' => match r with
                      | Ok acc' => I l acc' w'
                      | Raise e => post (Raise e) w'
                      end) w) ->
  (forall acc w, I [] acc w -> post (Ok acc) w) ->
  forall l acc w, I l acc w -> wp (for_acc l acc body) post w.
Proof.
  intros Hbody Hend.
  induction l as [|x l IH]; intros acc w HI; simpl.
  - apply wp_ret. auto.
  - apply wp_bind. eapply wp_mono; [apply Hbody, HI|].
    intros [acc'|e] w' H'; simpl; auto.
Qed.

Lemma wp_for_ {A} (I : list A -> S -> Prop)
    (post : result unit -> S -> Prop) (body : A -> M S unit) :
  (forall x l w,
      I (x :: l) w ->
      wp (body x)
         (fun r w' => match r with
                      | Ok _ => I l w'
                      | Raise e => post (Raise e) w'
                      end) w) ->
  (forall w, I [] w -> post (Ok tt) w) ->
  forall l w, I l w -> wp (for_ l body) post w.
Proof.
  intros Hbody Hend l w HI. unfold for_.
  apply (wp_for_acc (fun l _ w => I l w)); auto.
  intros acc w0 H0. destruct acc. auto.
Qed.
End WP.

Section AgentWP.
Context {Env G : Type} `{RandomGen G}.

Lemma wp_attr {A} (f : EARL_Agent Env -> A)
    (post : result A -> World Env G -> Prop) w :
  post (Ok (f (self w))) w -> wp (attr f) post w.
Proof. auto. Qed.

Lemma wp_assign (upd : EARL_Agent Env -> EARL_Agent Env) post (w : World Env G) :
  post (Ok tt) (mkWorld (upd (self w)) (amb w)) -> wp (assign upd) post w.
Proof. auto. Qed.

Lemma wp_random_random (post : result Q -> World Env G -> Prop) w :
  (forall u x, draw (amb w) = (u, x) -> post (Ok u) (mkWorld (self w) x)) ->
  wp random_random post w.
Proof.
  intros HQ. unfold wp, random_random.
  destruct (draw (amb w)) as [u x] eqn:E. simpl. auto.
Qed.

Lemma wp_call {A} (f : callable Env A)
    (post : result A -> World Env G -> Prop) w :
  (forall r x, invoke f (amb w) = (r, x) -> post r (mkWorld (self w) x)) ->
  wp (call f) post w.
Proof.
  intros HQ. unfold wp, call.
  destruct (invoke f (amb w)) as [r x] eqn:E. simpl. auto.
Qed.
End AgentWP.

(** One step of symbolic execution of a method. *)
Ltac wp_step :=
  lazymatch goal with
  | |- wp (bind _ _) _ _ => apply wp_bind
  | |- wp (ret _) _ _ => apply wp_ret
  | |- wp (attr _) _ _ => apply wp_attr
  | |- wp (assign _) _ _ => apply wp_assign
  | |- wp (lift _) _ _ => apply wp_lift
  | |- then_ _ _ (Ok _) _ => unfold then_ at 1
  | |- then_ _ _ (Raise _) _ => unfold then_ at 1
  end.

Ltac wp_steps := repeat wp_step.

(** Reading an attribute of an agent that was just written. *)
Ltac agent_cbn :=
  simpl (self _); simpl (amb _); simpl (action_space _);
  simpl (weight_map _); simpl (alpha _); simpl (fitness_func _);
  simpl (last_fitness _); simpl (mutation_step _);
  simpl (weight_variance_threshold _); simpl (min_mutation_step _);
  simpl (max_mutation_step _); simpl (mutation_strength _);
  simpl (history _); simpl (history_bias_strength _);
  simpl (history_decay_factor _); simpl (ticks _).

(** ** Item access *)

Lemma getitem_Ok {A} (l : list A) (i : nat) (x : A) :
  getitem l i = Ok x <-> l !! i = Some x.
Proof.
  unfold getitem. destruct (l !! i); split; congruence.
Qed.

Lemma getitem_cases {A} (l : list A) (i : nat) :
  (exists x, l !! i = Some x /\ getitem l i = Ok x)
  \/ (length l <= i /\ getitem l i = Raise IndexError)%nat.
Proof.
  unfold getitem. destruct (l !! i) as [x|] eqn:E.
  - left. eauto.
  - right. split; [|reflexivity]. now apply lookup_ge_None.
Qed.

Lemma setitem_Ok {A} (l : list A) (i : nat) (v : A) :
  (i < length l)%nat -> setitem l i v = Ok (<[i := v]> l).
Proof.
  intros Hi. unfold setitem. destruct (decide (i < length l)%nat); [reflexivity|lia].
Qed.

Lemma setitem_lookup {A} (l : list A) (i : nat) (x v : A) :
  l !! i = Some x -> setitem l i v = Ok (<[i := v]> l).
Proof.
  intros Hx. apply setitem_Ok. now apply lookup_lt_Some in Hx.
Qed.

Lemma setitem_Raise {A} (l : list A) (i : nat) (v : A) :
  (length l <= i)%nat -> setitem l i v = Raise IndexError.
Proof.
  intros Hi. unfold setitem. destruct (decide (i < length l)%nat); [lia|reflexivity].
Qed.

(** ** Clipping to the unit interval *)

Lemma clip_in_unit (x : Q) : in_unit (py_min 1 (py_max 0 x)).
Proof.
  unfold py_min, py_max, in_unit.
  destruct (Qltb 0 x) eqn:E0.
  - apply Qltb_true in E0.
    destruct (Qltb x 1) eqn:E1.
    + apply Qltb_true in E1. lra.
    + lra.
  - destruct (Qltb 0 1) eqn:E1; lra.
Qed.

Lemma in_unit_nonneg (l : list Q) : Forall in_unit l -> Forall (Qle 0) l.
Proof.
  intros Hl. eapply Forall_impl; [exact Hl|].
  intros x [Hx _]. exact Hx.
Qed.

(** ** What each method does *)

Lemma _variance_value (l : list Q) : _variance l = Ok (variance_value l).
Proof.
  destruct l as [|x l]; [reflexivity|]. now apply _variance_nonempty.
Qed.

Section Methods.
Context {Env G : Type} `{RandomGen G}.
Implicit Types (w : World Env G) (s : EARL_Agent Env).

Lemma _adjust_mutation_step_run w :
  _adjust_mutation_step w
  = (Ok tt, mkWorld (set_mutation_step (adjusted_step (self w)) (self w)) (amb w)).
Proof.
  unfold _adjust_mutation_step, bind, attr, lift, adjusted_step.
  rewrite _variance_value.
  destruct (Qltb _ _); reflexivity.
Qed.

Lemma wp_random_uniform (a b : Q) (post : result Q -> World Env G -> Prop) w :
  (forall u x, draw (amb w) = (u, x) ->
               post (Ok (a + (b - a) * u)) (mkWorld (self w) x)) ->
  wp (random_uniform a b) post w.
Proof.
  intros HQ. unfold random_uniform. apply wp_bind, wp_random_random.
  intros u x E. unfold then_. apply wp_ret. eauto.
Qed.

Lemma draw_env (x x' : Ambient Env G) (u : Q) :
  draw x = (u, x') -> env x' = env x.
Proof.
  unfold draw. destruct (next_random (gen x)). now intros [= _ <-].
Qed.

(** [_mutate_weight_map] never raises; it leaves every weight clipped. *)
Lemma _mutate_weight_map_spec w :
  wp _mutate_weight_map
     (fun r w' =>
        r = Ok tt
        /\ env (amb w') = env (amb w)
        /\ exists wm', self w' = set_weight_map wm' (self w)
                       /\ length wm' = length (weight_map (self w))
                       /\ Forall in_unit wm') w.
Proof.
  unfold _mutate_weight_map. wp_steps.
  set (n := length (weight_map (self w))).
  apply (wp_for_
    (fun rem w' =>
       env (amb w') = env (amb w)
       /\ exists cur, self w' = set_weight_map cur (self w)
                      /\ length cur = n
                      /\ Forall (fun i => (i < n)%nat) rem
                      /\ forall j x, cur !! j = Some x -> j ∉ rem -> in_unit x)).
  - intros i rem [s0 x0] (Henv & cur & Hs & Hlen & Hrem & Hcur).
    simpl in Henv, Hs. subst s0.
    apply Forall_cons in Hrem as [Hi Hrem].
    wp_steps. cbn [self weight_map set_weight_map].
    destruct (lookup_lt_is_Some_2 cur i ltac:(lia)) as [y Hy].
    rewrite (proj2 (getitem_Ok _ _ _) Hy). wp_steps.
    apply wp_random_uniform. intros u x1 Hdraw. wp_steps.
    cbn [self weight_map set_weight_map].
    rewrite (setitem_lookup _ _ _ _ Hy). wp_steps.
    cbn [self amb]. split; [now rewrite (draw_env _ _ _ Hdraw)|].
    eexists. split; [reflexivity|]. rewrite length_insert.
    split; [assumption|]. split; [assumption|].
    intros j x Hj Hnot.
    destruct (decide (i = j)) as [<-|Hne].
    + rewrite list_lookup_insert_eq in Hj by lia.
      injection Hj as <-. apply clip_in_unit.
    + rewrite list_lookup_insert_ne in Hj by assumption.
      apply (Hcur j x Hj). rewrite elem_of_cons. intros [->|Hin]; auto.
  - intros [s0 x0] (Henv & cur & Hs & Hlen & _ & Hcur). simpl in *.
    split; [reflexivity|]. split; [assumption|].
    exists cur. split; [assumption|]. split; [assumption|].
    apply Forall_lookup. intros j x Hj. apply (Hcur j x Hj).
    apply not_elem_of_nil.
  - split; [reflexivity|]. exists (weight_map (self w)).
    split; [now destruct w as [[] ?]|]. split; [reflexivity|].
    split.
    + apply Forall_forall. intros i Hi.
      apply list_elem_of_In, in_seq in Hi. lia.
    + intros j x Hj Hnot. exfalso. apply Hnot.
      apply list_elem_of_In, in_seq. apply lookup_lt_Some in Hj. lia.
Qed.

Lemma enumerate_indices {A} (l : list A) (k : nat) :
  map fst (imap (fun i x => ((k + i)%nat, x)) l) = seq k (length l).
Proof.
  revert k. induction l as [|x l IH]; intros k; [reflexivity|].
  rewrite imap_cons. simpl. rewrite Nat.add_0_r. f_equal.
  rewrite <- IH. f_equal. apply imap_ext. intros i y _. simpl.
  f_equal. lia.
Qed.

Lemma enumerate_indices_0 {A} (l : list A) :
  map fst (imap (fun i x => (i, x)) l) = seq 0 (length l).
Proof. exact (enumerate_indices l 0). Qed.

Lemma invoke_spec {A} (f : callable Env A) (x x' : Ambient Env G) (r : result A) :
  invoke f x = (r, x') ->
  gen x' = gen x /\ (forall e, r = Raise e -> e = CalleeError).
Proof.
  unfold invoke. destruct (f (env x)) as [[a|] e0]; intros [= <- <-]; simpl.
  - split; [reflexivity|]. discriminate.
  - split; [reflexivity|]. now intros e [= <-].
Qed.

Lemma getitem_Raise {A} (l : list A) (i : nat) (e : exn) :
  getitem l i = Raise e -> e = IndexError.
Proof.
  unfold getitem. destruct (l !! i); [discriminate|]. now intros [= <-].
Qed.

(** The sampling loop leaves the agent as it is; the indices it returns
    are distinct positions of the weight map. *)
Lemma sample_actions_spec w :
  wp sample_actions
     (fun r w' =>
        self w' = self w
        /\ r <> Raise ZeroDivisionError
        /\ forall indices,
             r = Ok indices ->
             NoDup indices
             /\ Forall (fun i => (i < length (weight_map (self w)))%nat) indices) w.
Proof.
  unfold sample_actions. wp_steps.
  set (n := length (weight_map (self w))).
  apply (wp_for_acc
    (fun rem acc w' =>
       self w' = self w
       /\ NoDup (acc ++ map fst rem)
       /\ Forall (fun i => (i < n)%nat) (acc ++ map fst rem))).
  - intros [i weight] rem acc [s0 x0] (Hs & Hnd & Hlt).
    simpl in Hs. subst s0. simpl map in Hnd, Hlt.
    assert (NoDup ((acc ++ [i]) ++ map fst rem)
            /\ Forall (fun i => (i < n)%nat) ((acc ++ [i]) ++ map fst rem))
      as Hfire by (rewrite <- app_assoc; now split).
    assert (NoDup (acc ++ map fst rem)
            /\ Forall (fun i => (i < n)%nat) (acc ++ map fst rem))
      as Hskip.
    { split.
      - assert (acc ++ map fst rem `sublist_of` acc ++ i :: map fst rem) as Hsub.
        { apply sublist_app; [reflexivity|]. now apply sublist_cons. }
        eapply sublist_NoDup in Hsub; eauto.
      - apply Forall_app in Hlt as [Ha Hr]. apply Forall_cons in Hr as [_ Hr].
        apply Forall_app. now split. }
    apply wp_bind, wp_random_random. intros u x1 _. unfold then_.
    destruct (Qltb u weight).
    + wp_steps. cbn [self].
      destruct (getitem (action_space (self w)) i) as [act|e] eqn:E.
      * wp_steps. apply wp_call. intros r x2 Hinv.
        apply invoke_spec in Hinv as [_ Hexn].
        destruct r as [[]|e]; unfold then_.
        -- wp_steps. cbn [self]. now split.
        -- cbn [self]. specialize (Hexn e eq_refl). subst e.
           repeat split; discriminate.
      * unfold then_. apply getitem_Raise in E. subst e.
        repeat split; discriminate.
    + wp_steps. cbn [self]. now split.
  - intros acc w0 (Hs & Hnd & Hlt). simpl in Hnd, Hlt.
    rewrite app_nil_r in Hnd, Hlt.
    split; [assumption|]. split; [discriminate|].
    intros indices [= <-]. now split.
  - split; [reflexivity|]. simpl app.
    rewrite enumerate_indices_0.
    split; [apply NoDup_seq|].
    apply Forall_seq. intros j Hj. unfold n. lia.
Qed.

Lemma set_same s :
  set_weight_map (weight_map s) (set_history (history s) s) = s.
Proof. now destruct s. Qed.

(** [_adjust_weight_map]: what it writes, that it keeps weights in the
    unit interval, that it cannot divide by zero, that it does nothing
    without fired indices and normalizes otherwise, and how it decays
    the history of each fired index. *)
Lemma _adjust_weight_map_spec (delta_fitness : Q) (indices : list nat) w :
  wp (_adjust_weight_map delta_fitness indices)
     (fun r w' =>
        amb w' = amb w
        /\ exists wm' h',
             self w' = set_weight_map wm' (set_history h' (self w))
             /\ length h' = length (history (self w))
             /\ length wm' = length (weight_map (self w))
             /\ (Forall in_unit (weight_map (self w)) -> Forall in_unit wm')
             /\ r <> Raise ZeroDivisionError
             /\ (indices = [] ->
                 r = Ok tt /\ wm' = weight_map (self w)
                 /\ h' = history (self w))
             /\ (r = Ok tt -> indices <> [] -> py_sum wm' == 1)
             /\ (r = Ok tt -> NoDup indices ->
                 forall j,
                   (j ∈ indices ->
                    exists x, history (self w) !! j = Some x
                              /\ h' !! j = Some (x * history_decay_factor (self w)))
                   /\ (j ∉ indices -> h' !! j = history (self w) !! j))) w.
Proof.
  unfold _adjust_weight_map.
  destruct indices as [|i0 l0] eqn:Eind.
  { apply wp_ret. split; [reflexivity|].
    exists (weight_map (self w)), (history (self w)).
    rewrite set_same. repeat split; auto; try discriminate; try congruence.
    all: try (intros Hin; inversion Hin). }
  rewrite <- Eind.
  assert (indices <> []) as Hne by (subst; discriminate).
  clear Eind i0 l0.
  apply wp_bind, wp_lift.
  rewrite py_div_ok.
  2:{ pose proof (of_int_pos (length indices)) as Hp.
      destruct indices; [congruence|]. specialize (Hp ltac:(simpl; lia)). lra. }
  unfold then_ at 1.
  set (weight_modifier := delta_fitness / of_int (length indices)).
  set (s := self w).
  set (Post := fun (r : result unit) (w' : World Env G) => _).
  apply wp_bind.
  apply (wp_for_
    (fun rem w0 =>
       amb w0 = amb w
       /\ exists wm0 h0 done,
            self w0 = set_weight_map wm0 (set_history h0 s)
            /\ indices = done ++ rem
            /\ length wm0 = length (weight_map s)
            /\ length h0 = length (history s)
            /\ (Forall in_unit (weight_map s) -> Forall in_unit wm0)
            /\ Forall (fun j => (j < length (weight_map s))%nat) done
            /\ (NoDup indices ->
                forall j,
                  (j ∈ done ->
                   exists x, history s !! j = Some x
                             /\ h0 !! j = Some (x * history_decay_factor s))
                  /\ (j ∉ done -> h0 !! j = history s !! j)))).
  - intros i rem [s0 x0]
      (Hamb & wm0 & h0 & done & Hs & Hind & Hlw & Hlh & Hunit & Hdone & Hhist).
    simpl in Hamb, Hs. subst s0 x0.
    assert (forall e h1 w1,
               e <> ZeroDivisionError ->
               length h1 = length (history s) ->
               then_ (fun _ : unit => bind (attr weight_map) (fun wm =>
                        bind (lift (_normalize wm)) (fun wm' =>
                          assign (set_weight_map wm'))))
                 Post (Raise e)
                 (mkWorld (set_weight_map wm0 (set_history h1 s)) (amb w)))
      as Hraise.
    { intros e h1 w1 He Hl1. unfold then_, Post. agent_cbn.
      split; [reflexivity|]. exists wm0, h1.
      repeat split; auto; try discriminate; try congruence. }
    wp_steps. agent_cbn.
    destruct (getitem_cases h0 i) as [(x & Hx & ->)|(Hge & ->)].
    2:{ unfold then_ at 1. apply (Hraise _ h0 w); [discriminate|assumption]. }
    wp_steps. agent_cbn.
    rewrite (setitem_lookup _ _ _ _ Hx). wp_steps. agent_cbn.
    rewrite (proj2 (getitem_Ok (<[i:=x * history_decay_factor s]> h0) i
                      (x * history_decay_factor s))).
    2:{ apply list_lookup_insert_eq. now apply lookup_lt_Some in Hx. }
    wp_steps. agent_cbn.
    destruct (getitem_cases wm0 i) as [(y & Hy & ->)|(Hge & ->)].
    2:{ unfold then_ at 1.
        assert (length (<[i:=x * history_decay_factor s]> h0)
                = length (history s)) as Hl by now rewrite length_insert.
        apply (Hraise _ _ w); [discriminate|exact Hl]. }
    wp_steps. agent_cbn.
    rewrite (setitem_lookup _ _ _ _ Hy). wp_steps. agent_cbn.
    split; [reflexivity|].
    exists (<[i:=py_min 1 (py_max 0
                 (y + weight_modifier * alpha s
                      * (1 + x * history_decay_factor s
                             * history_bias_strength s)))]> wm0),
           (<[i:=x * history_decay_factor s]> h0), (done ++ [i]).
    split; [reflexivity|].
    split; [now rewrite <- app_assoc|].
    rewrite !length_insert.
    split; [assumption|]. split; [assumption|].
    split; [intros Hu; apply Forall_insert; [auto|apply clip_in_unit]|].
    split.
    { apply Forall_app. split; [assumption|].
      apply Forall_singleton. apply lookup_lt_Some in Hy. lia. }
    intros Hnd j. specialize (Hhist Hnd).
    assert (i ∉ done) as Hi.
    { rewrite Hind in Hnd. apply NoDup_app in Hnd as (_ & Hnd & _).
      intros Hin. apply (Hnd i Hin). apply elem_of_cons. now left. }
    destruct (decide (j = i)) as [->|Hji].
    + split.
      * intros _. exists x. split.
        -- rewrite <- (proj2 (Hhist i) Hi). exact Hx.
        -- apply list_lookup_insert_eq. now apply lookup_lt_Some in Hx.
      * intros Hnot. exfalso. apply Hnot. apply elem_of_app. right.
        now apply list_elem_of_singleton.
    + rewrite list_lookup_insert_ne by auto. split.
      * intros Hin. apply elem_of_app in Hin as [Hin|Hin].
        -- now apply (proj1 (Hhist j)).
        -- apply list_elem_of_singleton in Hin. contradiction.
      * intros Hnot. apply (proj2 (Hhist j)).
        intros Hin. apply Hnot. apply elem_of_app. now left.
  - intros [s0 x0]
      (Hamb & wm0 & h0 & done & Hs & Hind & Hlw & Hlh & Hunit & Hdone & Hhist).
    simpl in Hamb, Hs. subst s0 x0. rewrite app_nil_r in Hind. subst done.
    unfold then_. wp_steps. agent_cbn.
    destruct (_normalize_total wm0) as [wm' Hn]. rewrite Hn.
    wp_steps. agent_cbn. unfold Post. agent_cbn.
    split; [reflexivity|]. exists wm', h0.
    split; [reflexivity|]. split; [assumption|].
    split; [now rewrite (_normalize_length _ _ Hn)|].
    split.
    { intros Hu. eapply _normalize_in_unit; [|exact Hn].
      apply in_unit_nonneg. auto. }
    split; [discriminate|]. split; [congruence|].
    split; [|auto].
    intros _ _. eapply _normalize_sum; [|exact Hn].
    destruct indices as [|i l]; [congruence|].
    apply Forall_cons in Hdone as [Hi _].
    destruct wm0; [simpl in *; lia|discriminate].
  - split; [reflexivity|].
    exists (weight_map s), (history s), [].
    unfold s. rewrite set_same.
    repeat split; auto.
    all: try (intros Hin; inversion Hin).
Qed.

Lemma set_history_same s : set_history (history s) s = s.
Proof. now destruct s. Qed.

(** A loop that rewrites the history entry of each index by [f]. *)
Lemma history_loop_spec (f : Q -> Q) (body : nat -> M (World Env G) unit) :
  (forall i w,
      wp (body i)
         (fun r w' =>
            match history (self w) !! i with
            | Some x =>
                r = Ok tt
                /\ w' = mkWorld (set_history (<[i := f x]> (history (self w)))
                                   (self w)) (amb w)
            | None => r = Raise IndexError /\ w' = w
            end) w) ->
  forall indices w,
    wp (for_ indices body)
       (fun r w' =>
          amb w' = amb w
          /\ exists h',
               self w' = set_history h' (self w)
               /\ length h' = length (history (self w))
               /\ r <> Raise ZeroDivisionError
               /\ (indices = [] -> r = Ok tt /\ h' = history (self w))
               /\ (r = Ok tt -> NoDup indices ->
                   forall j,
                     (j ∈ indices ->
                      exists x, history (self w) !! j = Some x
                                /\ h' !! j = Some (f x))
                     /\ (j ∉ indices -> h' !! j = history (self w) !! j))) w.
Proof.
  intros Hbody indices w.
  set (s := self w).
  apply (wp_for_
    (fun rem w0 =>
       amb w0 = amb w
       /\ exists h0 done,
            self w0 = set_history h0 s
            /\ indices = done ++ rem
            /\ length h0 = length (history s)
            /\ (NoDup indices ->
                forall j,
                  (j ∈ done ->
                   exists x, history s !! j = Some x /\ h0 !! j = Some (f x))
                  /\ (j ∉ done -> h0 !! j = history s !! j)))).
  - intros i rem [s0 x0] (Hamb & h0 & done & Hs & Hind & Hlh & Hhist).
    simpl in Hamb, Hs. subst s0 x0.
    eapply wp_mono; [apply Hbody|]. agent_cbn.
    intros r w'. destruct (h0 !! i) as [x|] eqn:Hx.
    + intros [-> ->]. agent_cbn. split; [reflexivity|].
      exists (<[i := f x]> h0), (done ++ [i]).
      split; [reflexivity|].
      split; [now rewrite <- app_assoc|].
      split; [now rewrite length_insert|].
      intros Hnd j. specialize (Hhist Hnd).
      assert (i ∉ done) as Hi.
      { rewrite Hind in Hnd. apply NoDup_app in Hnd as (_ & Hnd & _).
        intros Hin. apply (Hnd i Hin). apply elem_of_cons. now left. }
      destruct (decide (j = i)) as [->|Hji].
      * split.
        -- intros _. exists x. split.
           ++ rewrite <- (proj2 (Hhist i) Hi). exact Hx.
           ++ apply list_lookup_insert_eq. now apply lookup_lt_Some in Hx.
        -- intros Hnot. exfalso. apply Hnot. apply elem_of_app. right.
           now apply list_elem_of_singleton.
      * rewrite list_lookup_insert_ne by auto. split.
        -- intros Hin. apply elem_of_app in Hin as [Hin|Hin].
           ++ now apply (proj1 (Hhist j)).
           ++ apply list_elem_of_singleton in Hin. contradiction.
        -- intros Hnot. apply (proj2 (Hhist j)).
           intros Hin. apply Hnot. apply elem_of_app. now left.
    + intros [-> ->]. agent_cbn. split; [reflexivity|].
      exists h0. split; [reflexivity|]. split; [assumption|].
      split; [discriminate|]. split; [|discriminate].
      intros ->. now destruct done.
  - intros [s0 x0] (Hamb & h0 & done & Hs & Hind & Hlh & Hhist).
    simpl in Hamb, Hs. subst s0 x0. rewrite app_nil_r in Hind. subst done.
    agent_cbn. split; [reflexivity|].
    exists h0. split; [reflexivity|]. split; [assumption|].
    split; [discriminate|]. split; [|auto].
    intros ->. split; [reflexivity|].
    apply list_eq. intros j.
    apply (Hhist (NoDup_nil_2)). apply not_elem_of_nil.
  - split; [reflexivity|].
    exists (history s), []. unfold s. rewrite set_history_same.
    repeat split; auto.
    all: try (intros Hin; inversion Hin).
Qed.

(** The history update that ends [tick]: each fired entry is incremented
    after an improvement and reset otherwise. *)
Lemma update_history_spec (delta_fitness : Q) (indices : list nat) w :
  wp (update_history delta_fitness indices)
     (fun r w' =>
        amb w' = amb w
        /\ exists h',
             self w' = set_history h' (self w)
             /\ length h' = length (history (self w))
             /\ r <> Raise ZeroDivisionError
             /\ (indices = [] -> r = Ok tt /\ h' = history (self w))
             /\ (r = Ok tt -> NoDup indices ->
                 forall j,
                   (j ∈ indices ->
                    exists x, history (self w) !! j = Some x
                              /\ h' !! j
                                 = Some (if Qltb 0 delta_fitness
                                         then x + 1 else 0))
                   /\ (j ∉ indices -> h' !! j = history (self w) !! j))) w.
Proof.
  unfold update_history. destruct (Qltb 0 delta_fitness).
  - apply (history_loop_spec (fun x => x + 1)).
    intros i w0. wp_steps.
    destruct (getitem_cases (history (self w0)) i) as [(x & Hx & ->)|(Hge & ->)].
    + wp_steps. rewrite (setitem_lookup _ _ _ _ Hx). wp_steps.
      rewrite Hx. now split.
    + unfold then_. apply lookup_ge_None in Hge. rewrite Hge. now split.
  - apply (history_loop_spec (fun _ => 0)).
    intros i w0. wp_steps.
    destruct (history (self w0) !! i) as [x|] eqn:Hx.
    + rewrite (setitem_lookup _ _ _ _ Hx). wp_steps. now split.
    + apply lookup_ge_None in Hx. rewrite (setitem_Raise _ _ _ Hx).
      unfold then_. now split.
Qed.

Lemma same_config_refl s : same_config s s.
Proof. repeat split. Qed.

Lemma tick_rest_spec w : wp tick_rest (rest_post w) w.
Proof.
  unfold tick_rest. apply wp_bind.
  eapply wp_mono; [apply sample_actions_spec|].
  intros r [s1 x1] (Hs & Hnz & Hind). simpl in Hs. subst s1.
  destruct r as [indices|e]; unfold then_.
  2:{ unfold rest_post, same_config. agent_cbn.
      repeat split; auto; try congruence; discriminate. }
  destruct (Hind indices eq_refl) as [Hnd Hlt]. clear Hind Hnz.
  wp_steps. agent_cbn. apply wp_call. intros r x2 Hinv.
  apply invoke_spec in Hinv as [_ Hexn].
  destruct r as [fitness|e]; unfold then_.
  2:{ unfold rest_post, same_config. agent_cbn.
      specialize (Hexn e eq_refl). subst e.
      repeat split; auto; try congruence; discriminate. }
  clear Hexn. wp_steps. agent_cbn.
  set (delta := fitness - last_fitness (self w)).
  eapply wp_mono; [apply _adjust_weight_map_spec|].
  intros r [s3 x3]
    (Hamb & wm' & h' & Hs3 & Hlh & Hlw & Hunit & Hnz & Hnil & Hsum & Hdecay).
  simpl in Hamb, Hs3. subst s3 x3. revert Hlh Hlw Hunit Hnil Hsum Hdecay.
  agent_cbn. intros Hlh Hlw Hunit Hnil Hsum Hdecay.
  destruct r as [[]|e]; unfold then_.
  2:{ unfold rest_post, same_config. agent_cbn.
      repeat split; auto; try congruence; discriminate. }
  specialize (Hsum eq_refl). specialize (Hdecay eq_refl Hnd).
  wp_steps. agent_cbn.
  eapply wp_mono; [apply update_history_spec|].
  intros r [s4 x4] (Hamb & h'' & Hs4 & Hlh' & Hnz' & Hnil' & Hupd).
  simpl in Hamb, Hs4. subst s4 x4. revert Hlh' Hnil' Hupd.
  agent_cbn. intros Hlh' Hnil' Hupd.
  destruct r as [[]|e]; unfold then_.
  2:{ unfold rest_post, same_config. agent_cbn.
      repeat split; auto; try congruence; discriminate. }
  specialize (Hupd eq_refl Hnd).
  wp_steps. unfold rest_post. agent_cbn.
  split; [unfold same_config; repeat split|].
  split; [reflexivity|]. split; [congruence|]. split; [assumption|].
  split; [assumption|]. split; [discriminate|].
  intros fired d [= <- <-].
  split; [assumption|]. split; [assumption|]. split; [reflexivity|].
  split; [assumption|]. split.
  { intros ->. destruct (Hnil eq_refl) as (_ & -> & ->).
    destruct (Hnil' eq_refl) as (_ & ->). now split. }
  intros j. split.
  - intros Hj. destruct (proj1 (Hdecay j) Hj) as (x & Hx & Hx').
    destruct (proj1 (Hupd j) Hj) as (y & Hy & Hy').
    exists x. split; [assumption|]. rewrite Hy'.
    rewrite Hx' in Hy. injection Hy as <-. reflexivity.
  - intros Hj. rewrite (proj2 (Hupd j) Hj). apply (proj2 (Hdecay j) Hj).
Qed.

Lemma tick_trace_spec w : wp tick_trace (tick_post w) w.
Proof.
  unfold tick_trace. apply wp_bind. unfold wp at 1.
  rewrite _adjust_mutation_step_run. cbn [fst snd]. unfold then_ at 1.
  set (s := self w). set (step := adjusted_step s).
  assert (forall wmA xA,
             step <> 0%Z ->
             (Forall in_unit (weight_map s) -> Forall in_unit wmA) ->
             length wmA = length (weight_map s) ->
             ((ticks s mod step)%Z <> 0%Z -> wmA = weight_map s) ->
             wp tick_rest (tick_post w)
                (mkWorld (set_weight_map wmA (set_mutation_step step s)) xA))
    as Hrest.
  { intros wmA xA Hstep Hunit Hlen Hsame.
    eapply wp_mono; [apply tick_rest_spec|].
    intros r [s' x'] (Hcfg & Hms & Hlh & Hlw & Hu & Hnz & Hok).
    revert Hcfg Hms Hlh Hlw Hu Hok. unfold tick_post, same_config. agent_cbn.
    fold s. fold step.
    intros Hcfg Hms Hlh Hlw Hu Hok.
    split; [exact Hcfg|]. split; [exact Hms|]. split; [exact Hlh|].
    split; [congruence|].
    split; [auto|]. split; [split; [contradiction|congruence]|].
    intros fired delta Hr.
    destruct (Hok fired delta Hr) as (Hnd & Hlt & Ht & Hsum & Hnil & Hhist).
    destruct Hcfg as (_ & _ & _ & _ & _ & _ & _ & _ & Hdf).
    split; [assumption|]. split; [now rewrite <- Hlen|].
    split; [assumption|]. split; [assumption|].
    split; [|assumption].
    intros Hmod Hf. destruct (Hnil Hf) as [-> ->]. split; auto. }
  wp_steps. agent_cbn. fold s. fold step. unfold py_mod.
  destruct (Z.eqb_spec step 0) as [Hz|Hnz].
  { unfold then_, tick_post, same_config. agent_cbn. fold s. fold step.
    repeat split; auto; discriminate. }
  wp_steps.
  destruct (Z.eqb_spec (ticks s mod step) 0) as [Hm|Hm].
  - eapply wp_mono; [apply _mutate_weight_map_spec|].
    intros r [s2 x2] (-> & _ & wm' & Hs2 & Hlen & Hunit).
    simpl in Hs2. subst s2. revert Hlen. agent_cbn. fold s. intros Hlen.
    unfold then_. apply Hrest; auto. intros Hmod. contradiction.
  - apply wp_ret. unfold then_.
    replace (set_mutation_step step s)
      with (set_weight_map (weight_map s) (set_mutation_step step s))
      by now destruct s.
    apply Hrest; auto.
Qed.

End Methods.

(** ** Construction and the worlds a caller can reach *)

Section Reachable.
Context {Env G : Type} `{RandomGen G}.
Implicit Types (w : World Env G) (s : EARL_Agent Env).

Lemma tick_tick_trace w :
  tick w = (match (tick_trace w).1 with
            | Ok _ => Ok tt
            | Raise e => Raise e
            end, (tick_trace w).2).
Proof.
  unfold tick, bind. destruct (tick_trace w) as [[a|e] w']; reflexivity.
Qed.

Lemma tick_spec w r w' :
  tick w = (r, w') -> exists r', tick_trace w = (r', w').
Proof.
  rewrite tick_tick_trace. intros [= _ <-].
  exists (tick_trace w).1. now destruct (tick_trace w).
Qed.

Lemma _generate_weight_map_spec (acts : list (callable Env unit))
    (x : Ambient Env G) :
  exists wm, (_generate_weight_map acts x).1 = Ok wm
             /\ length wm = length acts
             /\ (unit_draws (G:=G) -> Forall in_unit wm).
Proof.
  unfold _generate_weight_map.
  assert (wp (for_acc acts []
                (fun (acc : list Q) (_ : callable Env unit) (x0 : Ambient Env G) =>
                   let (u, x') := draw x0 in (Ok (acc ++ [u]), x')))
             (fun r _ => exists draws, r = Ok draws
                                       /\ length draws = length acts
                                       /\ (unit_draws (G:=G) -> Forall (Qle 0) draws))
             x) as Hloop.
  { apply (wp_for_acc
      (fun rem (acc : list Q) (_ : Ambient Env G) =>
         (length acc + length rem = length acts)%nat
         /\ (unit_draws (G:=G) -> Forall (Qle 0) acc))).
    - intros act rem acc x0 [Hlen Hacc]. unfold wp, draw.
      destruct (next_random (gen x0)) as [u g] eqn:E. cbn [fst snd].
      split.
      + rewrite length_app. simpl in *. lia.
      + intros Hdraws. apply Forall_app. split; [auto|].
        apply Forall_singleton. pose proof (Hdraws (gen x0)) as Hu.
        rewrite E in Hu. apply Hu.
    - intros acc x0 [Hlen Hacc]. exists acc. simpl in Hlen.
      split; [reflexivity|]. split; [lia|assumption].
    - split; [reflexivity|]. intros _. constructor. }
  unfold wp in Hloop. unfold bind.
  destruct (for_acc _ _ _ x) as [r x1]. cbn [fst snd] in Hloop.
  destruct Hloop as (draws & -> & Hlen & Hpos).
  unfold lift. cbn [fst].
  destruct (_normalize_total draws) as [wm Hwm]. exists wm.
  split; [assumption|]. split.
  - rewrite (_normalize_length _ _ Hwm). assumption.
  - intros Hdraws. exact (_normalize_in_unit draws wm (Hpos Hdraws) Hwm).
Qed.

(** A constructed agent: weights in the unit interval, one weight and one
    history entry per action, the mutation step at its lower bound. *)
Lemma __init___spec acts fit thr str lo hi hbs hdf al (x x' : Ambient Env G) a :
  __init__ acts fit thr str lo hi hbs hdf al x = (Ok a, x') ->
  (unit_draws (G:=G) -> Forall in_unit (weight_map a))
  /\ action_space a = acts
  /\ length (weight_map a) = length acts
  /\ history a = map (fun _ => 0) acts
  /\ mutation_step a = lo
  /\ min_mutation_step a = lo
  /\ max_mutation_step a = hi
  /\ ticks a = 0%Z.
Proof.
  unfold __init__, bind.
  destruct (_generate_weight_map_spec acts x) as (wm & Hwm & Hlen & Hunit).
  destruct (_generate_weight_map acts x) as [r x1]. cbn [fst] in Hwm. subst r.
  destruct (invoke fit x1) as [[f|e] x2]; [|discriminate].
  unfold ret. intros [= <- <-].
  cbn [action_space weight_map history mutation_step min_mutation_step
       max_mutation_step ticks].
  repeat split; assumption.
Qed.

Lemma reachable_weights w :
  unit_draws (G:=G) -> reachable w -> Forall in_unit (weight_map (self w)).
Proof.
  intros Hdraws. induction 1 as [acts fit thr str lo hi hbs hdf al x a x' Hinit
                                |w r w' Hreach IH Htick
                                |w x Hreach IH].
  - now apply (__init___spec _ _ _ _ _ _ _ _ _ _ _ _ Hinit).
  - apply tick_spec in Htick as [r' Htick].
    pose proof (wp_run _ _ _ _ _ Htick (tick_trace_spec w))
      as (_ & _ & _ & _ & Hunit & _).
    apply Hunit, IH.
  - exact IH.
Qed.

(** One weight and one history entry per action, always. *)
Lemma reachable_lengths w :
  reachable w ->
  length (weight_map (self w)) = length (action_space (self w))
  /\ length (history (self w)) = length (action_space (self w)).
Proof.
  induction 1 as [acts fit thr str lo hi hbs hdf al x a x' Hinit
                 |w r w' Hreach IH Htick
                 |w x Hreach IH].
  - destruct (__init___spec _ _ _ _ _ _ _ _ _ _ _ _ Hinit)
      as (_ & Hacts & Hlen & Hhist & _).
    cbn [self]. rewrite Hacts, Hhist.
    split; [assumption|]. apply length_map.
  - apply tick_spec in Htick as [r' Htick].
    pose proof (wp_run _ _ _ _ _ Htick (tick_trace_spec w))
      as (Hcfg & _ & Hlh & Hlw & _).
    destruct Hcfg as (-> & _). rewrite Hlh, Hlw. exact IH.
  - exact IH.
Qed.

End Reachable.

(** * The claims *)

Section Claims.
Context {Env G : Type} `{RandomGen G}.
Implicit Types (w : World Env G) (s : EARL_Agent Env).


(** C3.  In a call of [tick] that completes, the history entry of every
    fired index becomes its old value times [history_decay_factor], plus
    1, when the fitness improved ([delta_fitness > 0]), and exactly 0
    otherwise; the entries of the other indices are unchanged. *)
Theorem history_update w w' (fired : list nat) (delta : Q) (j : nat) :
  tick_trace w = (Ok (fired, delta), w') ->
  (j ∈ fired ->
   exists x,
     history (self w) !! j = Some x
     /\ (0 < delta ->
         history (self w') !! j
         = Some (x * history_decay_factor (self w) + 1))
     /\ (delta <= 0 -> history (self w') !! j = Some 0))
  /\ (j ∉ fired -> history (self w') !! j = history (self w) !! j).
Proof.
  intros Htick.
  pose proof (wp_run _ _ _ _ _ Htick (tick_trace_spec w))
    as (_ & _ & _ & _ & _ & _ & Hok).
  destruct (Hok fired delta eq_refl) as (_ & _ & _ & _ & _ & Hhist).
  split; [|apply Hhist].
  intros Hj. destruct (proj1 (Hhist j) Hj) as (x & Hx & Hx').
  exists x. split; [assumption|]. split.
  - intros Hpos. apply Qltb_true in Hpos. now rewrite Hpos in Hx'.
  - intros Hneg. apply Qltb_false in Hneg. now rewrite Hneg in Hx'.
Qed.

(** C4.  Whatever happens later in the call, [tick] leaves in
    [mutation_step] the value computed from the variance of the weight
    map as it stood when the call began: one less, but not below
    [min_mutation_step], when the variance is strictly below
    [weight_variance_threshold]; one more, but not above
    [max_mutation_step], otherwise.  The adjusted value is the one the
    tick counter is then divided by: the call raises [ZeroDivisionError]
    exactly when it is 0. *)
Theorem mutation_step_adjusted_first w (r : result (list nat * Q)) w' :
  tick_trace w = (r, w') ->
  exists v,
    _variance (weight_map (self w)) = Ok v
    /\ (v < weight_variance_threshold (self w) ->
        mutation_step (self w')
        = Z.max (min_mutation_step (self w)) (mutation_step (self w) - 1))
    /\ (weight_variance_threshold (self w) <= v ->
        mutation_step (self w')
        = Z.min (max_mutation_step (self w)) (mutation_step (self w) + 1))
    /\ (r = Raise ZeroDivisionError <-> mutation_step (self w') = 0%Z).
Proof.
  intros Htick.
  pose proof (wp_run _ _ _ _ _ Htick (tick_trace_spec w))
    as (_ & Hstep & _ & _ & _ & Hzero & _).
  exists (variance_value (weight_map (self w))).
  split; [apply _variance_value|].
  rewrite Hstep. unfold adjusted_step in *.
  split; [|split].
  - intros Hlt. apply Qltb_true in Hlt. now rewrite Hlt.
  - intros Hge. apply Qltb_false in Hge. now rewrite Hge.
  - exact Hzero.
Qed.

(** C5.  If [min_mutation_step <= max_mutation_step], the mutation step
    of an agent that was constructed and driven by [tick] lies between
    the two bounds. *)
Theorem mutation_step_in_range w :
  reachable w ->
  (min_mutation_step (self w) <= max_mutation_step (self w))%Z ->
  (min_mutation_step (self w) <= mutation_step (self w)
   <= max_mutation_step (self w))%Z.
Proof.
  induction 1 as [acts fit thr str lo hi hbs hdf al x a x' Hinit
                 |w r w' Hreach IH Htick
                 |w x Hreach IH].
  - unfold __init__, bind in Hinit.
    destruct (_generate_weight_map acts x) as [[wm|e] x1]; [|discriminate].
    destruct (invoke fit x1) as [[f|e] x2]; [|discriminate].
    injection Hinit as <- <-. simpl. lia.
  - apply tick_spec in Htick as [r' Htick].
    pose proof (wp_run _ _ _ _ _ Htick (tick_trace_spec w))
      as (Hcfg & Hstep & _).
    destruct Hcfg as (_ & _ & _ & _ & Hlo & Hhi & _).
    rewrite Hstep, Hlo, Hhi. intros Hle. specialize (IH Hle).
    unfold adjusted_step. destruct (Qltb _ _); lia.
  - exact IH.
Qed.

(** C6.  Constructing an agent over an empty action space is not
    rejected: normalizing the empty list returns the empty list without
    a division, and the constructor returns an agent with an empty weight
    map unless the caller's fitness probe raises. *)
Theorem empty_action_space (fit : callable Env Q) (thr str : Q) (lo hi : Z)
    (hbs hdf al : Q) (x : Ambient Env G) :
  _normalize [] = Ok []
  /\ match (__init__ [] fit thr str lo hi hbs hdf al x).1 with
     | Ok a => action_space a = [] /\ weight_map a = [] /\ history a = []
     | Raise e => e = CalleeError /\ (fit (env x)).1 = None
     end.
Proof.
  split; [reflexivity|].
  unfold __init__, _generate_weight_map, bind, lift, invoke. simpl.
  destruct (fit (env x)) as [[f|] e]; simpl; auto.
Qed.

(** C10.  A call of [tick] that completes without a mutation pass (the
    tick counter is not a multiple of the adjusted mutation step) and
    without a fired action leaves the weight map, the history and every
    attribute set at construction as they were: it writes
    [mutation_step], [last_fitness] and [ticks] only. *)
Theorem quiet_tick_frame w w' (delta : Q) :
  tick_trace w = (Ok ([], delta), w') ->
  (ticks (self w) mod mutation_step (self w') <> 0)%Z ->
  weight_map (self w') = weight_map (self w)
  /\ history (self w') = history (self w)
  /\ same_config (self w) (self w').
Proof.
  intros Htick Hmod.
  pose proof (wp_run _ _ _ _ _ Htick (tick_trace_spec w))
    as (Hcfg & Hstep & _ & _ & _ & _ & Hok).
  destruct (Hok [] delta eq_refl) as (_ & _ & _ & _ & Hquiet & _).
  rewrite Hstep in Hmod. destruct (Hquiet Hmod eq_refl) as [Hw Hh].
  auto.
Qed.


(** C7.  The division by the number of fired indices never raises: it
    is only reached with a non-empty list.  For an agent with one
    action, [tick] raises [ZeroDivisionError] only when the adjusted
    mutation step is 0, and the fired indices are none or the single
    index 0.  Normalizing a one-element list gives the list of 1. *)
Theorem single_action_safe w (r : result (list nat * Q)) w' :
  reachable w ->
  length (action_space (self w)) = 1%nat ->
  tick_trace w = (r, w') ->
  (forall (delta : Q) (indices : list nat) (w0 : World Env G),
      (_adjust_weight_map delta indices w0).1 <> Raise ZeroDivisionError)
  /\ (r = Raise ZeroDivisionError <-> mutation_step (self w') = 0%Z)
  /\ (forall fired delta,
         r = Ok (fired, delta) -> fired = [] \/ fired = [0%nat])
  /\ (forall x : Q, exists y, _normalize [x] = Ok [y] /\ y == 1).
Proof.
  intros Hreach Hone Htick. split; [|split; [|split]].
  - intros delta indices w0.
    pose proof (_adjust_weight_map_spec delta indices w0) as Hspec.
    unfold wp in Hspec.
    destruct Hspec as (_ & wm' & h' & _ & _ & _ & _ & Hnz & _).
    exact Hnz.
  - pose proof (wp_run _ _ _ _ _ Htick (tick_trace_spec w))
      as (_ & Hstep & _ & _ & _ & Hzero & _).
    now rewrite Hstep.
  - intros fired delta ->.
    pose proof (wp_run _ _ _ _ _ Htick (tick_trace_spec w))
      as (_ & _ & _ & _ & _ & _ & Hok).
    destruct (Hok fired delta eq_refl) as (Hnd & Hlt & _).
    destruct (reachable_lengths w Hreach) as [Hlw _].
    rewrite Hlw, Hone in Hlt.
    destruct fired as [|i fired]; [now left|right].
    apply Forall_cons in Hlt as [Hi Hlt].
    apply NoDup_cons in Hnd as [Hni Hnd].
    assert (i = 0%nat) as -> by lia.
    destruct fired as [|j fired]; [reflexivity|].
    apply Forall_cons in Hlt as [Hj _].
    assert (j = 0%nat) as -> by lia.
    exfalso. apply Hni. apply elem_of_cons. now left.
  - intros x. destruct (Qeq_dec (py_sum [x]) 0) as [Hz|Hnz].
    + rewrite (_normalize_zero _ Hz). simpl. eexists. split; [reflexivity|].
      reflexivity.
    + rewrite (_normalize_nonzero _ Hnz). simpl. eexists.
      split; [reflexivity|].
      assert (py_sum [x] == x) as Hx.
      { rewrite py_sum_cons, py_sum_nil. ring. }
      rewrite Hx in *. now field.
Qed.

End Claims.

(** * Two runs side by side *)

Section Rel.
Context {S1 S2 : Type} (R : S1 -> S2 -> Prop).

Lemma rel_ret {A1 A2} (RA : A1 -> A2 -> Prop) a1 a2 :
  RA a1 a2 -> rel R RA (ret a1) (ret a2).
Proof. intros Ha w1 w2 Hw. split; assumption. Qed.

Lemma rel_lift {A1 A2} (RA : A1 -> A2 -> Prop) r1 r2 :
  rel_result RA r1 r2 -> rel R RA (lift r1) (lift r2).
Proof. intros Hr w1 w2 Hw. split; assumption. Qed.

Lemma rel_lift_eq {A} (r : result A) : rel R eq (lift r) (lift r).
Proof. apply rel_lift. destruct r; reflexivity. Qed.

Lemma rel_bind {A1 A2 B1 B2} (RA : A1 -> A2 -> Prop) (RB : B1 -> B2 -> Prop)
    (m1 : M S1 A1) (m2 : M S2 A2) (f1 : A1 -> M S1 B1) (f2 : A2 -> M S2 B2) :
  rel R RA m1 m2 ->
  (forall a1 a2, RA a1 a2 -> rel R RB (f1 a1) (f2 a2)) ->
  rel R RB (bind m1 f1) (bind m2 f2).
Proof.
  intros Hm Hf w1 w2 Hw. specialize (Hm w1 w2 Hw).
  unfold bind, rel_out in *.
  destruct (m1 w1) as [[a1|e1] w1'], (m2 w2) as [[a2|e2] w2'];
    cbn [fst snd] in *; destruct Hm as [Hw' Ha]; try contradiction.
  - apply (Hf a1 a2 Ha w1' w2' Hw').
  - split; assumption.
Qed.

Lemma rel_for_acc {A1 A2 B1 B2} (RX : A1 -> A2 -> Prop) (RB : B1 -> B2 -> Prop)
    (body1 : B1 -> A1 -> M S1 B1) (body2 : B2 -> A2 -> M S2 B2) :
  (forall b1 b2 x1 x2, RB b1 b2 -> RX x1 x2 ->
                       rel R RB (body1 b1 x1) (body2 b2 x2)) ->
  forall l1 l2, Forall2 RX l1 l2 ->
  forall b1 b2, RB b1 b2 ->
  rel R RB (for_acc l1 b1 body1) (for_acc l2 b2 body2).
Proof.
  intros Hbody l1 l2 Hl.
  induction Hl as [|x1 x2 l1 l2 Hx Hl IH]; intros b1 b2 Hb; simpl.
  - now apply rel_ret.
  - eapply rel_bind; [now apply Hbody|]. intros b1' b2' Hb'. now apply IH.
Qed.

Lemma rel_for_ {A} (body1 : A -> M S1 unit) (body2 : A -> M S2 unit) :
  (forall x, rel R eq (body1 x) (body2 x)) ->
  forall l, rel R eq (for_ l body1) (for_ l body2).
Proof.
  intros Hbody l. unfold for_.
  assert (Forall2 eq l l) as Hl by (induction l; constructor; auto).
  apply (rel_for_acc eq eq); [|exact Hl|reflexivity].
  intros _ _ x _ _ <-. apply Hbody.
Qed.
End Rel.

Section TwoRuns.
Context {Env1 Env2 G : Type} `{RandomGen G}.
Variable c : Q.

Lemma rel_attr {A} (f1 : EARL_Agent Env1 -> A) (f2 : EARL_Agent Env2 -> A) :
  (forall s1 s2, agents_agree c s1 s2 -> f1 s1 = f2 s2) ->
  rel (sim (Env1:=Env1) (Env2:=Env2) (G:=G) c) eq (attr f1) (attr f2).
Proof.
  intros Hf w1 w2 Hw. split; [exact Hw|]. apply Hf, Hw.
Qed.

Lemma rel_attr_with {A1 A2} (RA : A1 -> A2 -> Prop)
    (f1 : EARL_Agent Env1 -> A1) (f2 : EARL_Agent Env2 -> A2) :
  (forall s1 s2, agents_agree c s1 s2 -> RA (f1 s1) (f2 s2)) ->
  rel (sim (Env1:=Env1) (Env2:=Env2) (G:=G) c) RA (attr f1) (attr f2).
Proof.
  intros Hf w1 w2 Hw. split; [exact Hw|]. apply Hf, Hw.
Qed.

Lemma rel_assign (u1 : EARL_Agent Env1 -> EARL_Agent Env1)
    (u2 : EARL_Agent Env2 -> EARL_Agent Env2) :
  (forall s1 s2, agents_agree c s1 s2 -> agents_agree c (u1 s1) (u2 s2)) ->
  rel (sim (Env1:=Env1) (Env2:=Env2) (G:=G) c) eq (assign u1) (assign u2).
Proof.
  intros Hu w1 w2 [Hs Hg]. split; [|reflexivity].
  split; [apply Hu, Hs|exact Hg].
Qed.

Lemma draw_agree (x1 : Ambient Env1 G) (x2 : Ambient Env2 G) :
  gen_eq x1 x2 ->
  (draw x1).1 = (draw x2).1 /\ gen_eq (draw x1).2 (draw x2).2.
Proof.
  unfold gen_eq, draw. intros ->.
  destruct (next_random (gen x2)). now split.
Qed.

Lemma rel_random_random : rel (sim (Env1:=Env1) (Env2:=Env2) (G:=G) c) eq random_random random_random.
Proof.
  intros w1 w2 [Hs Hg]. unfold random_random.
  destruct (draw_agree _ _ Hg) as [Hu Hg'].
  destruct (draw (amb w1)), (draw (amb w2)). simpl in *.
  split; [split; assumption|assumption].
Qed.

Lemma rel_random_uniform (a b : Q) :
  rel (sim (Env1:=Env1) (Env2:=Env2) (G:=G) c) eq (random_uniform a b) (random_uniform a b).
Proof.
  unfold random_uniform. eapply rel_bind; [apply rel_random_random|].
  intros u1 u2 <-. now apply rel_ret.
Qed.

Lemma invoke_agree {A} (f1 : callable Env1 A) (f2 : callable Env2 A)
    (v : A) (x1 : Ambient Env1 G) (x2 : Ambient Env2 G) :
  (forall e, (f1 e).1 = Some v) -> (forall e, (f2 e).1 = Some v) ->
  gen_eq x1 x2 ->
  (invoke f1 x1).1 = Ok v /\ (invoke f2 x2).1 = Ok v
  /\ gen_eq (invoke f1 x1).2 (invoke f2 x2).2.
Proof.
  intros H1 H2 Hg. unfold invoke.
  specialize (H1 (env x1)). specialize (H2 (env x2)).
  destruct (f1 (env x1)) as [r1 e1], (f2 (env x2)) as [r2 e2].
  simpl in *. subst. repeat split. exact Hg.
Qed.

Lemma rel_call {A} (f1 : callable Env1 A) (f2 : callable Env2 A) (v : A) :
  (forall e, (f1 e).1 = Some v) -> (forall e, (f2 e).1 = Some v) ->
  rel (sim (Env1:=Env1) (Env2:=Env2) (G:=G) c) eq (call f1) (call f2).
Proof.
  intros H1 H2 w1 w2 [Hs Hg]. unfold call.
  destruct (invoke_agree f1 f2 v _ _ H1 H2 Hg) as (E1 & E2 & Hg').
  destruct (invoke f1 (amb w1)), (invoke f2 (amb w2)). simpl in *. subst.
  split; [split; assumption|reflexivity].
Qed.

Lemma never_raises_unit {Env} (f : callable Env unit) :
  never_raises f -> forall e, (f e).1 = Some tt.
Proof.
  intros Hf e. specialize (Hf e). destruct (f e).1 as [[]|]; congruence.
Qed.

End TwoRuns.

(** Reading a number both agents hold, and writing the same value. *)
Ltac rel_data :=
  let Hd := fresh "Hd" in
  intros ? ? (Hd & _); unfold data in Hd; congruence.

Ltac rel_set :=
  let Hd := fresh "Hd" in
  intros ? ? (Hd & ? & ? & ? & ? & ?);
  unfold agents_agree, data in *; simpl;
  repeat split; try assumption; congruence.

Create HintDb earl_rel.

Ltac rel_step :=
  lazymatch goal with
  | |- rel _ _ (bind _ _) (bind _ _) =>
      eapply rel_bind; [rel_step|intros ? ? ?; subst]
  | |- rel _ _ (attr _) (attr _) => apply rel_attr; rel_data
  | |- rel _ _ (lift ?r) (lift ?r) => apply rel_lift_eq
  | |- rel _ _ (assign _) (assign _) => apply rel_assign; rel_set
  | |- rel _ _ (ret _) (ret _) => apply rel_ret; reflexivity
  | |- rel _ _ (if ?b then _ else _) (if ?b then _ else _) => destruct b
  | |- rel _ _ (for_ _ _) (for_ _ _) => apply rel_for_; intros ?
  | |- rel _ _ _ _ => solve [auto with earl_rel]
  end.

Ltac rel_steps := repeat rel_step.

#[export] Hint Resolve rel_random_random rel_random_uniform : earl_rel.

Section TwoRunsMethods.
Context {Env1 Env2 G : Type} `{RandomGen G}.
Variable c : Q.

Lemma rel__adjust_mutation_step :
  rel (sim c) eq
      (_adjust_mutation_step (Env:=Env1) (G:=G))
      (_adjust_mutation_step (Env:=Env2) (G:=G)).
Proof. unfold _adjust_mutation_step. rel_steps. Qed.

Lemma rel__mutate_weight_map :
  rel (sim c) eq
      (_mutate_weight_map (Env:=Env1) (G:=G))
      (_mutate_weight_map (Env:=Env2) (G:=G)).
Proof. unfold _mutate_weight_map. rel_steps. Qed.

Lemma rel_update_history (delta : Q) (indices : list nat) :
  rel (sim c) eq
      (update_history (Env:=Env1) (G:=G) delta indices)
      (update_history (Env:=Env2) (G:=G) delta indices).
Proof. unfold update_history. rel_steps. Qed.

Lemma rel__adjust_weight_map (delta : Q) (indices : list nat) :
  rel (sim c) eq
      (_adjust_weight_map (Env:=Env1) (G:=G) delta indices)
      (_adjust_weight_map (Env:=Env2) (G:=G) delta indices).
Proof.
  unfold _adjust_weight_map. destruct indices as [|i l]; rel_steps.
Qed.

Lemma rel_sample_actions :
  rel (sim c) eq
      (sample_actions (Env:=Env1) (G:=G))
      (sample_actions (Env:=Env2) (G:=G)).
Proof.
  unfold sample_actions.
  eapply rel_bind; [apply rel_attr; rel_data|]. intros wm ? <-.
  set (pairs := imap (fun (i : nat) (weight : Q) => (i, weight)) wm).
  assert (Forall2 eq pairs pairs) as Hpairs
    by (induction pairs; constructor; auto).
  apply (rel_for_acc (sim c) eq eq); [|exact Hpairs|reflexivity].
  intros indices ? [i weight] ? <- <-.
  eapply rel_bind; [apply rel_random_random|]. intros u ? <-.
  destruct (Qltb u weight); [|now apply rel_ret].
  eapply rel_bind.
  { apply (rel_attr_with c
             (fun acts1 acts2 =>
                length acts1 = length acts2
                /\ Forall never_raises acts1 /\ Forall never_raises acts2)).
    intros s1 s2 (_ & Hlen & H1 & H2 & _). auto. }
  intros acts1 acts2 (Hlen & H1 & H2).
  eapply rel_bind.
  { apply (rel_lift _ (fun a1 a2 => never_raises a1 /\ never_raises a2)).
    unfold getitem, rel_result.
    destruct (acts1 !! i) as [a1|] eqn:E1, (acts2 !! i) as [a2|] eqn:E2.
    - split.
      + rewrite Forall_forall in H1. apply H1.
        eapply list_elem_of_lookup_2; eauto.
      + rewrite Forall_forall in H2. apply H2.
        eapply list_elem_of_lookup_2; eauto.
    - apply lookup_lt_Some in E1. apply lookup_ge_None in E2. lia.
    - apply lookup_lt_Some in E2. apply lookup_ge_None in E1. lia.
    - reflexivity. }
  intros a1 a2 [Ha1 Ha2].
  eapply rel_bind.
  { apply (rel_call c a1 a2 tt); now apply never_raises_unit. }
  intros ? ? _. now apply rel_ret.
Qed.

#[local] Hint Resolve rel__adjust_mutation_step rel__mutate_weight_map
  rel_update_history rel__adjust_weight_map rel_sample_actions : earl_rel.

Lemma rel_tick_trace :
  rel (sim c) eq
      (tick_trace (Env:=Env1) (G:=G)) (tick_trace (Env:=Env2) (G:=G)).
Proof.
  unfold tick_trace. rel_steps.
  eapply rel_bind.
  { apply (rel_attr_with c
             (fun f1 f2 => returns_constant c f1 /\ returns_constant c f2)).
    intros s1 s2 (_ & _ & _ & _ & H1 & H2). auto. }
  intros f1 f2 [H1 H2].
  eapply rel_bind; [apply (rel_call c f1 f2 c); assumption|].
  intros fitness ? <-. rel_steps.
Qed.

Lemma rel_tick :
  rel (sim c) eq (tick (Env:=Env1) (G:=G)) (tick (Env:=Env2) (G:=G)).
Proof.
  unfold tick. eapply rel_bind; [apply rel_tick_trace|].
  intros ? ? _. now apply rel_ret.
Qed.

(** Agreeing worlds have the same weight-map trajectory. *)
Lemma trajectory_agree (n : nat) :
  forall (w1 : World Env1 G) (w2 : World Env2 G),
    sim c w1 w2 -> trajectory n w1 = trajectory n w2.
Proof.
  induction n as [|n IH]; intros w1 w2 Hw; [reflexivity|].
  destruct (rel_tick w1 w2 Hw) as [Hw' _].
  simpl. f_equal.
  - destruct Hw' as [(Hd & _) _]. unfold data in Hd. congruence.
  - apply IH, Hw'.
Qed.

(** Construction from generators in the same state. *)
Lemma __init___agree (acts1 : list (callable Env1 unit))
    (acts2 : list (callable Env2 unit))
    (fit1 : callable Env1 Q) (fit2 : callable Env2 Q)
    (thr str : Q) (lo hi : Z) (hbs hdf al : Q)
    (x1 : Ambient Env1 G) (x2 : Ambient Env2 G) :
  length acts1 = length acts2 ->
  Forall never_raises acts1 -> Forall never_raises acts2 ->
  returns_constant c fit1 -> returns_constant c fit2 ->
  gen_eq x1 x2 ->
  exists a1 x1' a2 x2',
    __init__ acts1 fit1 thr str lo hi hbs hdf al x1 = (Ok a1, x1')
    /\ __init__ acts2 fit2 thr str lo hi hbs hdf al x2 = (Ok a2, x2')
    /\ sim c (mkWorld a1 x1') (mkWorld a2 x2').
Proof.
  intros Hlen H1 H2 Hf1 Hf2 Hg.
  assert (rel gen_eq eq (_generate_weight_map acts1)
            (_generate_weight_map (G:=G) acts2)) as Hgen.
  { unfold _generate_weight_map. eapply rel_bind.
    - apply (rel_for_acc gen_eq (fun _ _ => True) eq);
        [|now apply Forall2_true|reflexivity].
      intros acc ? a1 a2 <- _ y1 y2 Hy.
      destruct (draw_agree y1 y2 Hy) as [Hu Hy'].
      destruct (draw y1), (draw y2). simpl in *. subst. now split.
    - intros wm ? <-. apply rel_lift_eq. }
  specialize (Hgen x1 x2 Hg). unfold rel_out in Hgen.
  destruct (_generate_weight_map_spec acts1 x1) as (wm1 & E1 & _).
  destruct (_generate_weight_map_spec acts2 x2) as (wm2 & E2 & _).
  unfold __init__, bind.
  destruct (_generate_weight_map acts1 x1) as [r1 y1].
  destruct (_generate_weight_map acts2 x2) as [r2 y2].
  simpl in E1, E2, Hgen. subst r1 r2. destruct Hgen as [Hy <-].
  destruct (invoke_agree fit1 fit2 c y1 y2 Hf1 Hf2 Hy) as (F1 & F2 & Hz).
  destruct (invoke fit1 y1) as [r1 z1], (invoke fit2 y2) as [r2 z2].
  simpl in F1, F2, Hz. subst r1 r2. unfold ret.
  eexists _, _, _, _. split; [reflexivity|]. split; [reflexivity|].
  split; [|exact Hz]. unfold agents_agree, data. agent_cbn.
  rewrite !map_const_replicate, Hlen.
  repeat split; try assumption; congruence.
Qed.

End TwoRunsMethods.

(** C9.  Two agents constructed with the same parameters over action
    spaces of the same size whose actions never raise, with fitness
    probes that return the same constant, from generators in the same
    state: both constructions succeed, the two weight maps are equal,
    and so are the weight maps after each of any number of ticks,
    whatever the two environments are and whatever the actions do to
    them. *)
Theorem deterministic_given_random_stream {Env1 Env2 G : Type} `{RandomGen G}
    (c : Q)
    (acts1 : list (callable Env1 unit)) (acts2 : list (callable Env2 unit))
    (fit1 : callable Env1 Q) (fit2 : callable Env2 Q)
    (thr str : Q) (lo hi : Z) (hbs hdf al : Q)
    (x1 : Ambient Env1 G) (x2 : Ambient Env2 G) (n : nat) :
  length acts1 = length acts2 ->
  Forall never_raises acts1 -> Forall never_raises acts2 ->
  returns_constant c fit1 -> returns_constant c fit2 ->
  gen x1 = gen x2 ->
  exists a1 x1' a2 x2',
    __init__ acts1 fit1 thr str lo hi hbs hdf al x1 = (Ok a1, x1')
    /\ __init__ acts2 fit2 thr str lo hi hbs hdf al x2 = (Ok a2, x2')
    /\ weight_map a1 = weight_map a2
    /\ trajectory n (mkWorld a1 x1') = trajectory n (mkWorld a2 x2').
Proof.
  intros Hlen H1 H2 Hf1 Hf2 Hg.
  destruct (__init___agree c acts1 acts2 fit1 fit2 thr str lo hi hbs hdf al
              x1 x2 Hlen H1 H2 Hf1 Hf2 Hg)
    as (a1 & x1' & a2 & x2' & E1 & E2 & Hsim).
  exists a1, x1', a2, x2'. split; [assumption|]. split; [assumption|].
  split.
  - destruct Hsim as [(Hd & _) _]. unfold data in Hd. simpl in Hd. congruence.
  - now apply (trajectory_agree c).
Qed.

(** * The claims on concrete callers *)

Lemma alternating_unit_draws : unit_draws (G:=nat).
Proof.
  intros g. unfold next_random, Demo.alternating. cbn [fst].
  destruct (Nat.even g); split; reflexivity || discriminate.
Defined.

Lemma reachable_world0 : reachable Demo.world0.
Proof.
  apply (reach_init [Demo.noop; Demo.incr] Demo.counter (1 # 2) (1 # 10)
           3 10 (1 # 10) (9 # 10) 1 Demo.start).
  vm_compute. reflexivity.
Defined.

Lemma tick_trace_world0 :
  tick_trace Demo.world0 = (Ok ([1%nat], 1), Demo.world1).
Proof. vm_compute. reflexivity. Defined.



Lemma history_update_witness :
  tick_trace Demo.world0 = (Ok ([1%nat], 1), Demo.world1)
  /\ exists x,
       history (self Demo.world0) !! 1%nat = Some x
       /\ history (self Demo.world1) !! 1%nat
          = Some (x * history_decay_factor (self Demo.world0) + 1).
Proof.
  split; [exact tick_trace_world0|].
  destruct (history_update Demo.world0 Demo.world1 [1%nat] 1 1%nat
              tick_trace_world0) as [Hin _].
  destruct (Hin ltac:(apply list_elem_of_singleton; reflexivity))
    as (x & Hx & Hpos & _).
  exists x. split; [exact Hx|]. apply Hpos. reflexivity.
Defined.

Lemma mutation_step_adjusted_first_witness :
  tick_trace Demo.world0 = (Ok ([1%nat], 1), Demo.world1)
  /\ exists v,
       _variance (weight_map (self Demo.world0)) = Ok v
       /\ v < weight_variance_threshold (self Demo.world0)
       /\ mutation_step (self Demo.world1)
          = Z.max (min_mutation_step (self Demo.world0))
                  (mutation_step (self Demo.world0) - 1).
Proof.
  split; [exact tick_trace_world0|].
  destruct (mutation_step_adjusted_first Demo.world0 _ Demo.world1
              tick_trace_world0) as (v & Hv & Hlt & _ & _).
  exists v. split; [exact Hv|].
  assert (v < weight_variance_threshold (self Demo.world0)) as Hsmall.
  { vm_compute in Hv. injection Hv as <-. reflexivity. }
  split; [exact Hsmall|]. apply Hlt, Hsmall.
Defined.

Lemma mutation_step_in_range_witness :
  reachable Demo.world1
  /\ (min_mutation_step (self Demo.world1)
      <= max_mutation_step (self Demo.world1))%Z
  /\ (min_mutation_step (self Demo.world1)
      <= mutation_step (self Demo.world1)
      <= max_mutation_step (self Demo.world1))%Z.
Proof.
  assert (reachable Demo.world1) as Hreach.
  { apply (reach_tick Demo.world0 (Ok tt) Demo.world1 reachable_world0).
    vm_compute. reflexivity. }
  assert (min_mutation_step (self Demo.world1)
          <= max_mutation_step (self Demo.world1))%Z as Hle.
  { vm_compute. discriminate. }
  split; [exact Hreach|]. split; [exact Hle|].
  exact (mutation_step_in_range Demo.world1 Hreach Hle).
Defined.

Lemma single_action_safe_witness :
  reachable Demo.solo
  /\ length (action_space (self Demo.solo)) = 1%nat
  /\ (tick_trace Demo.solo).1 <> Raise ZeroDivisionError
  /\ (forall fired delta,
         (tick_trace Demo.solo).1 = Ok (fired, delta) ->
         fired = [] \/ fired = [0%nat]).
Proof.
  assert (reachable Demo.solo) as Hreach.
  { apply (reach_init [Demo.incr] Demo.counter (1 # 2) (1 # 10)
             3 10 (1 # 10) (9 # 10) 1 Demo.start).
    vm_compute. reflexivity. }
  assert (length (action_space (self Demo.solo)) = 1%nat) as Hone
    by (vm_compute; reflexivity).
  assert (tick_trace Demo.solo
          = ((tick_trace Demo.solo).1, (tick_trace Demo.solo).2)) as Htick
    by (vm_compute; reflexivity).
  destruct (single_action_safe Demo.solo _ _ Hreach Hone Htick)
    as (_ & Hzero & Hfired & _).
  split; [exact Hreach|]. split; [exact Hone|]. split; [|exact Hfired].
  intros Hr. apply Hzero in Hr. vm_compute in Hr. discriminate.
Defined.

Lemma deterministic_given_random_stream_witness :
  exists a1 x1' a2 x2',
    __init__ [Demo.noop; Demo.incr] Demo.five (1 # 2) (1 # 10) 3 10
      (1 # 10) (9 # 10) 1 Demo.start = (Ok a1, x1')
    /\ __init__ [Demo.skip; Demo.skip] Demo.five' (1 # 2) (1 # 10) 3 10
         (1 # 10) (9 # 10) 1 (mkAmbient tt 0%nat) = (Ok a2, x2')
    /\ weight_map a1 = weight_map a2
    /\ trajectory 3 (mkWorld a1 x1') = trajectory 3 (mkWorld a2 x2').
Proof.
  apply (deterministic_given_random_stream 5).
  - reflexivity.
  - repeat constructor; intros e; discriminate.
  - repeat constructor; intros e; discriminate.
  - intros e. reflexivity.
  - intros e. reflexivity.
  - reflexivity.
Defined.

Lemma quiet_tick_frame_witness :
  tick_trace Demo.quiet = (Ok ([], 0), (tick_trace Demo.quiet).2)
  /\ (ticks (self Demo.quiet)
      mod mutation_step (self (tick_trace Demo.quiet).2) <> 0)%Z
  /\ weight_map (self (tick_trace Demo.quiet).2) = weight_map (self Demo.quiet)
  /\ history (self (tick_trace Demo.quiet).2) = history (self Demo.quiet)
  /\ same_config (self Demo.quiet) (self (tick_trace Demo.quiet).2).
Proof.
  assert (tick_trace Demo.quiet = (Ok ([], 0), (tick_trace Demo.quiet).2))
    as Htick by (vm_compute; reflexivity).
  assert (ticks (self Demo.quiet)
          mod mutation_step (self (tick_trace Demo.quiet).2) <> 0)%Z
    as Hmod by (vm_compute; discriminate).
  split; [exact Htick|]. split; [exact Hmod|].
  exact (quiet_tick_frame Demo.quiet _ 0 Htick Hmod).
Defined.

(** * Further properties of the code *)

(** ** The pure helpers *)

Lemma py_sum_map_nonneg (f : Q -> Q) (l : list Q) :
  (forall x, 0 <= f x) -> 0 <= py_sum (map f l).
Proof.
  intros Hf. apply py_sum_nonneg. apply Forall_forall. intros y Hy.
  apply list_elem_of_In, in_map_iff in Hy as (x & <- & _). apply Hf.
Qed.

Lemma Qsquare_nonneg (x : Q) : 0 <= x ^ 2.
Proof.
  simpl. nra.
Qed.

(** The sum of squared deviations, expanded. *)
Lemma py_sum_deviations (l : list Q) (m : Q) :
  py_sum (map (fun x => (x - m) ^ 2) l)
  == py_sum (map (fun x => x * x) l) - 2 * m * py_sum l
     + of_int (length l) * (m * m).
Proof.
  induction l as [|x l IH]; simpl map; simpl length.
  - rewrite !py_sum_nil. unfold of_int. simpl. ring.
  - rewrite !py_sum_cons, IH, of_int_S. simpl. ring.
Qed.

Lemma py_sum_squares_le (l : list Q) :
  Forall in_unit l -> py_sum (map (fun x => x * x) l) <= py_sum l.
Proof.
  induction 1 as [|x l [H0 H1] _ IH]; simpl map.
  - rewrite !py_sum_nil. lra.
  - rewrite !py_sum_cons.
    assert (x * x <= x) as Hx.
    { nra. }
    lra.
Qed.

Lemma variance_value_nonneg (l : list Q) : 0 <= variance_value l.
Proof.
  destruct l as [|x l]; [simpl; lra|].
  unfold variance_value, variance_of.
  set (k := x :: l).
  assert (0 < of_int (length k)) as Hn
    by (apply of_int_pos; simpl; lia).
  apply Qle_shift_div_l; [assumption|].
  pose proof (py_sum_map_nonneg (fun y => (y - mean_of k) ^ 2) k
                (fun y => Qsquare_nonneg (y - mean_of k))).
  lra.
Qed.

Lemma variance_value_le_quarter (l : list Q) :
  Forall in_unit l -> variance_value l <= 1 # 4.
Proof.
  destruct l as [|x l]; [simpl; intros _; lra|].
  unfold variance_value, variance_of.
  set (k := x :: l).
  assert (0 < of_int (length k)) as Hn
    by (apply of_int_pos; simpl; lia).
  intros Hunit. apply Qle_shift_div_r; [assumption|].
  rewrite py_sum_deviations.
  pose proof (py_sum_squares_le k Hunit) as Hsq.
  assert (py_sum k == of_int (length k) * mean_of k) as Hmean.
  { unfold mean_of. field. lra. }
  set (m := mean_of k) in *. set (n := of_int (length k)) in *.
  set (s := py_sum k) in *.
  set (q := py_sum (map (fun y => y * y) k)) in *.
  rewrite Hmean in Hsq. rewrite Hmean. clearbody m n s q.
  pose proof (Qsquare_nonneg (m - (1 # 2))) as Hsq2. simpl in Hsq2.
  assert (0 <= n * ((m - (1 # 2)) * (m - (1 # 2)))) as Hsquare.
  { apply Qmult_le_0_compat; [lra|exact Hsq2]. }
  lra.
Qed.

(** X1.  The variance [_variance] returns is never negative, and it is at
    most 1/4 on a list of numbers of the unit interval. *)
Theorem variance_bounds (l : list Q) :
  exists v,
    _variance l = Ok v
    /\ 0 <= v
    /\ (Forall in_unit l -> v <= 1 # 4).
Proof.
  exists (variance_value l). split; [apply _variance_value|].
  split; [apply variance_value_nonneg|apply variance_value_le_quarter].
Qed.

Lemma variance_bounds_witness :
  exists v,
    _variance [1 # 4; 3 # 4] = Ok v /\ 0 <= v /\ v <= 1 # 4.
Proof.
  destruct (variance_bounds [1 # 4; 3 # 4]) as (v & Hv & H0 & H1).
  exists v. split; [exact Hv|]. split; [exact H0|].
  apply H1. repeat constructor; discriminate.
Defined.

Lemma lookup_map_Some {A B} (f : A -> B) (l : list A) (i : nat) (y : B) :
  map f l !! i = Some y -> exists x, l !! i = Some x /\ y = f x.
Proof.
  change (map f l) with (f <$> l). rewrite list_lookup_fmap.
  destruct (l !! i) as [x|]; simpl; [|discriminate].
  intros [= <-]. eauto.
Qed.

(** X2.  [_normalize] never reorders: on non-negative numbers, an
    element that is not larger than another before is not larger
    after. *)
Theorem normalize_keeps_order (l r : list Q) (i j : nat) (x y a b : Q) :
  Forall (Qle 0) l ->
  _normalize l = Ok r ->
  l !! i = Some x -> l !! j = Some y ->
  r !! i = Some a -> r !! j = Some b ->
  x <= y -> a <= b.
Proof.
  intros Hl Hr Hx Hy Ha Hb Hxy.
  destruct (Qeq_dec (py_sum l) 0) as [Hz|Hnz].
  - rewrite (_normalize_zero l Hz) in Hr. injection Hr as <-.
    apply lookup_replicate in Ha as [-> _].
    apply lookup_replicate in Hb as [-> _]. lra.
  - rewrite (_normalize_nonzero l Hnz) in Hr. injection Hr as <-.
    apply lookup_map_Some in Ha as (x' & Hx' & ->).
    apply lookup_map_Some in Hb as (y' & Hy' & ->).
    rewrite Hx in Hx'. rewrite Hy in Hy'.
    injection Hx' as <-. injection Hy' as <-.
    pose proof (py_sum_nonneg l Hl) as Hs.
    assert (0 < py_sum l) as Hp by lra.
    unfold Qdiv. apply Qmult_le_compat_r; [assumption|].
    apply Qlt_le_weak, Qinv_lt_0_compat, Hp.
Qed.

Lemma normalize_keeps_order_witness :
  exists a b,
    _normalize [1; 3] = Ok [a; b] /\ a <= b.
Proof.
  exists (1 / py_sum [1; 3]), (3 / py_sum [1; 3]).
  assert (_normalize [1; 3] = Ok [1 / py_sum [1; 3]; 3 / py_sum [1; 3]])
    as Hr by (vm_compute; reflexivity).
  split; [exact Hr|].
  apply (normalize_keeps_order [1; 3] _ 0%nat 1%nat 1 3 _ _
           ltac:(repeat constructor; discriminate) Hr
           eq_refl eq_refl eq_refl eq_refl).
  discriminate.
Defined.



(** ** Construction *)

Section Construction.
Context {Env G : Type} `{RandomGen G}.

Lemma _generate_weight_map_run (acts : list (callable Env unit))
    (x : Ambient Env G) :
  exists wm x',
    _generate_weight_map acts x = (Ok wm, x')
    /\ env x' = env x
    /\ gen x' = advance (length acts) (gen x)
    /\ length wm = length acts
    /\ (acts <> [] -> py_sum wm == 1)
    /\ (unit_draws (G:=G) -> Forall in_unit wm).
Proof.
  unfold _generate_weight_map.
  assert (wp (for_acc acts []
                (fun (acc : list Q) (_ : callable Env unit) (x0 : Ambient Env G) =>
                   let (u, x') := draw x0 in (Ok (acc ++ [u]), x')))
             (fun r x' =>
                env x' = env x
                /\ gen x' = advance (length acts) (gen x)
                /\ exists draws, r = Ok draws
                                 /\ length draws = length acts
                                 /\ (unit_draws (G:=G) -> Forall (Qle 0) draws))
             x) as Hloop.
  { apply (wp_for_acc
      (fun rem (acc : list Q) (x0 : Ambient Env G) =>
         env x0 = env x
         /\ gen x0 = advance (length acc) (gen x)
         /\ (length acc + length rem = length acts)%nat
         /\ (unit_draws (G:=G) -> Forall (Qle 0) acc))).
    - intros act rem acc x0 (Henv & Hgen & Hlen & Hacc). unfold wp, draw.
      destruct (next_random (gen x0)) as [u g] eqn:E. cbn [fst snd env gen].
      split; [assumption|]. split.
      + rewrite length_app, Nat.add_1_r. unfold advance in *. simpl.
        rewrite <- Hgen, E. reflexivity.
      + split; [rewrite length_app; simpl in *; lia|].
        intros Hdraws. apply Forall_app. split; [auto|].
        apply Forall_singleton. pose proof (Hdraws (gen x0)) as Hu.
        rewrite E in Hu. apply Hu.
    - intros acc x0 (Henv & Hgen & Hlen & Hacc). simpl in Hlen.
      rewrite Nat.add_0_r in Hlen. rewrite Hlen in Hgen.
      split; [assumption|]. split; [assumption|].
      exists acc. split; [reflexivity|]. split; assumption.
    - split; [reflexivity|]. split; [reflexivity|].
      split; [reflexivity|]. intros _. constructor. }
  unfold wp in Hloop. unfold bind.
  destruct (for_acc _ _ _ x) as [r x1]. cbn [fst snd] in Hloop.
  destruct Hloop as (Henv & Hgen & draws & -> & Hlen & Hpos).
  unfold lift.
  destruct (_normalize_total draws) as [wm Hwm]. rewrite Hwm.
  exists wm, x1. split; [reflexivity|].
  split; [assumption|]. split; [assumption|]. split.
  - rewrite (_normalize_length _ _ Hwm). assumption.
  - split.
    + intros Hne. apply (_normalize_sum draws wm); [|assumption].
      intros ->. destruct acts; [congruence|discriminate].
    + intros Hdraws. exact (_normalize_in_unit draws wm (Hpos Hdraws) Hwm).
Qed.

(** X4.  Construction fails exactly when the fitness probe raises on
    the caller's environment.  Otherwise it returns an agent over the
    given actions whose weight map has one weight per action (in the
    unit interval when the draws are), whose history is all zeros, whose
    mutation step is the lower bound and whose tick counter is 0;
    [last_fitness] is the probe's value.  No action is called (the
    environment is the one the probe leaves), and one number is drawn
    per action. *)
Theorem construction (acts : list (callable Env unit)) (fit : callable Env Q)
    (thr str : Q) (lo hi : Z) (hbs hdf al : Q) (x : Ambient Env G) :
  match fit (env x) with
  | (Some v, e') =>
      exists a x',
        __init__ acts fit thr str lo hi hbs hdf al x = (Ok a, x')
        /\ env x' = e'
        /\ gen x' = advance (length acts) (gen x)
        /\ action_space a = acts
        /\ fitness_func a = fit
        /\ last_fitness a = v
        /\ length (weight_map a) = length acts
        /\ (unit_draws (G:=G) -> Forall in_unit (weight_map a))
        /\ history a = replicate (length acts) 0
        /\ mutation_step a = lo
        /\ ticks a = 0%Z
        /\ data a = (weight_map a, al, v, lo, thr, lo, hi, str,
                     history a, hbs, hdf, 0%Z)
  | (None, e') =>
      exists x',
        __init__ acts fit thr str lo hi hbs hdf al x = (Raise CalleeError, x')
        /\ env x' = e'
        /\ gen x' = advance (length acts) (gen x)
  end.
Proof.
  destruct (_generate_weight_map_run acts x)
    as (wm & x1 & Hrun & Henv & Hgen & Hlen & Hsum & Hunit).
  unfold __init__, bind. rewrite Hrun. unfold invoke. rewrite Henv.
  destruct (fit (env x)) as [[v|] e'].
  - eexists _, _. split; [reflexivity|]. agent_cbn. cbn [env gen].
    rewrite map_const_replicate. repeat split; assumption.
  - eexists. split; [reflexivity|]. cbn [env gen]. split; [reflexivity|assumption].
Qed.

End Construction.

Lemma construction_witness :
  exists a x',
    Demo.construct = (Ok a, x')
    /\ env x' = 0%Z
    /\ gen x' = 2%nat
    /\ Forall in_unit (weight_map a)
    /\ history a = [0; 0].
Proof.
  pose proof (construction [Demo.noop; Demo.incr] Demo.counter (1 # 2)
                (1 # 10) 3 10 (1 # 10) (9 # 10) 1 Demo.start) as Hc.
  change (Demo.counter (env Demo.start)) with (Some (inject_Z 0), 0%Z) in Hc.
  destruct Hc as (a & x' & Hinit & Henv & Hgen & _ & _ & _ & _
                  & Hunit & Hhist & _).
  exists a, x'. split; [exact Hinit|]. split; [exact Henv|].
  split; [exact Hgen|].
  split; [apply Hunit, alternating_unit_draws|exact Hhist].
Defined.

(** ** The steps of [tick], as functions of the generator *)

Section Runs.
Context {Env G : Type} `{RandomGen G}.
Implicit Types (w : World Env G) (s : EARL_Agent Env).

Lemma draw_run (e : Env) (g : G) (k : nat) :
  draw (mkAmbient e (advance k g))
  = (nth_draw g k, mkAmbient e (advance (S k) g)).
Proof.
  unfold draw, nth_draw. cbn [gen env].
  destruct (next_random (advance k g)) as [u g'] eqn:E.
  unfold advance in *. simpl. rewrite E. reflexivity.
Qed.

Lemma seq_cons_inv (i k m : nat) (rem : list nat) :
  i :: rem = seq k m -> i = k /\ (0 < m)%nat /\ rem = seq (S k) (m - 1).
Proof.
  destruct m as [|m]; simpl; [discriminate|].
  intros [= -> ->]. rewrite Nat.sub_0_r. repeat split. lia.
Qed.

(** [_mutate_weight_map] draws one number per weight and calls nothing. *)
Lemma _mutate_weight_map_run w :
  _mutate_weight_map w
  = (Ok tt,
     mkWorld (set_weight_map
                (mutated (mutation_strength (self w)) (weight_map (self w))
                         (gen (amb w)))
                (self w))
             (mkAmbient (env (amb w))
                        (advance (length (weight_map (self w))) (gen (amb w))))).
Proof.
  set (s := self w). set (wm := weight_map s). set (g0 := gen (amb w)).
  set (e0 := env (amb w)). set (n := length wm).
  set (new := mutated (mutation_strength s) wm g0).
  assert (wp _mutate_weight_map
            (fun r w' => r = Ok tt
                         /\ w' = mkWorld (set_weight_map new s)
                                   (mkAmbient e0 (advance n g0))) w) as Hwp.
  { unfold _mutate_weight_map. wp_steps. fold s. fold wm. fold n.
    apply (wp_for_
      (fun rem w0 =>
         exists k cur,
           rem = seq k (n - k) /\ (k <= n)%nat
           /\ w0 = mkWorld (set_weight_map cur s) (mkAmbient e0 (advance k g0))
           /\ length cur = n
           /\ forall j, cur !! j = if (j <? k)%nat then new !! j else wm !! j)).
    - intros i rem w0 (k & cur & Hrem & Hk & -> & Hlen & Hcur).
      apply seq_cons_inv in Hrem as (-> & Hpos & ->).
      wp_steps. agent_cbn.
      destruct (lookup_lt_is_Some_2 wm k ltac:(unfold n in *; lia)) as [x Hx].
      assert (cur !! k = Some x) as Hck.
      { rewrite Hcur. rewrite (proj2 (Nat.ltb_ge k k)) by lia. exact Hx. }
      rewrite (proj2 (getitem_Ok _ _ _) Hck). wp_steps. agent_cbn.
      apply wp_random_uniform. intros u x1 Hdraw. cbn [amb] in Hdraw.
      rewrite draw_run in Hdraw. injection Hdraw as <- <-.
      wp_steps. agent_cbn.
      rewrite (setitem_lookup _ _ _ _ Hck). wp_steps. agent_cbn.
      set (v := py_min 1 (py_max 0 _)).
      exists (S k), (<[k := v]> cur).
      split; [f_equal; lia|]. split; [lia|]. split; [reflexivity|].
      split; [now rewrite length_insert|].
      intros j. destruct (decide (j = k)) as [->|Hjk].
      + rewrite list_lookup_insert_eq by lia.
        rewrite (proj2 (Nat.ltb_lt k (S k))) by lia.
        unfold new, mutated. rewrite list_lookup_imap. fold wm. rewrite Hx.
        reflexivity.
      + rewrite list_lookup_insert_ne by auto. rewrite Hcur.
        destruct (Nat.ltb_spec j k), (Nat.ltb_spec j (S k));
          try reflexivity; lia.
    - intros w0 (k & cur & Hrem & Hk & -> & Hlen & Hcur).
      assert (k = n) as ->.
      { destruct (n - k)%nat eqn:E; [lia|discriminate]. }
      split; [reflexivity|]. f_equal. f_equal.
      apply list_eq. intros j. rewrite Hcur.
      destruct (Nat.ltb_spec j n) as [Hj|Hj]; [reflexivity|].
      rewrite (proj2 (lookup_ge_None wm j)) by (unfold n in Hj; lia).
      symmetry. apply lookup_ge_None. unfold new, mutated.
      rewrite length_imap. fold n. lia.
    - exists 0%nat, wm. rewrite Nat.sub_0_r.
      split; [reflexivity|]. split; [lia|]. split.
      + unfold wm, s, e0, g0. destruct w as [[] []]. reflexivity.
      + split; [reflexivity|]. intros j. reflexivity. }
  unfold wp in Hwp. destruct (_mutate_weight_map w) as [r w'].
  cbn [fst snd] in Hwp. destruct Hwp as [-> ->]. reflexivity.
Qed.

Lemma drop_cons_imap {A B} (f : nat -> A -> B) (l : list A) (k : nat)
    (p : B) (rem : list B) :
  p :: rem = drop k (imap f l) ->
  exists x, l !! k = Some x /\ p = f k x /\ rem = drop (S k) (imap f l).
Proof.
  intros Hd.
  assert (imap f l !! k = Some p) as Hp.
  { rewrite <- (Nat.add_0_r k), <- lookup_drop, <- Hd. reflexivity. }
  rewrite (drop_S _ _ _ Hp) in Hd. injection Hd as ->.
  rewrite list_lookup_imap in Hp.
  destruct (l !! k) as [x|]; [|discriminate]. injection Hp as <-.
  exists x. auto.
Qed.

Lemma sampled_step (wm : list Q) (g : G) (k : nat) (x : Q) :
  wm !! k = Some x ->
  List.filter (fires wm g) (seq 0 (S k))
  = List.filter (fires wm g) (seq 0 k)
    ++ (if Qltb (nth_draw g k) x then [k] else []).
Proof.
  intros Hx. rewrite seq_S, List.filter_app. simpl.
  unfold fires at 2. rewrite Hx. now destruct (Qltb _ _).
Qed.

Lemma perform_snoc (acts : list (callable Env unit)) (acc : list nat)
    (k : nat) (a : callable Env unit) (e : Env) :
  acts !! k = Some a ->
  perform acts (acc ++ [k]) e = (a (perform acts acc e)).2.
Proof.
  intros Ha. unfold perform. rewrite fold_left_app. cbn [fold_left].
  unfold callable in *. now rewrite Ha.
Qed.

(** The sampling loop: which indices fire, what it leaves, and how it
    can fail. *)
Lemma sample_actions_run w :
  wp sample_actions
     (fun r w' =>
        self w' = self w
        /\ match r with
           | Ok indices =>
               indices = sampled (weight_map (self w)) (gen (amb w))
               /\ amb w'
                  = mkAmbient
                      (perform (action_space (self w)) indices (env (amb w)))
                      (advance (length (weight_map (self w))) (gen (amb w)))
           | Raise e =>
               (e = IndexError
                /\ (length (action_space (self w))
                    < length (weight_map (self w)))%nat)
               \/ (e = CalleeError
                   /\ exists i a e1,
                        action_space (self w) !! i = Some a
                        /\ (a e1).1 = None)
           end) w.
Proof.
  set (s := self w). set (wm := weight_map s). set (g0 := gen (amb w)).
  set (e0 := env (amb w)). set (n := length wm). set (acts := action_space s).
  unfold sample_actions. wp_steps. fold s. fold wm.
  set (pairs := imap (fun (i : nat) (weight : Q) => (i, weight)) wm).
  apply (wp_for_acc
    (fun rem acc w0 =>
       exists k,
         rem = drop k pairs /\ (k <= n)%nat
         /\ acc = List.filter (fires wm g0) (seq 0 k)
         /\ w0 = mkWorld s (mkAmbient (perform acts acc e0) (advance k g0)))).
  - intros [i weight] rem acc w0 (k & Hrem & Hk & Hacc & ->).
    apply drop_cons_imap in Hrem as (x & Hx & [= -> ->] & ->).
    apply wp_bind, wp_random_random. intros u x1 Hdraw. cbn [amb] in Hdraw.
    rewrite draw_run in Hdraw. injection Hdraw as <- <-. unfold then_.
    pose proof (sampled_step wm g0 k x Hx) as Hstep.
    assert (S k <= n)%nat as Hk' by (apply lookup_lt_Some in Hx; unfold n; lia).
    destruct (Qltb (nth_draw g0 k) x).
    + wp_steps. agent_cbn. fold acts.
      destruct (getitem_cases acts k) as [(a & Ha & ->)|(Hge & ->)].
      * wp_steps. apply wp_call. intros r x2. cbn [amb]. unfold invoke.
        cbn [env gen].
        destruct (a (perform acts acc e0)) as [[[]|] e'] eqn:Ea;
          intros [= <- <-]; unfold then_.
        -- wp_steps. exists (S k). split; [reflexivity|]. split; [assumption|].
           split; [now rewrite Hstep, Hacc|].
           cbn [self amb]. f_equal. f_equal.
           rewrite (perform_snoc acts acc k a e0 Ha). now rewrite Ea.
        -- cbn [self]. split; [reflexivity|]. right. split; [reflexivity|].
           exists k, a, (perform acts acc e0). split; [assumption|].
           now rewrite Ea.
      * unfold then_. cbn [self]. split; [reflexivity|]. left.
        split; [reflexivity|]. fold s. fold acts. fold wm. fold n. lia.
    + wp_steps. exists (S k). split; [reflexivity|]. split; [assumption|].
      split; [|reflexivity]. rewrite Hstep, app_nil_r. exact Hacc.
  - intros acc w0 (k & Hrem & Hk & Hacc & ->).
    assert (k = n) as ->.
    { apply (f_equal length) in Hrem. rewrite length_drop in Hrem.
      unfold pairs in Hrem. rewrite length_imap in Hrem. fold n in Hrem.
      simpl in Hrem. lia. }
    cbn [self amb]. split; [reflexivity|].
    split; [exact Hacc|]. rewrite Hacc. reflexivity.
  - exists 0%nat. split; [reflexivity|]. split; [lia|].
    split; [reflexivity|]. unfold s, e0, g0. now destruct w as [? []].
Qed.

Lemma normalized_Ok (l : list Q) : _normalize l = Ok (normalized l).
Proof.
  unfold normalized. destruct (_normalize_total l) as [r ->]. reflexivity.
Qed.

(** [_adjust_weight_map] on distinct indices within the lists. *)
Lemma _adjust_weight_map_run (delta : Q) (indices : list nat) w :
  NoDup indices ->
  Forall (fun i => (i < length (history (self w)))%nat) indices ->
  Forall (fun i => (i < length (weight_map (self w)))%nat) indices ->
  _adjust_weight_map delta indices w
  = (Ok tt,
     match indices with
     | [] => w
     | _ :: _ =>
         mkWorld (set_weight_map
                    (normalized (adjusted (self w) delta indices))
                    (set_history (decayed (self w) indices) (self w)))
                 (amb w)
     end).
Proof.
  intros Hnd Hlh Hlw.
  destruct indices as [|i0 l0] eqn:Eind; [reflexivity|].
  rewrite <- Eind in *.
  assert (indices <> []) as Hne by (subst; discriminate).
  clear Eind i0 l0.
  set (s := self w) in *. set (wm := weight_map s) in *.
  set (h := history s) in *.
  set (A := adjusted s delta indices). set (D := decayed s indices).
  assert (wp (_adjust_weight_map delta indices)
            (fun r w' =>
               r = Ok tt
               /\ w' = mkWorld (set_weight_map (normalized A) (set_history D s))
                         (amb w)) w) as Hwp.
  { unfold _adjust_weight_map.
    destruct indices as [|i0 l0]; [congruence|].
    lazy beta iota. set (indices := i0 :: l0) in *.
    apply wp_bind, wp_lift.
    rewrite py_div_ok.
    2:{ pose proof (of_int_pos (length indices)) as Hp.
        destruct indices; [congruence|]. specialize (Hp ltac:(simpl; lia)). lra. }
    unfold then_ at 1.
    apply wp_bind.
    apply (wp_for_
      (fun rem w0 =>
         exists wmc hc done,
           w0 = mkWorld (set_weight_map wmc (set_history hc s)) (amb w)
           /\ indices = done ++ rem
           /\ length wmc = length wm
           /\ length hc = length h
           /\ (forall j, wmc !! j
                         = if decide (j ∈ done) then A !! j else wm !! j)
           /\ (forall j, hc !! j
                         = if decide (j ∈ done) then D !! j else h !! j))).
    - intros i rem w0 (wmc & hc & done & -> & Hind & Hlwc & Hlhc & Hwc & Hhc).
      assert (i ∈ indices) as Hin
        by (rewrite Hind; apply elem_of_app; right; apply elem_of_cons; now left).
      assert (i ∉ done) as Hnot.
      { rewrite Hind in Hnd. apply NoDup_app in Hnd as (_ & Hnd & _).
        intros Hd. apply (Hnd i Hd). apply elem_of_cons. now left. }
      rewrite Forall_forall in Hlh, Hlw.
      destruct (lookup_lt_is_Some_2 h i (Hlh i Hin)) as [hx Hhx].
      destruct (lookup_lt_is_Some_2 wm i (Hlw i Hin)) as [x Hx].
      assert (hc !! i = Some hx) as Hhci
        by (rewrite Hhc; destruct (decide (i ∈ done)); [contradiction|exact Hhx]).
      assert (wmc !! i = Some x) as Hwci
        by (rewrite Hwc; destruct (decide (i ∈ done)); [contradiction|exact Hx]).
      wp_steps. agent_cbn.
      rewrite (proj2 (getitem_Ok _ _ _) Hhci). wp_steps. agent_cbn.
      rewrite (setitem_lookup _ _ _ _ Hhci). wp_steps. agent_cbn.
      rewrite (proj2 (getitem_Ok (<[i:=hx * history_decay_factor s]> hc) i
                        (hx * history_decay_factor s))).
      2:{ apply list_lookup_insert_eq. now apply lookup_lt_Some in Hhci. }
      wp_steps. agent_cbn.
      rewrite (proj2 (getitem_Ok _ _ _) Hwci). wp_steps. agent_cbn.
      rewrite (setitem_lookup _ _ _ _ Hwci). wp_steps. agent_cbn.
      set (v := py_min 1 (py_max 0 _)).
      exists (<[i:=v]> wmc), (<[i:=hx * history_decay_factor s]> hc),
             (done ++ [i]).
      split; [reflexivity|]. split; [now rewrite <- app_assoc|].
      rewrite !length_insert. split; [assumption|]. split; [assumption|].
      split.
      + intros j. destruct (decide (j = i)) as [->|Hji].
        * rewrite list_lookup_insert_eq by (apply lookup_lt_Some in Hwci; lia).
          destruct (decide (i ∈ done ++ [i])) as [_|Hn];
            [|exfalso; apply Hn, elem_of_app; right;
              now apply list_elem_of_singleton].
          unfold A, adjusted. rewrite list_lookup_imap. fold wm. rewrite Hx.
          simpl. destruct (decide (i ∈ indices)); [|contradiction].
          fold h. rewrite Hhx. reflexivity.
        * rewrite list_lookup_insert_ne by auto. rewrite Hwc.
          destruct (decide (j ∈ done)) as [Hd|Hd],
                   (decide (j ∈ done ++ [i])) as [Hd'|Hd'];
            try reflexivity.
          -- exfalso. apply Hd', elem_of_app. now left.
          -- exfalso. apply elem_of_app in Hd' as [Hd'|Hd']; [contradiction|].
             apply list_elem_of_singleton in Hd'. contradiction.
      + intros j. destruct (decide (j = i)) as [->|Hji].
        * rewrite list_lookup_insert_eq by (apply lookup_lt_Some in Hhci; lia).
          destruct (decide (i ∈ done ++ [i])) as [_|Hn];
            [|exfalso; apply Hn, elem_of_app; right;
              now apply list_elem_of_singleton].
          unfold D, decayed. rewrite list_lookup_imap. fold h. rewrite Hhx.
          simpl. destruct (decide (i ∈ indices)); [reflexivity|contradiction].
        * rewrite list_lookup_insert_ne by auto. rewrite Hhc.
          destruct (decide (j ∈ done)) as [Hd|Hd],
                   (decide (j ∈ done ++ [i])) as [Hd'|Hd'];
            try reflexivity.
          -- exfalso. apply Hd', elem_of_app. now left.
          -- exfalso. apply elem_of_app in Hd' as [Hd'|Hd']; [contradiction|].
             apply list_elem_of_singleton in Hd'. contradiction.
    - intros w0 (wmc & hc & done & -> & Hind & Hlwc & Hlhc & Hwc & Hhc).
      rewrite app_nil_r in Hind. subst done.
      assert (wmc = A) as ->.
      { apply list_eq. intros j. rewrite Hwc.
        destruct (decide (j ∈ indices)) as [Hj|Hj]; [reflexivity|].
        unfold A, adjusted. rewrite list_lookup_imap. fold wm.
        destruct (wm !! j); simpl; [|reflexivity].
        destruct (decide (j ∈ indices)); [contradiction|reflexivity]. }
      assert (hc = D) as ->.
      { apply list_eq. intros j. rewrite Hhc.
        destruct (decide (j ∈ indices)) as [Hj|Hj]; [reflexivity|].
        unfold D, decayed. rewrite list_lookup_imap. fold h.
        destruct (h !! j); simpl; [|reflexivity].
        destruct (decide (j ∈ indices)); [contradiction|reflexivity]. }
      unfold then_. wp_steps. agent_cbn. rewrite normalized_Ok.
      wp_steps. agent_cbn. split; reflexivity.
    - exists wm, h, []. split.
      + unfold wm, h, s. rewrite set_same. now destruct w.
      + repeat split; try reflexivity. }
  unfold wp in Hwp. destruct (_adjust_weight_map delta indices w) as [r w'].
  cbn [fst snd] in Hwp. destruct Hwp as [-> ->].
  destruct indices; [congruence|reflexivity].
Qed.

(** A loop that rewrites the history entry of each of its distinct
    indices, all within the list, by [f]. *)
Lemma history_loop_run (f : Q -> Q) (body : nat -> M (World Env G) unit) :
  (forall i w,
      wp (body i)
         (fun r w' =>
            match history (self w) !! i with
            | Some x =>
                r = Ok tt
                /\ w' = mkWorld (set_history (<[i := f x]> (history (self w)))
                                   (self w)) (amb w)
            | None => r = Raise IndexError /\ w' = w
            end) w) ->
  forall indices w,
    NoDup indices ->
    Forall (fun i => (i < length (history (self w)))%nat) indices ->
    for_ indices body w
    = (Ok tt,
       mkWorld (set_history
                  (imap (fun j x => if decide (j ∈ indices) then f x else x)
                        (history (self w)))
                  (self w))
               (amb w)).
Proof.
  intros Hbody indices w Hnd Hlt.
  set (s := self w) in *. set (h := history s) in *.
  set (new := imap (fun j x => if decide (j ∈ indices) then f x else x) h).
  assert (wp (for_ indices body)
            (fun r w' => r = Ok tt
                         /\ w' = mkWorld (set_history new s) (amb w)) w) as Hwp.
  { apply (wp_for_
      (fun rem w0 =>
         exists hc done,
           w0 = mkWorld (set_history hc s) (amb w)
           /\ indices = done ++ rem
           /\ length hc = length h
           /\ (forall j, hc !! j
                         = if decide (j ∈ done) then new !! j else h !! j))).
    - intros i rem w0 (hc & done & -> & Hind & Hlen & Hhc).
      assert (i ∈ indices) as Hin
        by (rewrite Hind; apply elem_of_app; right; apply elem_of_cons; now left).
      assert (i ∉ done) as Hnot.
      { rewrite Hind in Hnd. apply NoDup_app in Hnd as (_ & Hnd & _).
        intros Hd. apply (Hnd i Hd). apply elem_of_cons. now left. }
      rewrite Forall_forall in Hlt.
      destruct (lookup_lt_is_Some_2 h i (Hlt i Hin)) as [x Hx].
      assert (hc !! i = Some x) as Hhci
        by (rewrite Hhc; destruct (decide (i ∈ done)); [contradiction|exact Hx]).
      eapply wp_mono; [apply Hbody|]. agent_cbn. rewrite Hhci.
      intros r w' [-> ->]. agent_cbn.
      exists (<[i := f x]> hc), (done ++ [i]).
      split; [reflexivity|]. split; [now rewrite <- app_assoc|].
      split; [now rewrite length_insert|].
      intros j. destruct (decide (j = i)) as [->|Hji].
      + rewrite list_lookup_insert_eq by (apply lookup_lt_Some in Hhci; lia).
        destruct (decide (i ∈ done ++ [i])) as [_|Hn];
          [|exfalso; apply Hn, elem_of_app; right;
            now apply list_elem_of_singleton].
        unfold new. rewrite list_lookup_imap, Hx. simpl.
        destruct (decide (i ∈ indices)); [reflexivity|contradiction].
      + rewrite list_lookup_insert_ne by auto. rewrite Hhc.
        destruct (decide (j ∈ done)) as [Hd|Hd],
                 (decide (j ∈ done ++ [i])) as [Hd'|Hd'];
          try reflexivity.
        * exfalso. apply Hd', elem_of_app. now left.
        * exfalso. apply elem_of_app in Hd' as [Hd'|Hd']; [contradiction|].
          apply list_elem_of_singleton in Hd'. contradiction.
    - intros w0 (hc & done & -> & Hind & Hlen & Hhc).
      rewrite app_nil_r in Hind. subst done.
      split; [reflexivity|]. f_equal. f_equal.
      apply list_eq. intros j. rewrite Hhc.
      destruct (decide (j ∈ indices)) as [Hj|Hj]; [reflexivity|].
      unfold new. rewrite list_lookup_imap.
      destruct (h !! j); simpl; [|reflexivity].
      destruct (decide (j ∈ indices)); [contradiction|reflexivity].
    - exists h, []. split.
      + unfold h, s. rewrite set_history_same. now destruct w.
      + repeat split; try reflexivity. }
  unfold wp in Hwp. destruct (for_ indices body w) as [r w'].
  cbn [fst snd] in Hwp. destruct Hwp as [-> ->]. reflexivity.
Qed.

Lemma update_history_run (delta : Q) (indices : list nat) w :
  NoDup indices ->
  Forall (fun i => (i < length (history (self w)))%nat) indices ->
  update_history delta indices w
  = (Ok tt,
     mkWorld (set_history (rewarded (history (self w)) delta indices) (self w))
             (amb w)).
Proof.
  intros Hnd Hlt. unfold update_history, rewarded.
  destruct (Qltb 0 delta).
  - apply (history_loop_run (fun x => x + 1)); [|assumption|assumption].
    intros i w0. wp_steps.
    destruct (getitem_cases (history (self w0)) i) as [(x & Hx & ->)|(Hge & ->)].
    + wp_steps. rewrite (setitem_lookup _ _ _ _ Hx). wp_steps.
      rewrite Hx. now split.
    + unfold then_. apply lookup_ge_None in Hge. rewrite Hge. now split.
  - apply (history_loop_run (fun _ => 0)); [|assumption|assumption].
    intros i w0. wp_steps.
    destruct (history (self w0) !! i) as [x|] eqn:Hx.
    + rewrite (setitem_lookup _ _ _ _ Hx). wp_steps. now split.
    + apply lookup_ge_None in Hx. rewrite (setitem_Raise _ _ _ Hx).
      unfold then_. now split.
Qed.

Lemma length_mutated (str : Q) (wm : list Q) (g : G) :
  length (mutated str wm g) = length wm.
Proof. unfold mutated. apply length_imap. Qed.

Lemma length_sampling_weights w :
  length (sampling_weights w) = length (weight_map (self w)).
Proof.
  unfold sampling_weights. destruct (mutates (self w)); [|reflexivity].
  apply length_mutated.
Qed.

Lemma set_weight_map_same s : set_weight_map (weight_map s) s = s.
Proof. now destruct s. Qed.

(** [tick], outcome by outcome. *)
Lemma tick_trace_run w :
  well_sized (self w) -> wp tick_trace (tick_ran w) w.
Proof.
  intros [Hlw Hlh].
  unfold tick_trace. apply wp_bind. unfold wp at 1.
  rewrite _adjust_mutation_step_run. cbn [fst snd]. unfold then_ at 1.
  set (s := self w) in *. set (step := adjusted_step s).
  set (s1 := set_mutation_step step s).
  wp_steps. agent_cbn. fold s. fold step. unfold py_mod.
  destruct (Z.eqb_spec step 0) as [Hz|Hnz].
  { unfold then_, tick_ran. fold s. fold step. split; [assumption|reflexivity]. }
  wp_steps.
  (* the state when the sampling loop starts *)
  assert (wp (if (ticks s mod step =? 0)%Z then _mutate_weight_map else ret tt)
            (fun r w2 =>
               r = Ok tt
               /\ w2 = mkWorld (set_weight_map (sampling_weights w) s1)
                         (mkAmbient (env (amb w)) (sampling_gen w)))
            (mkWorld s1 (amb w))) as Hmut.
  { unfold sampling_weights, sampling_gen, mutates. fold s. fold step.
    destruct (ticks s mod step =? 0)%Z.
    - unfold wp. rewrite _mutate_weight_map_run. cbn [fst snd].
      split; reflexivity.
    - apply wp_ret. split; [reflexivity|].
      unfold s1. rewrite <- (set_weight_map_same s) at 1.
      destruct w as [? []]. reflexivity. }
  eapply wp_mono; [exact Hmut|]. clear Hmut.
  intros r w2 [-> ->]. unfold then_ at 1.
  set (wm1 := sampling_weights w). set (g1 := sampling_gen w).
  set (s2 := set_weight_map wm1 s1).
  set (w2 := mkWorld s2 (mkAmbient (env (amb w)) g1)).
  assert (length wm1 = length (weight_map s)) as Hlen1
    by apply length_sampling_weights.
  apply wp_bind.
  pose proof (sample_actions_spec w2) as Hspec.
  pose proof (sample_actions_run w2) as Hrun.
  unfold wp in Hspec, Hrun |- *.
  destruct (sample_actions w2) as [r3 w3]. cbn [fst snd] in *.
  destruct Hspec as (_ & _ & Hnd). destruct Hrun as (Hself & Hr).
  revert Hnd Hr. unfold w2. agent_cbn. cbn [env gen]. intros Hnd Hr.
  destruct r3 as [fired|e]; unfold then_ at 1.
  2:{ unfold tick_ran. fold s. fold step.
      destruct Hr as [[-> Hlt]|[-> Hcallee]].
      - unfold s2, s1 in Hlt. agent_cbn. revert Hlt. agent_cbn. intros Hlt.
        fold s in Hlt. lia.
      - split; [assumption|]. split; [rewrite Hself; reflexivity|].
        left. exact Hcallee. }
  destruct (Hnd fired eq_refl) as [Hnodup Hlt]. clear Hnd.
  destruct Hr as [Hfired Hamb].
  destruct w3 as [s3 x3]. cbn [self amb] in Hself, Hamb. subst s3 x3.
  change (sampled wm1 g1) with (fired_of w) in Hfired.
  wp_steps. agent_cbn. apply wp_call. intros r4 x4. unfold invoke.
  cbn [amb env gen].
  set (e1 := perform (action_space s) fired (env (amb w))).
  destruct (fitness_func s e1) as [[v|] e2] eqn:Efit;
    intros [= <- <-]; unfold then_ at 1.
  2:{ unfold tick_ran. fold s. fold step. cbn [self].
      split; [assumption|]. split; [reflexivity|]. right.
      rewrite <- Hfired. fold e1. now rewrite Efit. }
  wp_steps. agent_cbn. fold s.
  set (delta := v - last_fitness s).
  set (x5 := mkAmbient e2 _).
  assert (Forall (fun i => (i < length (history s2))%nat) fired) as Hlth.
  { unfold s2, s1. agent_cbn. fold s. rewrite Hlh, <- Hlw, <- Hlen1. exact Hlt. }
  unfold wp at 1.
  rewrite (_adjust_weight_map_run delta fired (mkWorld s2 x5) Hnodup Hlth Hlt).
  cbn [fst snd self amb]. unfold then_ at 1.
  set (s3 := after_adjust s2 delta fired).
  assert (match fired with
          | [] => mkWorld s2 x5
          | _ :: _ =>
              mkWorld (set_weight_map (normalized (adjusted s2 delta fired))
                         (set_history (decayed s2 fired) s2)) x5
          end = mkWorld s3 x5) as -> by (unfold s3; now destruct fired).
  wp_steps. agent_cbn.
  assert (Forall (fun i => (i < length (history (set_last_fitness v s3)))%nat)
            fired) as Hlth'.
  { agent_cbn. unfold s3, after_adjust. destruct fired; [exact Hlth|].
    agent_cbn. unfold decayed. rewrite length_imap. exact Hlth. }
  unfold wp at 1.
  rewrite (update_history_run delta fired
             (mkWorld (set_last_fitness v s3) x5) Hnodup Hlth').
  cbn [fst snd]. unfold then_ at 1. wp_steps. agent_cbn.
  unfold tick_ran. fold s. fold step. cbn [self amb env gen].
  split; [assumption|]. split; [assumption|].
  exists v. split; [exact Efit|]. split; [reflexivity|].
  split; [rewrite <- Hlen1; reflexivity|].
  unfold completed. fold s. fold step. fold wm1. rewrite <- Hfired.
  fold s1. fold s2. fold delta. fold s3.
  assert (ticks s3 = ticks s) as ->.
  { unfold s3, after_adjust. now destruct fired. }
  reflexivity.
Qed.

End Runs.

(** ** Calls of [tick] on constructed agents *)

Section Driven.
Context {Env G : Type} `{RandomGen G}.
Implicit Types (w : World Env G) (s : EARL_Agent Env).

Lemma reachable_well_sized w : reachable w -> well_sized (self w).
Proof. intros Hreach. exact (reachable_lengths w Hreach). Qed.

Lemma reachable_ran w r w' :
  reachable w -> tick_trace w = (r, w') -> tick_ran w r w'.
Proof.
  intros Hreach Htick.
  exact (wp_run _ _ _ _ _ Htick
           (tick_trace_run w (reachable_well_sized w Hreach))).
Qed.

Lemma reachable_step_range w :
  reachable w ->
  (min_mutation_step (self w) <= max_mutation_step (self w))%Z ->
  (min_mutation_step (self w) <= mutation_step (self w)
   <= max_mutation_step (self w))%Z.
Proof.
  induction 1 as [acts fit thr str lo hi hbs hdf al x a x' Hinit
                 |w r w' Hreach IH Htick
                 |w x Hreach IH].
  - destruct (__init___spec _ _ _ _ _ _ _ _ _ _ _ _ Hinit)
      as (_ & _ & _ & _ & Hs & Hlo & Hhi & _).
    cbn [self]. rewrite Hs, Hlo, Hhi. lia.
  - apply tick_spec in Htick as [r' Htick].
    pose proof (wp_run _ _ _ _ _ Htick (tick_trace_spec w))
      as (Hcfg & Hstep & _).
    destruct Hcfg as (_ & _ & _ & _ & Hlo & Hhi & _).
    rewrite Hstep, Hlo, Hhi. intros Hle. specialize (IH Hle).
    unfold adjusted_step. destruct (Qltb _ _); lia.
  - exact IH.
Qed.

(** X5.  A constructed agent always has one weight and one history
    entry per action, whatever ticks, completed or failed, it went
    through. *)
Theorem one_entry_per_action w :
  reachable w ->
  length (weight_map (self w)) = length (action_space (self w))
  /\ length (history (self w)) = length (action_space (self w)).
Proof. apply reachable_well_sized. Qed.

(** X6.  On a constructed agent [tick] never raises [IndexError], and it
    raises what a callable of the caller raised only if an action or the
    fitness probe can raise. *)
Theorem tick_raises_only_as_documented w (e : exn) w' :
  reachable w ->
  tick_trace w = (Raise e, w') ->
  e <> IndexError
  /\ (e = CalleeError ->
      ~ (Forall never_raises (action_space (self w))
         /\ never_raises (fitness_func (self w)))).
Proof.
  intros Hreach Htick.
  pose proof (reachable_ran w _ w' Hreach Htick) as Hran.
  unfold tick_ran in Hran.
  destruct e; [split; discriminate|contradiction| |contradiction].
  destruct Hran as (_ & _ & Hcallee). split; [discriminate|].
  intros _ [Hacts Hfit].
  destruct Hcallee as [(i & a & e1 & Ha & Hnone)|Hnone].
  - rewrite Forall_forall in Hacts.
    apply (Hacts a (list_elem_of_lookup_2 _ _ _ Ha) e1 Hnone).
  - apply (Hfit _ Hnone).
Qed.

(** X7.  On exact numbers, which neither round nor overflow: if the
    bounds of the mutation step are positive and ordered, and neither
    the actions nor the fitness probe raise, every call of [tick] on a
    constructed agent completes.  (A Python [int] too large for a float
    is not such a number: divided in [_adjust_weight_map] it raises
    [OverflowError].) *)
Theorem tick_completes w :
  reachable w ->
  (1 <= min_mutation_step (self w) <= max_mutation_step (self w))%Z ->
  Forall never_raises (action_space (self w)) ->
  never_raises (fitness_func (self w)) ->
  exists fired delta w', tick_trace w = (Ok (fired, delta), w').
Proof.
  intros Hreach [Hlo Hhi] Hacts Hfit.
  destruct (tick_trace w) as [r w'] eqn:Htick.
  pose proof (reachable_ran w r w' Hreach Htick) as Hran.
  pose proof (reachable_step_range w Hreach Hhi) as Hrange.
  assert (adjusted_step (self w) <> 0%Z) as Hstep.
  { unfold adjusted_step. destruct (Qltb _ _); lia. }
  unfold tick_ran in Hran.
  destruct r as [[fired delta]|[| | |]].
  - eauto.
  - destruct Hran as [Hz _]. contradiction.
  - contradiction.
  - destruct Hran as (_ & _ & [(i & a & e1 & Ha & Hnone)|Hnone]).
    + rewrite Forall_forall in Hacts.
      destruct (Hacts a (list_elem_of_lookup_2 _ _ _ Ha) e1 Hnone).
    + destruct (Hfit _ Hnone).
  - contradiction.
Qed.

(** X8.  [tick] is not transactional, and its failures leave the
    bookkeeping alone: a call that raises has already adjusted
    [mutation_step] (and may have mutated the weights), but it has
    changed neither [ticks] nor [last_fitness] nor the history; a call
    that completes advances [ticks] by one. *)
Theorem tick_counts_completed_calls w (r : result (list nat * Q)) w' :
  reachable w ->
  tick_trace w = (r, w') ->
  mutation_step (self w') = adjusted_step (self w)
  /\ match r with
     | Ok _ => ticks (self w') = (ticks (self w) + 1)%Z
     | Raise _ =>
         ticks (self w') = ticks (self w)
         /\ last_fitness (self w') = last_fitness (self w)
         /\ history (self w') = history (self w)
     end.
Proof.
  intros Hreach Htick.
  pose proof (reachable_ran w r w' Hreach Htick) as Hran.
  unfold tick_ran in Hran.
  destruct r as [[fired delta]|[| | |]].
  - destruct Hran as (_ & _ & v & _ & _ & _ & ->). unfold completed.
    agent_cbn. split; [|reflexivity].
    unfold after_adjust. now destruct (fired_of w).
  - destruct Hran as [_ ->]. agent_cbn. auto.
  - contradiction.
  - destruct Hran as (_ & -> & _). agent_cbn. auto.
  - contradiction.
Qed.

(** X9.  [tick] raises [ZeroDivisionError] exactly when the mutation
    step it has just assigned is 0 (the divisor of the modulo).  It then
    stops at once: the agent differs in [mutation_step] only, no number
    was drawn and nothing of the caller was called. *)
Theorem zero_step_stops_tick w :
  reachable w ->
  ((tick_trace w).1 = Raise ZeroDivisionError
   <-> adjusted_step (self w) = 0%Z)
  /\ (adjusted_step (self w) = 0%Z ->
      (tick_trace w).2 = mkWorld (set_mutation_step 0 (self w)) (amb w)).
Proof.
  intros Hreach.
  destruct (tick_trace w) as [r w'] eqn:Htick.
  pose proof (reachable_ran w r w' Hreach Htick) as Hran.
  unfold tick_ran in Hran. cbn [fst snd].
  destruct r as [[fired delta]|[| | |]].
  - destruct Hran as (Hnz & _). split; [split; [discriminate|]|]; intros Hz;
      contradiction.
  - destruct Hran as [Hz ->]. split; [split; auto|].
    intros _. now rewrite Hz.
  - contradiction.
  - destruct Hran as (Hnz & _). split; [split; [discriminate|]|]; intros Hz;
      contradiction.
  - contradiction.
Qed.

Lemma elem_of_sampled (wm : list Q) (g : G) (i : nat) :
  i ∈ sampled wm g
  <-> exists x, wm !! i = Some x /\ nth_draw g i < x.
Proof.
  unfold sampled. rewrite list_elem_of_In, filter_In, in_seq. unfold fires.
  split.
  - intros [_ Hf]. destruct (wm !! i) as [x|]; [|discriminate].
    exists x. split; [reflexivity|]. now apply Qltb_true.
  - intros (x & Hx & Hlt). rewrite Hx. split.
    + apply lookup_lt_Some in Hx. lia.
    + now apply Qltb_true.
Qed.

Lemma filter_seq_increasing (f : nat -> bool) (n k : nat) :
  increasing (List.filter f (seq k n)).
Proof.
  revert k. induction n as [|n IH]; intros k a b i j; simpl.
  - intros Ha. rewrite lookup_nil in Ha. discriminate.
  - assert (forall c y, List.filter f (seq (S k) n) !! c = Some y
                        -> (k < y)%nat) as Hlater.
    { intros c y Hy. apply list_elem_of_lookup_2, list_elem_of_In in Hy.
      apply filter_In in Hy as [Hy _]. apply in_seq in Hy. lia. }
    destruct (f k); [|apply IH].
    destruct a as [|a], b as [|b]; simpl; intros Ha Hb Hab; try lia.
    + injection Ha as <-. exact (Hlater b j Hb).
    + apply (IH (S k) a b i j Ha Hb). lia.
Qed.

(** X10.  The actions a completed call fired are the ones whose draw in
    the sampling loop, one per action in index order, was below the
    action's weight at that moment (after the mutation pass, when there
    was one).  They are listed in increasing order, so no action is
    called twice; when the draws are in [[0, 1)], a weight of 0 or less
    never fires and a weight of 1 or more always does. *)
Theorem fired_by_draws w (fired : list nat) (delta : Q) w' :
  reachable w ->
  tick_trace w = (Ok (fired, delta), w') ->
  (forall i,
      i ∈ fired
      <-> exists x, sampling_weights w !! i = Some x
                    /\ nth_draw (sampling_gen w) i < x)
  /\ increasing fired
  /\ (unit_draws (G:=G) ->
      forall i x, sampling_weights w !! i = Some x ->
                  (x <= 0 -> i ∉ fired) /\ (1 <= x -> i ∈ fired)).
Proof.
  intros Hreach Htick.
  pose proof (reachable_ran w _ w' Hreach Htick) as Hran.
  unfold tick_ran in Hran. destruct Hran as (_ & -> & _).
  split; [intros i; apply elem_of_sampled|].
  split; [apply filter_seq_increasing|].
  intros Hdraws i x Hx. unfold fired_of. rewrite elem_of_sampled.
  destruct (Hdraws (advance i (sampling_gen w))) as [Hlo Hhi].
  fold (nth_draw (sampling_gen w) i) in Hlo, Hhi. split.
  - intros Hle (y & Hy & Hlt). rewrite Hx in Hy. injection Hy as <-. lra.
  - intros Hge. exists x. split; [exact Hx|lra].
Qed.

(** X11.  In a completed call the fitness probe is called once, after
    the fired actions ran in index order on the caller's environment;
    its value becomes [last_fitness], the change the weights are
    adjusted by is that value minus the previous [last_fitness], and
    the environment the caller gets back is the one the probe left. *)
Theorem probe_follows_actions w (fired : list nat) (delta : Q) w' :
  reachable w ->
  tick_trace w = (Ok (fired, delta), w') ->
  exists v,
    fitness_func (self w) (perform (action_space (self w)) fired (env (amb w)))
    = (Some v, env (amb w'))
    /\ last_fitness (self w') = v
    /\ delta = v - last_fitness (self w).
Proof.
  intros Hreach Htick.
  pose proof (reachable_ran w _ w' Hreach Htick) as Hran.
  unfold tick_ran in Hran.
  destruct Hran as (_ & _ & v & Hfit & Hdelta & _ & Hself).
  exists v. split; [exact Hfit|]. split; [|exact Hdelta].
  rewrite Hself. unfold completed. agent_cbn. reflexivity.
Qed.

Lemma advance_add (n m : nat) (g : G) :
  advance (n + m) g = advance n (advance m g).
Proof. unfold advance. apply Nat.iter_add. Qed.

(** X12.  A completed call draws one number per action, and one more per
    action when it runs the mutation pass: the generator the caller gets
    back is the one it passed, advanced by that many draws. *)
Theorem draws_per_tick w (fired : list nat) (delta : Q) w' :
  reachable w ->
  tick_trace w = (Ok (fired, delta), w') ->
  gen (amb w')
  = advance ((if mutates (self w) then 2 else 1)
             * length (action_space (self w)))
            (gen (amb w)).
Proof.
  intros Hreach Htick.
  pose proof (reachable_ran w _ w' Hreach Htick) as Hran.
  unfold tick_ran in Hran.
  destruct Hran as (_ & _ & v & _ & _ & Hgen & _).
  destruct (reachable_well_sized w Hreach) as [Hlw _].
  rewrite Hgen, Hlw. unfold sampling_gen.
  destruct (mutates (self w)).
  - rewrite Hlw, <- advance_add. f_equal. lia.
  - f_equal. lia.
Qed.

End Driven.

(** ** The two passes over the weights *)

Lemma clip_moves_less (x d s : Q) :
  in_unit x -> - s <= d <= s ->
  in_unit (clip (x + d)) /\ - s <= clip (x + d) - x <= s.
Proof.
  intros [H0 H1] [Hlo Hhi]. split; [apply clip_in_unit|].
  unfold clip, py_min, py_max.
  destruct (Qltb 0 (x + d)) eqn:E0.
  - apply Qltb_true in E0.
    destruct (Qltb (x + d) 1) eqn:E1.
    + lra.
    + apply Qltb_false in E1. lra.
  - apply Qltb_false in E0.
    change (Qltb 0 1) with true. lazy iota. lra.
Qed.

Lemma clip_up (x m : Q) : x <= 1 -> 0 <= m -> x <= clip (x + m).
Proof.
  intros H1 Hm. unfold clip, py_min, py_max.
  destruct (Qltb 0 (x + m)) eqn:E0.
  - destruct (Qltb (x + m) 1) eqn:E1; lra.
  - apply Qltb_false in E0. change (Qltb 0 1) with true. lazy iota. lra.
Qed.

Lemma clip_down (x m : Q) : 0 <= x -> m <= 0 -> clip (x + m) <= x.
Proof.
  intros H0 Hm. unfold clip, py_min, py_max.
  destruct (Qltb 0 (x + m)) eqn:E0.
  - apply Qltb_true in E0.
    destruct (Qltb (x + m) 1) eqn:E1; [lra|].
    apply Qltb_false in E1. lra.
  - change (Qltb 0 1) with true. lazy iota. lra.
Qed.

Section Passes.
Context {Env G : Type} `{RandomGen G}.
Implicit Types (w : World Env G) (s : EARL_Agent Env).

(** X13.  [_mutate_weight_map] writes the weight map and nothing else of
    the agent, calls nothing and draws one number per weight.  With a
    non-negative [mutation_strength] and draws in [[0, 1)], weights of
    the unit interval stay in it and, in exact arithmetic, each moves by
    at most [mutation_strength]; on binary64 floats a move can exceed it
    by a rounding error. *)
Theorem mutation_is_bounded w :
  unit_draws (G:=G) ->
  0 <= mutation_strength (self w) ->
  Forall in_unit (weight_map (self w)) ->
  exists wm',
    _mutate_weight_map w
    = (Ok tt,
       mkWorld (set_weight_map wm' (self w))
               (mkAmbient (env (amb w))
                          (advance (length (weight_map (self w)))
                                   (gen (amb w)))))
    /\ Forall2 (fun x y =>
                  in_unit y
                  /\ - mutation_strength (self w) <= y - x
                     <= mutation_strength (self w))
               (weight_map (self w)) wm'.
Proof.
  intros Hdraws Hs Hunit.
  exists (mutated (mutation_strength (self w)) (weight_map (self w))
                  (gen (amb w))).
  split; [apply _mutate_weight_map_run|].
  apply Forall2_same_length_lookup. split; [now rewrite length_mutated|].
  intros i x y Hx. unfold mutated. rewrite list_lookup_imap, Hx. simpl.
  intros [= <-]. apply clip_moves_less.
  - rewrite Forall_forall in Hunit.
    exact (Hunit x (list_elem_of_lookup_2 _ _ _ Hx)).
  - destruct (Hdraws (advance i (gen (amb w)))) as [Hlo Hhi].
    fold (nth_draw (gen (amb w)) i) in Hlo, Hhi.
    set (u := nth_draw (gen (amb w)) i) in *.
    set (str := mutation_strength (self w)) in *.
    assert (0 <= str * u) by (apply Qmult_le_0_compat; lra).
    assert (0 <= str * (1 - u)) by (apply Qmult_le_0_compat; lra).
    lra.
Qed.

Lemma normalized_cases (l : list Q) :
  Forall (Qle 0) l ->
  (0 < py_sum l /\ normalized l = map (fun x => x / py_sum l) l)
  \/ (Forall (fun x => x == 0) l
      /\ normalized l = replicate (length l) (1 / of_int (length l))).
Proof.
  intros Hl. unfold normalized.
  pose proof (py_sum_nonneg l Hl) as Hs.
  destruct (Qeq_dec (py_sum l) 0) as [Hz|Hnz].
  - right. rewrite (_normalize_zero l Hz). split; [|reflexivity].
    apply Forall_forall. intros x Hx.
    pose proof (py_sum_bounds_elem l x Hl Hx) as Hle.
    rewrite Forall_forall in Hl. specialize (Hl x Hx). lra.
  - left. rewrite (_normalize_nonzero l Hnz). split; [lra|reflexivity].
Qed.

(** X14.  In exact arithmetic [_adjust_weight_map] reinforces in the
    direction of the change of fitness (on binary64 floats the rounding
    of the normalization can reverse the comparison by a last digit).
    With weights in the unit interval and non-negative history, [alpha],
    [history_bias_strength] and [history_decay_factor]:
    after a gain the weight of a fired action, relative to the weight of
    an action that did not fire, is at least what it was, and after a
    loss it is at most what it was (the ratios compared by cross
    multiplication). *)
Theorem reinforcement_direction (delta : Q) (indices : list nat) w :
  NoDup indices ->
  Forall (fun i => (i < length (history (self w)))%nat) indices ->
  Forall (fun i => (i < length (weight_map (self w)))%nat) indices ->
  Forall in_unit (weight_map (self w)) ->
  Forall (Qle 0) (history (self w)) ->
  0 <= alpha (self w) ->
  0 <= history_bias_strength (self w) ->
  0 <= history_decay_factor (self w) ->
  exists w',
    _adjust_weight_map delta indices w = (Ok tt, w')
    /\ forall i j xi xj ai aj,
         i ∈ indices -> j ∉ indices ->
         weight_map (self w) !! i = Some xi ->
         weight_map (self w) !! j = Some xj ->
         weight_map (self w') !! i = Some ai ->
         weight_map (self w') !! j = Some aj ->
         (0 <= delta -> aj * xi <= ai * xj)
         /\ (delta <= 0 -> ai * xj <= aj * xi).
Proof.
  intros Hnd Hlh Hlw Hunit Hhist Hal Hhbs Hhdf.
  rewrite (_adjust_weight_map_run delta indices w Hnd Hlh Hlw).
  eexists. split; [reflexivity|].
  intros i j xi xj ai aj Hi Hj Hxi Hxj.
  destruct indices as [|i0 l0] eqn:Eind; [inversion Hi|].
  rewrite <- Eind in *. clear Eind i0 l0. agent_cbn.
  set (s := self w) in *. set (A := adjusted s delta indices).
  assert (0 < of_int (length indices)) as Hn.
  { apply of_int_pos. destruct indices; [inversion Hi|simpl; lia]. }
  set (m := delta / of_int (length indices) * alpha s
            * (1 + default 0 (history s !! i) * history_decay_factor s
                   * history_bias_strength s)).
  assert (A !! i = Some (clip (xi + m))) as HAi.
  { unfold A, adjusted. rewrite list_lookup_imap, Hxi. simpl.
    destruct (decide (i ∈ indices)); [reflexivity|contradiction]. }
  assert (A !! j = Some xj) as HAj.
  { unfold A, adjusted. rewrite list_lookup_imap, Hxj. simpl.
    destruct (decide (j ∈ indices)); [contradiction|reflexivity]. }
  assert (in_unit xi) as [Hxi0 Hxi1].
  { rewrite Forall_forall in Hunit.
    exact (Hunit xi (list_elem_of_lookup_2 _ _ _ Hxi)). }
  assert (in_unit xj) as [Hxj0 Hxj1].
  { rewrite Forall_forall in Hunit.
    exact (Hunit xj (list_elem_of_lookup_2 _ _ _ Hxj)). }
  assert (Forall (Qle 0) A) as HA.
  { apply Forall_lookup. intros k y. unfold A, adjusted.
    rewrite list_lookup_imap.
    destruct (weight_map s !! k) as [x|] eqn:Hx; simpl; [|discriminate].
    intros [= <-]. destruct (decide (k ∈ indices)).
    - apply clip_in_unit.
    - rewrite Forall_forall in Hunit.
      apply (Hunit x (list_elem_of_lookup_2 _ _ _ Hx)). }
  assert (0 <= default 0 (history s !! i)) as Hh.
  { destruct (history s !! i) as [h|] eqn:Eh; simpl; [|lra].
    rewrite Forall_forall in Hhist.
    exact (Hhist h (list_elem_of_lookup_2 _ _ _ Eh)). }
  set (h := default 0 (history s !! i)) in *.
  assert (0 <= alpha s * (1 + h * history_decay_factor s
                              * history_bias_strength s)) as Hgain.
  { apply Qmult_le_0_compat; [assumption|].
    assert (0 <= h * history_decay_factor s * history_bias_strength s)
      by (repeat apply Qmult_le_0_compat; assumption).
    lra. }
  assert (m == delta * / of_int (length indices)
               * (alpha s * (1 + h * history_decay_factor s
                                 * history_bias_strength s))) as Hm
    by (unfold m, Qdiv; ring).
  assert (0 <= / of_int (length indices)) as Hinv
    by (apply Qlt_le_weak, Qinv_lt_0_compat, Hn).
  set (gain := alpha s * (1 + h * history_decay_factor s
                              * history_bias_strength s)) in *.
  set (c := / of_int (length indices)) in *.
  assert (0 <= c * gain) as Hcg by (apply Qmult_le_0_compat; assumption).
  assert (0 <= delta -> xi <= clip (xi + m)) as Hup.
  { intros Hd. apply clip_up; [assumption|]. rewrite Hm.
    assert (0 <= delta * (c * gain)) by (apply Qmult_le_0_compat; assumption).
    lra. }
  assert (delta <= 0 -> clip (xi + m) <= xi) as Hdown.
  { intros Hd. apply clip_down; [assumption|]. rewrite Hm.
    assert (0 <= - delta * (c * gain))
      by (apply Qmult_le_0_compat; [lra|assumption]).
    lra. }
  pose proof (clip_in_unit (xi + m)) as [Hp0 Hp1]. fold (clip (xi + m)) in *.
  set (p := clip (xi + m)) in *. clearbody p m gain c h.
  destruct (normalized_cases A HA) as [[Hpos ->]|[Hzero ->]].
  - change (map (fun x => x / py_sum A) A) with ((fun x => x / py_sum A) <$> A).
    rewrite !list_lookup_fmap, HAi, HAj. simpl. intros [= <-] [= <-].
    assert (0 < / py_sum A) as Hinv' by now apply Qinv_lt_0_compat.
    unfold Qdiv. set (t := / py_sum A) in *. clearbody t.
    assert (0 <= xj * t) as Hxt by (apply Qmult_le_0_compat; lra).
    split; intros Hd.
    + specialize (Hup Hd).
      assert (0 <= (p - xi) * (xj * t))
        by (apply Qmult_le_0_compat; lra).
      lra.
    + specialize (Hdown Hd).
      assert (0 <= (xi - p) * (xj * t))
        by (apply Qmult_le_0_compat; lra).
      lra.
  - intros Hai Haj.
    apply lookup_replicate in Hai as [-> _].
    apply lookup_replicate in Haj as [-> Hlt].
    rewrite Forall_forall in Hzero.
    pose proof (Hzero p (list_elem_of_lookup_2 _ _ _ HAi)) as Hpz.
    pose proof (Hzero xj (list_elem_of_lookup_2 _ _ _ HAj)) as Hxjz.
    assert (0 < of_int (length A)) as HnA by (apply of_int_pos; lia).
    assert (0 <= 1 / of_int (length A)) as Hc
      by (apply Qle_shift_div_l; lra).
    set (u := 1 / of_int (length A)) in *. clearbody u.
    split; intros Hd.
    + specialize (Hup Hd). assert (xi == 0) as -> by lra.
      rewrite Hxjz. lra.
    + rewrite Hxjz.
      assert (0 <= u * xi) by (apply Qmult_le_0_compat; lra).
      lra.
Qed.

(** X17.  [_adjust_weight_map] in closed form, on exact numbers (which
    never overflow; a Python [int] too large for a float makes the
    division raise [OverflowError]) and for distinct indices within the
    lists: every listed history entry is decayed once, every
    listed weight moves by an equal share of [delta_fitness] scaled by
    [alpha] and by the bias of its decayed history and is clipped, and
    the whole map is then normalized.  Nothing else of the agent is
    written, nothing is drawn and nothing of the caller is called. *)
Theorem adjust_weight_map_closed_form (delta : Q) (indices : list nat) w :
  indices <> [] ->
  NoDup indices ->
  Forall (fun i => (i < length (history (self w)))%nat) indices ->
  Forall (fun i => (i < length (weight_map (self w)))%nat) indices ->
  exists r,
    _normalize (adjusted (self w) delta indices) = Ok r
    /\ _adjust_weight_map delta indices w
       = (Ok tt,
          mkWorld (set_weight_map r
                     (set_history (decayed (self w) indices) (self w)))
                  (amb w)).
Proof.
  intros Hne Hnd Hlh Hlw.
  exists (normalized (adjusted (self w) delta indices)).
  split; [apply normalized_Ok|].
  rewrite (_adjust_weight_map_run delta indices w Hnd Hlh Hlw).
  destruct indices; [congruence|reflexivity].
Qed.

End Passes.

(** ** What holds of every constructed agent *)

Section Invariants.
Context {Env G : Type} `{RandomGen G}.
Implicit Types (w : World Env G) (s : EARL_Agent Env).

(** A call of [tick] leaves a history entry as it is, resets it, or
    decays it and adds one. *)
Lemma history_entry_after_tick w (r : result (list nat * Q)) w' :
  reachable w ->
  tick_trace w = (r, w') ->
  history_decay_factor (self w') = history_decay_factor (self w)
  /\ forall j y,
       history (self w') !! j = Some y ->
       exists x,
         history (self w) !! j = Some x
         /\ (y = x \/ y = x * history_decay_factor (self w) + 1 \/ y = 0).
Proof.
  intros Hreach Htick.
  pose proof (wp_run _ _ _ _ _ Htick (tick_trace_spec w))
    as (Hcfg & _ & _ & _ & _ & _ & Hok).
  split; [apply Hcfg|].
  intros j y Hy.
  destruct r as [[fired delta]|e].
  - destruct (Hok fired delta eq_refl) as (_ & _ & _ & _ & _ & Hhist).
    destruct (Hhist j) as [Hin Hout].
    destruct (decide (j ∈ fired)) as [Hj|Hj].
    + destruct (Hin Hj) as (x & Hx & Hy'). exists x. split; [exact Hx|].
      rewrite Hy in Hy'. injection Hy' as ->.
      destruct (Qltb 0 delta); auto.
    + rewrite (Hout Hj) in Hy. eauto.
  - pose proof (reachable_ran w _ w' Hreach Htick) as Hran.
    unfold tick_ran in Hran.
    assert (history (self w') = history (self w)) as Hsame.
    { destruct e.
      - destruct Hran as [_ ->]. reflexivity.
      - contradiction.
      - destruct Hran as (_ & -> & _). reflexivity.
      - contradiction. }
    rewrite Hsame in Hy. eauto.
Qed.

(** X15.  The history of a constructed agent is bounded: with a
    non-negative [history_decay_factor] no entry is ever negative, and,
    in exact arithmetic, with a factor below 1 no entry exceeds
    [1 / (1 - history_decay_factor)]; on binary64 floats an entry can
    settle a last digit above that bound. *)
Theorem history_bounded w :
  reachable w ->
  0 <= history_decay_factor (self w) ->
  Forall (Qle 0) (history (self w))
  /\ (history_decay_factor (self w) < 1 ->
      Forall (fun h => h <= 1 / (1 - history_decay_factor (self w)))
             (history (self w))).
Proof.
  induction 1 as [acts fit thr str lo hi hbs hdf al x a x' Hinit
                 |w r w' Hreach IH Htick
                 |w x Hreach IH].
  - destruct (__init___spec _ _ _ _ _ _ _ _ _ _ _ _ Hinit)
      as (_ & _ & _ & Hhist & _).
    cbn [self]. rewrite Hhist, map_const_replicate. intros Hd. split.
    + apply Forall_replicate. lra.
    + intros Hd1. apply Forall_replicate. apply Qle_shift_div_l; lra.
  - apply tick_spec in Htick as [r' Htick].
    destruct (history_entry_after_tick w r' w' Hreach Htick) as [Hcfg Hstep].
    rewrite Hcfg. intros Hd. destruct (IH Hd) as [Hpos Hbound].
    set (d := history_decay_factor (self w)) in *.
    split.
    + apply Forall_lookup. intros j y Hy.
      destruct (Hstep j y Hy) as (x & Hx & Hcase).
      pose proof (proj1 (Forall_lookup _ _) Hpos j x Hx) as Hx0.
      simpl in Hx0.
      assert (0 <= x * d) by (apply Qmult_le_0_compat; assumption).
      destruct Hcase as [-> | [-> | ->]]; lra.
    + intros Hd1. specialize (Hbound Hd1).
      apply Forall_lookup. intros j y Hy.
      destruct (Hstep j y Hy) as (x & Hx & Hcase).
      pose proof (proj1 (Forall_lookup _ _) Hbound j x Hx) as Hxb.
      pose proof (proj1 (Forall_lookup _ _) Hpos j x Hx) as Hx0.
      simpl in Hxb, Hx0.
      assert (1 / (1 - d) == 1 / (1 - d) * d + 1) as Hfix by (field; lra).
      assert (0 <= 1 / (1 - d)) as Hb0 by (apply Qle_shift_div_l; lra).
      set (b := 1 / (1 - d)) in *. clearbody b.
      assert (0 <= (b - x) * d) by (apply Qmult_le_0_compat; lra).
      destruct Hcase as [-> | [-> | ->]]; lra.
  - exact IH.
Qed.

Lemma small_variance_step w :
  unit_draws (G:=G) ->
  reachable w ->
  1 # 4 < weight_variance_threshold (self w) ->
  adjusted_step (self w)
  = Z.max (min_mutation_step (self w)) (mutation_step (self w) - 1).
Proof.
  intros Hdraws Hreach Hthr. unfold adjusted_step.
  pose proof (variance_value_le_quarter (weight_map (self w))
                (reachable_weights w Hdraws Hreach)) as Hvar.
  assert (Qltb (variance_value (weight_map (self w)))
               (weight_variance_threshold (self w)) = true) as ->
    by (apply Qltb_true; lra).
  reflexivity.
Qed.

Lemma reachable_step_min w :
  unit_draws (G:=G) ->
  reachable w ->
  1 # 4 < weight_variance_threshold (self w) ->
  mutation_step (self w) = min_mutation_step (self w).
Proof.
  intros Hdraws.
  induction 1 as [acts fit thr str lo hi hbs hdf al x a x' Hinit
                 |w r w' Hreach IH Htick
                 |w x Hreach IH].
  - destruct (__init___spec _ _ _ _ _ _ _ _ _ _ _ _ Hinit)
      as (_ & _ & _ & _ & Hs & Hlo & _).
    cbn [self]. intros _. now rewrite Hs, Hlo.
  - apply tick_spec in Htick as [r' Htick].
    pose proof (wp_run _ _ _ _ _ Htick (tick_trace_spec w))
      as (Hcfg & Hstep & _).
    destruct Hcfg as (_ & _ & _ & Hthr' & Hlo & _).
    rewrite Hstep, Hthr', Hlo. intros Hthr.
    rewrite (small_variance_step w Hdraws Hreach Hthr), (IH Hthr). lia.
  - exact IH.
Qed.

(** X16.  With draws in [[0, 1)] and a [weight_variance_threshold] above
    1/4 (the default is 1/2), [mutation_step] never leaves
    [min_mutation_step]: the variance of weights of the unit interval is
    at most 1/4, so [_adjust_mutation_step] always takes its first
    branch and [max_mutation_step] is never used. *)
Theorem large_threshold_pins_step w :
  unit_draws (G:=G) ->
  reachable w ->
  1 # 4 < weight_variance_threshold (self w) ->
  mutation_step (self w) = min_mutation_step (self w)
  /\ adjusted_step (self w) = min_mutation_step (self w).
Proof.
  intros Hdraws Hreach Hthr.
  pose proof (reachable_step_min w Hdraws Hreach Hthr) as Hstep.
  split; [exact Hstep|].
  rewrite (small_variance_step w Hdraws Hreach Hthr), Hstep. lia.
Qed.

(** X18.  An agent constructed without actions is inert: a call of
    [tick] that completes fires nothing, draws nothing and leaves the
    weight map and the history empty; only the probe is called. *)
Theorem no_actions_no_effect w (fired : list nat) (delta : Q) w' :
  reachable w ->
  action_space (self w) = [] ->
  tick_trace w = (Ok (fired, delta), w') ->
  fired = []
  /\ weight_map (self w') = []
  /\ history (self w') = []
  /\ gen (amb w') = gen (amb w)
  /\ (fitness_func (self w) (env (amb w))).2 = env (amb w').
Proof.
  intros Hreach Hacts Htick.
  destruct (reachable_well_sized w Hreach) as [Hlw Hlh].
  rewrite Hacts in Hlw, Hlh. simpl in Hlw, Hlh.
  apply nil_length_inv in Hlh.
  pose proof (reachable_ran w _ w' Hreach Htick) as Hran.
  unfold tick_ran in Hran.
  destruct Hran as (_ & Hfired & v & Hfit & _ & Hgen & Hself).
  assert (sampling_weights w = []) as Hsw.
  { apply nil_length_inv. now rewrite length_sampling_weights. }
  assert (fired = []) as ->.
  { rewrite Hfired. unfold fired_of, sampled. now rewrite Hsw. }
  assert (fired_of w = []) as Hnone by (symmetry; exact Hfired).
  split; [reflexivity|].
  rewrite Hself. unfold completed. rewrite Hnone. unfold after_adjust.
  agent_cbn. rewrite Hsw, Hlh.
  split; [reflexivity|]. split; [reflexivity|]. split.
  - rewrite Hgen, Hlw. unfold sampling_gen. rewrite Hlw.
    now destruct (mutates (self w)).
  - simpl in Hfit. now rewrite Hfit.
Qed.

End Invariants.

(** ** The further properties on concrete callers *)

Lemma reachable_fragile : reachable Cases.fragile.
Proof.
  apply (reach_init [Demo.noop; Cases.failing] Demo.counter (1 # 2) (1 # 10)
           3 10 (1 # 10) (9 # 10) 1 Demo.start).
  vm_compute. reflexivity.
Defined.

Lemma reachable_stalled : reachable Cases.stalled.
Proof.
  apply (reach_init [Demo.noop; Demo.incr] Demo.counter (1 # 2) (1 # 10)
           0 10 (1 # 10) (9 # 10) 1 Demo.start).
  vm_compute. reflexivity.
Defined.

Lemma tick_trace_fragile :
  tick_trace Cases.fragile = (Raise CalleeError, (tick_trace Cases.fragile).2).
Proof. vm_compute. reflexivity. Defined.

Lemma reachable_world1 : reachable Demo.world1.
Proof.
  apply (reach_tick Demo.world0 (Ok tt) Demo.world1 reachable_world0).
  vm_compute. reflexivity.
Defined.

Lemma reachable_idle : reachable Cases.idle.
Proof.
  apply (reach_init [] Demo.counter (1 # 2) (1 # 10)
           3 10 (1 # 10) (9 # 10) 1 Demo.start).
  vm_compute. reflexivity.
Defined.

Lemma one_entry_per_action_witness :
  reachable Demo.world1
  /\ length (weight_map (self Demo.world1)) = 2%nat
  /\ length (history (self Demo.world1)) = 2%nat.
Proof.
  split; [exact reachable_world1|].
  exact (one_entry_per_action Demo.world1 reachable_world1).
Defined.

Lemma tick_raises_only_as_documented_witness :
  reachable Cases.fragile
  /\ tick_trace Cases.fragile
     = (Raise CalleeError, (tick_trace Cases.fragile).2)
  /\ ~ (Forall never_raises (action_space (self Cases.fragile))
        /\ never_raises (fitness_func (self Cases.fragile))).
Proof.
  split; [exact reachable_fragile|]. split; [exact tick_trace_fragile|].
  exact (proj2 (tick_raises_only_as_documented Cases.fragile CalleeError _
                  reachable_fragile tick_trace_fragile) eq_refl).
Defined.

Lemma tick_completes_witness :
  reachable Demo.world0
  /\ (1 <= min_mutation_step (self Demo.world0)
      <= max_mutation_step (self Demo.world0))%Z
  /\ Forall never_raises (action_space (self Demo.world0))
  /\ never_raises (fitness_func (self Demo.world0))
  /\ exists fired delta w',
       tick_trace Demo.world0 = (Ok (fired, delta), w').
Proof.
  assert (1 <= min_mutation_step (self Demo.world0)
          <= max_mutation_step (self Demo.world0))%Z as Hrange
    by (vm_compute; split; discriminate).
  assert (Forall never_raises (action_space (self Demo.world0))) as Hacts
    by (repeat constructor; intros e; discriminate).
  assert (never_raises (fitness_func (self Demo.world0))) as Hfit
    by (intros e; discriminate).
  split; [exact reachable_world0|]. split; [exact Hrange|].
  split; [exact Hacts|]. split; [exact Hfit|].
  exact (tick_completes Demo.world0 reachable_world0 Hrange Hacts Hfit).
Defined.

Lemma tick_counts_completed_calls_witness :
  (reachable Demo.world0
   /\ tick_trace Demo.world0 = (Ok ([1%nat], 1), Demo.world1)
   /\ ticks (self Demo.world1) = (ticks (self Demo.world0) + 1)%Z)
  /\ (reachable Cases.fragile
      /\ tick_trace Cases.fragile
         = (Raise CalleeError, (tick_trace Cases.fragile).2)
      /\ ticks (self (tick_trace Cases.fragile).2)
         = ticks (self Cases.fragile)
      /\ last_fitness (self (tick_trace Cases.fragile).2)
         = last_fitness (self Cases.fragile)
      /\ history (self (tick_trace Cases.fragile).2)
         = history (self Cases.fragile)).
Proof.
  split.
  - split; [exact reachable_world0|]. split; [exact tick_trace_world0|].
    exact (proj2 (tick_counts_completed_calls Demo.world0 _ Demo.world1
                    reachable_world0 tick_trace_world0)).
  - split; [exact reachable_fragile|]. split; [exact tick_trace_fragile|].
    exact (proj2 (tick_counts_completed_calls Cases.fragile _ _
                    reachable_fragile tick_trace_fragile)).
Defined.

Lemma zero_step_stops_tick_witness :
  reachable Cases.stalled
  /\ adjusted_step (self Cases.stalled) = 0%Z
  /\ (tick_trace Cases.stalled).1 = Raise ZeroDivisionError
  /\ (tick_trace Cases.stalled).2
     = mkWorld (set_mutation_step 0 (self Cases.stalled)) (amb Cases.stalled).
Proof.
  assert (adjusted_step (self Cases.stalled) = 0%Z) as Hz
    by (vm_compute; reflexivity).
  destruct (zero_step_stops_tick Cases.stalled reachable_stalled)
    as [Hiff Hw].
  split; [exact reachable_stalled|]. split; [exact Hz|].
  split; [apply Hiff, Hz|apply Hw, Hz].
Defined.

Lemma fired_by_draws_witness :
  reachable Demo.world0
  /\ tick_trace Demo.world0 = (Ok ([1%nat], 1), Demo.world1)
  /\ (exists x, sampling_weights Demo.world0 !! 1%nat = Some x
                /\ nth_draw (sampling_gen Demo.world0) 1 < x)
  /\ increasing [1%nat].
Proof.
  destruct (fired_by_draws Demo.world0 [1%nat] 1 Demo.world1
              reachable_world0 tick_trace_world0) as (Hfired & Hinc & _).
  split; [exact reachable_world0|]. split; [exact tick_trace_world0|].
  split; [|exact Hinc].
  apply Hfired. apply list_elem_of_singleton. reflexivity.
Defined.

Lemma probe_follows_actions_witness :
  reachable Demo.world0
  /\ tick_trace Demo.world0 = (Ok ([1%nat], 1), Demo.world1)
  /\ exists v,
       fitness_func (self Demo.world0)
         (perform (action_space (self Demo.world0)) [1%nat]
                  (env (amb Demo.world0)))
       = (Some v, env (amb Demo.world1))
       /\ last_fitness (self Demo.world1) = v
       /\ 1 = v - last_fitness (self Demo.world0).
Proof.
  split; [exact reachable_world0|]. split; [exact tick_trace_world0|].
  exact (probe_follows_actions Demo.world0 [1%nat] 1 Demo.world1
           reachable_world0 tick_trace_world0).
Defined.

Lemma draws_per_tick_witness :
  reachable Demo.world0
  /\ tick_trace Demo.world0 = (Ok ([1%nat], 1), Demo.world1)
  /\ mutates (self Demo.world0) = true
  /\ gen (amb Demo.world1) = advance 4 (gen (amb Demo.world0)).
Proof.
  split; [exact reachable_world0|]. split; [exact tick_trace_world0|].
  split; [vm_compute; reflexivity|].
  exact (draws_per_tick Demo.world0 [1%nat] 1 Demo.world1
           reachable_world0 tick_trace_world0).
Defined.

Lemma mutation_is_bounded_witness :
  unit_draws (G:=nat)
  /\ 0 <= mutation_strength (self Demo.world0)
  /\ Forall in_unit (weight_map (self Demo.world0))
  /\ exists wm',
       (_mutate_weight_map Demo.world0).1 = Ok tt
       /\ weight_map (self (_mutate_weight_map Demo.world0).2) = wm'
       /\ Forall2 (fun x y => in_unit y /\ - (1 # 10) <= y - x <= 1 # 10)
                  (weight_map (self Demo.world0)) wm'.
Proof.
  assert (0 <= mutation_strength (self Demo.world0)) as Hs
    by (vm_compute; discriminate).
  assert (Forall in_unit (weight_map (self Demo.world0))) as Hunit
    by (repeat constructor; vm_compute; discriminate).
  split; [exact alternating_unit_draws|]. split; [exact Hs|].
  split; [exact Hunit|].
  destruct (mutation_is_bounded Demo.world0 alternating_unit_draws Hs Hunit)
    as (wm' & Hrun & Hmoved).
  exists wm'. rewrite Hrun. split; [reflexivity|]. split; [reflexivity|].
  exact Hmoved.
Defined.

Lemma reinforcement_direction_witness :
  exists w',
    _adjust_weight_map 1 [1%nat] Demo.world0 = (Ok tt, w')
    /\ forall xi xj ai aj,
         weight_map (self Demo.world0) !! 1%nat = Some xi ->
         weight_map (self Demo.world0) !! 0%nat = Some xj ->
         weight_map (self w') !! 1%nat = Some ai ->
         weight_map (self w') !! 0%nat = Some aj ->
         aj * xi <= ai * xj.
Proof.
  destruct (reinforcement_direction 1 [1%nat] Demo.world0
              ltac:(repeat constructor; apply not_elem_of_nil)
              ltac:(repeat constructor)
              ltac:(repeat constructor)
              ltac:(repeat constructor; vm_compute; discriminate)
              ltac:(repeat constructor; vm_compute; discriminate)
              ltac:(vm_compute; discriminate)
              ltac:(vm_compute; discriminate)
              ltac:(vm_compute; discriminate))
    as (w' & Hrun & Hdir).
  exists w'. split; [exact Hrun|].
  intros xi xj ai aj Hxi Hxj Hai Haj.
  apply (Hdir 1%nat 0%nat xi xj ai aj); try assumption.
  - apply list_elem_of_singleton. reflexivity.
  - intros Hin. apply list_elem_of_singleton in Hin. discriminate.
  - discriminate.
Defined.

Lemma history_bounded_witness :
  reachable Demo.world1
  /\ 0 <= history_decay_factor (self Demo.world1)
  /\ history_decay_factor (self Demo.world1) < 1
  /\ Forall (Qle 0) (history (self Demo.world1))
  /\ Forall (fun h => h <= 1 / (1 - history_decay_factor (self Demo.world1)))
            (history (self Demo.world1)).
Proof.
  assert (0 <= history_decay_factor (self Demo.world1)) as Hd0
    by (vm_compute; discriminate).
  assert (history_decay_factor (self Demo.world1) < 1) as Hd1
    by (vm_compute; reflexivity).
  destruct (history_bounded Demo.world1 reachable_world1 Hd0) as [Hpos Hle].
  split; [exact reachable_world1|]. split; [exact Hd0|].
  split; [exact Hd1|]. split; [exact Hpos|exact (Hle Hd1)].
Defined.

Lemma large_threshold_pins_step_witness :
  unit_draws (G:=nat)
  /\ reachable Demo.world1
  /\ 1 # 4 < weight_variance_threshold (self Demo.world1)
  /\ mutation_step (self Demo.world1) = 3%Z
  /\ adjusted_step (self Demo.world1) = 3%Z.
Proof.
  assert (1 # 4 < weight_variance_threshold (self Demo.world1)) as Hthr
    by (vm_compute; reflexivity).
  split; [exact alternating_unit_draws|]. split; [exact reachable_world1|].
  split; [exact Hthr|].
  exact (large_threshold_pins_step Demo.world1 alternating_unit_draws
           reachable_world1 Hthr).
Defined.

Lemma adjust_weight_map_closed_form_witness :
  exists r,
    _normalize (adjusted (self Demo.world0) 1 [1%nat]) = Ok r
    /\ _adjust_weight_map 1 [1%nat] Demo.world0
       = (Ok tt,
          mkWorld (set_weight_map r
                     (set_history (decayed (self Demo.world0) [1%nat])
                                  (self Demo.world0)))
                  (amb Demo.world0)).
Proof.
  apply (adjust_weight_map_closed_form 1 [1%nat] Demo.world0).
  - discriminate.
  - repeat constructor. apply not_elem_of_nil.
  - repeat constructor.
  - repeat constructor.
Defined.

Lemma no_actions_no_effect_witness :
  reachable Cases.idle
  /\ action_space (self Cases.idle) = []
  /\ tick_trace Cases.idle = (Ok ([], 0), (tick_trace Cases.idle).2)
  /\ weight_map (self (tick_trace Cases.idle).2) = []
  /\ history (self (tick_trace Cases.idle).2) = []
  /\ gen (amb (tick_trace Cases.idle).2) = gen (amb Cases.idle).
Proof.
  assert (tick_trace Cases.idle = (Ok ([], 0), (tick_trace Cases.idle).2))
    as Htick by (vm_compute; reflexivity).
  destruct (no_actions_no_effect Cases.idle [] 0 _ reachable_idle eq_refl
              Htick) as (_ & Hwm & Hh & Hgen & _).
  split; [exact reachable_idle|]. split; [reflexivity|].
  split; [exact Htick|]. split; [exact Hwm|]. split; [exact Hh|exact Hgen].
Defined.

(** * Where binary64 floats depart from the exact model

    The theorems above are about the code run on exact numbers.  The
    lemmas of this part evaluate the binary64 transcription on concrete
    inputs: sums that should be 1, variances that should be 0 and
    bounds that should hold differ by a rounding error, or fail when an
    intermediate result overflows. *)

Section Departures.
Local Open Scope float_scope.



(** On floats [_variance] can also raise: the square of a deviation of
    1e200 is out of range. *)
Lemma binary64_variance_overflows :
  Binary64._variance [0x1.4e718d7d7625ap+664; - 0x1.4e718d7d7625ap+664]
  = Raise OverflowError.
Proof. vm_compute. reflexivity. Qed.


(** Normalizing twice is not normalizing once: the second pass changes
    the last digits of [_normalize [0.1; 0.2; 0.3]]. *)
Lemma binary64_normalize_twice :
  rbind (Binary64._normalize
           [0x1.999999999999ap-4; 0x1.999999999999ap-3; 0x1.3333333333333p-2])
        Binary64._normalize
  = Ok [0x1.5555555555556p-3; 0x1.5555555555556p-2; 0x1.fffffffffffffp-2]
  /\ Binary64._normalize
       [0x1.999999999999ap-4; 0x1.999999999999ap-3; 0x1.3333333333333p-2]
     = Ok [0x1.5555555555555p-3; 0x1.5555555555555p-2; 0x1.ffffffffffffep-2].
Proof. split; vm_compute; reflexivity. Qed.

(** A mutation pass of strength 0.1 can move a weight by more than 0.1:
    with the draw 1 - 2^-53 the weight 0.45 becomes
    0.55000000000000004, which is 0.10000000000000003 away. *)
Lemma binary64_mutation_exceeds_strength :
  exists y,
    Binary64.weight_map
      (Binary64.self
         (Binary64._mutate_weight_map Binary64.Demo.before_mutation).2)
    = [y]
    /\ y = 0x1.199999999999ap-1
    /\ y - 0x1.ccccccccccccdp-2 = 0x1.999999999999cp-4
    /\ (Binary64.mutation_strength
          (Binary64.self Binary64.Demo.before_mutation)
        <? y - 0x1.ccccccccccccdp-2) = true.
Proof.
  eexists. split; [vm_compute; reflexivity|].
  split; [reflexivity|]. split; vm_compute; reflexivity.
Qed.

(** [_adjust_weight_map] with no change of fitness can raise the share of
    the fired action: on the weights 0.1, 0.2 and 0.3, for the fired
    index 0 and the index 2, the cross product that should not exceed
    the other does. *)
Lemma binary64_adjustment_rounds :
  exists a0 a1 a2,
    Binary64._adjust_weight_map 0 [0%nat] Binary64.Demo.three
    = (Ok tt,
       Binary64.mkWorld
         (Binary64.set_weight_map [a0; a1; a2]
            (Binary64.self Binary64.Demo.three))
         (Binary64.amb Binary64.Demo.three))
    /\ [a0; a1; a2]
       = [0x1.5555555555555p-3; 0x1.5555555555555p-2; 0x1.ffffffffffffep-2]
    /\ (a2 * 0x1.999999999999ap-4 <? a0 * 0x1.3333333333333p-2) = true.
Proof.
  eexists _, _, _. split; [vm_compute; reflexivity|].
  split; [reflexivity|]. vm_compute. reflexivity.
Qed.

(** With [history_decay_factor = 0.333] the history entry of an action
    that fires and improves the fitness in every tick settles at
    1.4992503748125938, above 1 / (1 - 0.333), which is
    1.4992503748125936. *)
Lemma binary64_history_exceeds_bound :
  Binary64.Demo.construct_solo
  = (Ok (Binary64.self Binary64.Demo.solo), Binary64.amb Binary64.Demo.solo)
  /\ Binary64.history (Binary64.self (Binary64.after 40 Binary64.Demo.solo))
     = [0x1.7fcedf6055f92p+0]
  /\ 1 / (1 - Binary64.history_decay_factor
                (Binary64.self Binary64.Demo.solo))
     = 0x1.7fcedf6055f91p+0
  /\ (0x1.7fcedf6055f91p+0 <? 0x1.7fcedf6055f92p+0) = true.
Proof.
  split; [vm_compute; reflexivity|].
  split; [vm_compute; reflexivity|].
  split; vm_compute; reflexivity.
Qed.

End Departures.
